(** * Image Loop Player: collection, interval, playback and persistence

    A shallow embedding of the [App] component (state, handlers and effects)
    and of the session store it talks to, followed by the properties of the
    collection operations, the interval clamp, the playback scheduler and the
    debounced session save.  Beside the component: the effects that revoke
    object URLs, the keyboard handler, the storage module over IndexedDB and
    the service worker, each with its own model of the browser.

    Conventions.
    - JavaScript numbers are modelled by [JS.number]: a rational or one of
      the three special values.  Timestamps are rationals (milliseconds);
      where the code computes with them, the result is rounded to a double
      ([JS.binary64]).
    - Arrays are lists.  An array slot that may hold the JavaScript value
      [undefined] has type [Slot] ([None] is [undefined]).
    - The browser (timer queue, animation frames, IndexedDB store) is part
      of the state; what it decides (when a timer fires, when a promise
      settles, which files are picked) is an [event].
    - A render and the effects it triggers are one atomic step.
    - Object URLs are not part of the state: the ones created and the
      ones revoked are read off an execution ([createdUrls],
      [collections], [lifetime]).
    Left out: the [cancelled] flag of the load effect, the effect that
    preloads images, fullscreen and the drop zone's highlight.  In the
    machine of the component a call of [saveSession] resolves or is
    rejected, as the event says; why IndexedDB rejects is modelled with
    the storage module. *)

From Stdlib Require Import String.
From Stdlib Require Import List Arith Lia Bool ZArith QArith Qround Lqa Permutation.
From Stdlib Require Import Qpower Qabs.
Import ListNotations.

Local Open Scope nat_scope.

(* ================================================================== *)
(** ** JavaScript numbers *)
(* ================================================================== *)

Module JS.

(** The values of type [number] the code compares and clamps.  The two
    zeros are not told apart: no clamp result is a zero. *)
Inductive number : Type :=
| NaN
| NegInf
| Num (q : Q)
| PosInf.

(** [a <= b] of JavaScript: false as soon as one side is NaN. *)
Definition leb (a b : number) : bool :=
  match a, b with
  | NaN, _ | _, NaN => false
  | NegInf, _ => true
  | _, PosInf => true
  | Num p, Num q => Qle_bool p q
  | _, _ => false
  end.

(** [a >= b] of JavaScript. *)
Definition geb (a b : number) : bool := leb b a.

(** [Math.max(a, b)]: NaN if an argument is NaN, else the larger. *)
Definition Math_max (a b : number) : number :=
  match a, b with
  | NaN, _ | _, NaN => NaN
  | _, _ => if leb a b then b else a
  end.

(** [Math.min(a, b)]: NaN if an argument is NaN, else the smaller. *)
Definition Math_min (a b : number) : number :=
  match a, b with
  | NaN, _ | _, NaN => NaN
  | _, _ => if leb a b then a else b
  end.

(** [Object.is] on numbers, the test React uses to decide whether a state
    value or an effect dependency changed. *)
Definition same_value (a b : number) : bool :=
  match a, b with
  | NaN, NaN | NegInf, NegInf | PosInf, PosInf => true
  | Num p, Num q => Qeq_bool p q
  | _, _ => false
  end.



(** The delay a timer is armed with: the number converted to an integer
    number of milliseconds, NaN and the infinities giving 0, a negative
    delay counting as 0. *)
Definition to_delay (a : number) : Q :=
  match a with
  | Num q => if Qle_bool q 0 then 0%Q else inject_Z (Qfloor q)
  | _ => 0%Q
  end.

(** *** Doubles

    Timestamps are doubles, and so is their difference: the one place
    where the component computes with them, [now - start], rounds. *)

(** The exponent of the binade of a positive rational: the [e] with
    [2^e <= q < 2^(e+1)]. *)
Definition ilog2 (q : Q) : Z :=
  let e := (Z.log2 (Qnum q) - Z.log2 (Zpos (Qden q)))%Z in
  if Qle_bool (2 ^ e) q then e else (e - 1)%Z.

(** The nearest integer, a tie going to the even one. *)
Definition round_even (q : Q) : Z :=
  let f := Qfloor q in
  match Qcompare (q - inject_Z f) (1 # 2) with
  | Lt => f
  | Gt => (f + 1)%Z
  | Eq => if Z.even f then f else (f + 1)%Z
  end.

(** The double nearest to a rational (IEEE 754 binary64, round to nearest,
    ties to even): 53 significant bits, exponents from -1022, an infinity
    from [2^1024 - 2^970] on. *)
Definition binary64 (q : Q) : number :=
  if Qeq_bool q 0 then Num 0
  else
    let a := Qabs q in
    let e := Z.max (ilog2 a) (-1022) in
    let ulp := (2 ^ (e - 52))%Q in
    let r := (inject_Z (round_even (a / ulp)) * ulp)%Q in
    if Qle_bool (2 ^ 1024) r then (if Qle_bool 0 q then PosInf else NegInf)
    else Num (Qred (if Qle_bool 0 q then r else - r)).

(** [a - b] on two doubles: the double nearest to the difference. *)
Definition fsub (a b : Q) : number := binary64 (a - b).

End JS.

Import JS.

(* ================================================================== *)
(** ** Constants and data *)
(* ================================================================== *)

Definition MIN_INTERVAL : number := Num 16.
Definition MAX_INTERVAL : number := Num 10000.
Definition MAX_IMAGES : nat := 50.
Definition SAVE_DEBOUNCE_MS : Q := 400%Q.

(** [ImageItem]: an entry of the live collection. *)
Record ImageItem : Type := mkImageItem {
  id : string;
  name : string;
  url : string;
  dataUrl : string
}.

(** [SessionImage]: the persisted form of an entry (no [url]). *)
Record SessionImage : Type := mkSessionImage {
  si_id : string;
  si_name : string;
  si_dataUrl : string
}.

(** [SessionData]: the snapshot kept under the session key.  The interval
    field is optional on the reading side: the restore code supplies a
    default when it is missing. *)
Record SessionData : Type := mkSessionData {
  sd_intervalMs : option number;
  sd_images : list SessionImage
}.

(** An array slot: an entry or [undefined]. *)
Definition Slot : Type := option ImageItem.

(** The interval lies in [[16, 10000]]. *)
Definition in_range (n : number) : Prop :=
  match n with
  | Num q => (16 <= q /\ q <= 10000)%Q
  | _ => False
  end.

(* ================================================================== *)
(** ** Interval *)
(* ================================================================== *)

(** [Math.min(Math.max(v, MIN_INTERVAL), MAX_INTERVAL)], the expression the
    three clamping sites share. *)
Definition clamp (v : number) : number :=
  Math_min (Math_max v MIN_INTERVAL) MAX_INTERVAL.

(** [clampedInterval], the memo derived from the [intervalMs] state. *)
Definition clampedInterval (intervalMs : number) : number := clamp intervalMs.

(** [handleIntervalChange]: the value handed to [setIntervalMs]. *)
Definition handleIntervalChange (value : number) : number := clamp value.


(** The interval restored at startup:
    [Math.min(Math.max(session.intervalMs ?? 100, MIN_INTERVAL), MAX_INTERVAL)]. *)
Definition restoreInterval (session : SessionData) : number :=
  clamp (match sd_intervalMs session with Some v => v | None => Num 100 end).

(* ================================================================== *)
(** ** Collection operations *)
(* ================================================================== *)

(** [handleRemove]: the [setImages] updater and, nested in it, the
    [setCurrentIndex] updater.  Returns the next collection and index. *)
Definition handleRemove (rid : string) (prev : list ImageItem) (idx : nat)
  : list ImageItem * nat :=
  let next := filter (fun img => negb (String.eqb (id img) rid)) prev in
  (next,
   if length next =? 0 then 0
   else if length next <=? idx then 0 else idx).

(** [arr.splice(start, 1)] on [start >= 0]: the array left behind. *)
Definition splice_out {A : Type} (start : nat) (l : list A) : list A :=
  firstn start l ++ skipn (S start) l.

(** [arr.splice(pos, 0, x)] on [pos >= 0]: a position past the end is the
    end. *)
Definition splice_in {A : Type} (pos : nat) (x : A) (l : list A) : list A :=
  firstn pos l ++ x :: skipn pos l.

(** The [setImages] updater of [onDragEnd]:
    [const next = [...prev]; const [moved] = next.splice(start, 1);
     next.splice(end, 0, moved); return next].  [moved] is [undefined] when
    nothing was spliced out. *)
Definition reorder (start end_ : nat) (prev : list Slot) : list Slot :=
  let moved : Slot := match nth_error prev start with
                      | Some x => x
                      | None => None
                      end in
  splice_in end_ moved (splice_out start prev).

(** What [onDragEnd] does to the two drag refs, the collection and the
    index.  [None] for a ref is [null]. *)
Record DragState : Type := mkDragState {
  d_dragItem : option nat;
  d_dragOverItem : option nat;
  d_images : list Slot;
  d_currentIndex : nat
}.

Definition onDragEnd (s : DragState) : DragState :=
  let start := d_dragItem s in
  let end_ := d_dragOverItem s in
  match start, end_ with
  | Some i, Some j =>
      if i =? j then mkDragState None None (d_images s) (d_currentIndex s)
      else mkDragState None None (reorder i j (d_images s)) 0
  | _, _ => mkDragState None None (d_images s) (d_currentIndex s)
  end.

(** The entries of an array none of whose slots is [undefined]. *)
Fixpoint defined_all (l : list Slot) : option (list ImageItem) :=
  match l with
  | [] => Some []
  | None :: _ => None
  | Some x :: r =>
      match defined_all r with
      | Some r' => Some (x :: r')
      | None => None
      end
  end.

(** A picked [File], together with what the browser answers for it:
    the result of [FileReader.readAsDataURL] ([None]: the read fails), the
    object URL [URL.createObjectURL] returns, and the identifier
    [crypto.randomUUID] draws for it. *)
Record File : Type := mkFile {
  file_name : string;
  file_read : option string;
  file_objectUrl : string;
  file_uuid : string
}.

(** [Math.max(0, MAX_IMAGES - currentCount)]. *)
Definition available (currentCount : nat) : nat :=
  Z.to_nat (Z.max 0 (Z.of_nat MAX_IMAGES - Z.of_nat currentCount)).

(** [Array.from(files).slice(0, available)]. *)
Definition selectFiles (currentCount : nat) (files : list File) : list File :=
  firstn (available currentCount) files.

(** The body of the [selected.map] callback: the entry made of a file once
    it is read.  The object URL is created then, whatever becomes of the
    other files of the call ([createdByImport] counts these URLs). *)
Definition importFile (f : File) : option ImageItem :=
  match file_read f with
  | Some d => Some (mkImageItem (file_uuid f) (file_name f) (file_objectUrl f) d)
  | None => None
  end.

(** [Promise.all] over a list of settled results: all of them, or a
    rejection. *)
Fixpoint promise_all {A : Type} (l : list (option A)) : option (list A) :=
  match l with
  | [] => Some []
  | None :: _ => None
  | Some x :: r =>
      match promise_all r with
      | Some r' => Some (x :: r')
      | None => None
      end
  end.

(** What [handleFiles] has in hand once its awaits settle: the new entries
    and the number shown by the notice, if one is shown. *)
Record ImportOutcome : Type := mkImportOutcome {
  io_next : list ImageItem;
  io_alert : option nat
}.

(** [handleFiles] up to its state updates.  [None]: a read was rejected,
    and the function ends there, before the notice and the updates. *)
Definition handleFiles_outcome (selected : list File) (attempted : nat)
  : option ImportOutcome :=
  match promise_all (map importFile selected) with
  | Some next =>
      Some (mkImportOutcome next
              (if length selected <? attempted then Some (length selected) else None))
  | None => None
  end.

(** The [setImages] updater of [handleFiles]: [[...prev, ...next]]. *)
Definition appendImages (prev next : list ImageItem) : list ImageItem :=
  prev ++ next.

(** [handleFiles] run on a collection that no other update touches while
    the files are read: the collection afterwards and the notice. *)
Definition handleFiles (images : list ImageItem) (files : list File)
  : option (list ImageItem * option nat) :=
  match handleFiles_outcome (selectFiles (length images) files) (length files) with
  | Some o => Some (appendImages images (io_next o), io_alert o)
  | None => None
  end.

(** The persisted form of an entry: [({ id, name, dataUrl })]. *)
Definition toSessionImage (img : ImageItem) : SessionImage :=
  mkSessionImage (id img) (name img) (dataUrl img).

(** The payload the save timer builds from the values it closed over. *)
Definition savePayload (clamped : number) (images : list ImageItem) : SessionData :=
  mkSessionData (Some clamped) (map toSessionImage images).

(** Restoring the entries of a session:
    [session.images.slice(0, MAX_IMAGES).map(async img => ({...img, url: ...}))]
    under [Promise.all].  [objectUrl] is what [dataUrlToObjectUrl] answers
    for the entry at a position ([None]: the fetch fails). *)
Definition restoreImages (objectUrl : nat -> SessionImage -> option string)
    (session : SessionData) : option (list ImageItem) :=
  let sliced := firstn MAX_IMAGES (sd_images session) in
  promise_all
    (map (fun '(k, img) =>
            match objectUrl k img with
            | Some u => Some (mkImageItem (si_id img) (si_name img) u (si_dataUrl img))
            | None => None
            end)
         (combine (seq 0 (length sliced)) sliced)).

(* ================================================================== *)
(** ** The component and the browser as a state machine *)
(* ================================================================== *)

(** Progress of the startup load: before [loadSession()] settles, between
    its answer and the end of the object-URL derivations, and afterwards.
    [loadSession] is called when the component mounts, and its read is
    queued then: IndexedDB runs it before the write of any save made later,
    so that the pending load holds what it will answer, [found], the
    session the store held at the mount. *)
Inductive LoadState : Type :=
| LoadPending (found : option SessionData)
| LoadFetched (session : SessionData)
| LoadSettled.

(** A callback waiting in the timeout queue, with the values its closure
    holds: the save timer ([clampedInterval], [images]) or the playback
    [tick] ([images.length], [clampedInterval]). *)
Inductive TimeoutCb : Type :=
| SaveCb (clamped : number) (imgs : list ImageItem)
| TickCb (len : nat) (clamped : number).

Record Timeout : Type := mkTimeout {
  to_id : nat;
  to_due : Q;
  to_cb : TimeoutCb
}.

(** A pending animation-frame request for [step], with the values its
    closure holds: [isPlaying], [images.length], [clampedInterval] and the
    current value of the local [start]. *)
Record Frame : Type := mkFrame {
  fr_id : nat;
  fr_isPlaying : bool;
  fr_len : nat;
  fr_clamped : number;
  fr_start : Q
}.

(** The persistence history: a run of the save effect (a save request,
    with the snapshot it closes over) or a call of [saveSession], which
    resolves ([Wr]) or is rejected ([Rej], the error being logged by the
    [catch]). *)
Inductive SaveEv : Type :=
| Req (t : Q) (p : SessionData)
| Wr (t : Q) (p : SessionData)
| Rej (t : Q) (p : SessionData).

(** A call of [handleFiles] whose reads have not settled yet. *)
Record ImportJob : Type := mkImportJob {
  job_selected : list File;
  job_attempted : nat
}.

(** The state: the four [useState] cells the claims concern, the refs, what
    the last run of the save and playback effects left behind (the [timer]
    constant of the save effect's cleanup; whether the playback effect
    returned a cleanup), the browser side (timeout queue, frame requests,
    identifier counter, store, notices shown), the asynchronous work in
    flight, and three observers: the persistence history, the number of
    index advances made by the scheduler, and the time.  [store] is the
    store as the calls of [saveSession] made so far leave it. *)
Record State : Type := mkState {
  images : list ImageItem;
  intervalMs : number;
  isPlaying : bool;
  currentIndex : nat;
  timeoutRef : option nat;
  rafRef : option nat;
  dragItem : option nat;
  dragOverItem : option nat;
  saveTimer : option nat;
  playbackCleanup : bool;
  timeouts : list Timeout;
  frames : list Frame;
  nextId : nat;
  store : option SessionData;
  load : LoadState;
  imports : list ImportJob;
  alerts : list nat;
  savelog : list SaveEv;
  advances : nat;
  clock : Q
}.

Definition set_images (v : list ImageItem) (s : State) : State :=
  mkState v (intervalMs s) (isPlaying s) (currentIndex s) (timeoutRef s)
    (rafRef s) (dragItem s) (dragOverItem s) (saveTimer s)
    (playbackCleanup s) (timeouts s) (frames s) (nextId s) (store s)
    (load s) (imports s) (alerts s) (savelog s) (advances s) (clock s).

Definition set_intervalMs (v : number) (s : State) : State :=
  mkState (images s) v (isPlaying s) (currentIndex s) (timeoutRef s)
    (rafRef s) (dragItem s) (dragOverItem s) (saveTimer s)
    (playbackCleanup s) (timeouts s) (frames s) (nextId s) (store s)
    (load s) (imports s) (alerts s) (savelog s) (advances s) (clock s).

Definition set_isPlaying (v : bool) (s : State) : State :=
  mkState (images s) (intervalMs s) v (currentIndex s) (timeoutRef s)
    (rafRef s) (dragItem s) (dragOverItem s) (saveTimer s)
    (playbackCleanup s) (timeouts s) (frames s) (nextId s) (store s)
    (load s) (imports s) (alerts s) (savelog s) (advances s) (clock s).

Definition set_currentIndex (v : nat) (s : State) : State :=
  mkState (images s) (intervalMs s) (isPlaying s) v (timeoutRef s)
    (rafRef s) (dragItem s) (dragOverItem s) (saveTimer s)
    (playbackCleanup s) (timeouts s) (frames s) (nextId s) (store s)
    (load s) (imports s) (alerts s) (savelog s) (advances s) (clock s).

Definition set_timeoutRef (v : option nat) (s : State) : State :=
  mkState (images s) (intervalMs s) (isPlaying s) (currentIndex s) v
    (rafRef s) (dragItem s) (dragOverItem s) (saveTimer s)
    (playbackCleanup s) (timeouts s) (frames s) (nextId s) (store s)
    (load s) (imports s) (alerts s) (savelog s) (advances s) (clock s).

Definition set_rafRef (v : option nat) (s : State) : State :=
  mkState (images s) (intervalMs s) (isPlaying s) (currentIndex s)
    (timeoutRef s) v (dragItem s) (dragOverItem s) (saveTimer s)
    (playbackCleanup s) (timeouts s) (frames s) (nextId s) (store s)
    (load s) (imports s) (alerts s) (savelog s) (advances s) (clock s).

Definition set_dragItem (v : option nat) (s : State) : State :=
  mkState (images s) (intervalMs s) (isPlaying s) (currentIndex s)
    (timeoutRef s) (rafRef s) v (dragOverItem s) (saveTimer s)
    (playbackCleanup s) (timeouts s) (frames s) (nextId s) (store s)
    (load s) (imports s) (alerts s) (savelog s) (advances s) (clock s).

Definition set_dragOverItem (v : option nat) (s : State) : State :=
  mkState (images s) (intervalMs s) (isPlaying s) (currentIndex s)
    (timeoutRef s) (rafRef s) (dragItem s) v (saveTimer s)
    (playbackCleanup s) (timeouts s) (frames s) (nextId s) (store s)
    (load s) (imports s) (alerts s) (savelog s) (advances s) (clock s).

Definition set_saveTimer (v : option nat) (s : State) : State :=
  mkState (images s) (intervalMs s) (isPlaying s) (currentIndex s)
    (timeoutRef s) (rafRef s) (dragItem s) (dragOverItem s) v
    (playbackCleanup s) (timeouts s) (frames s) (nextId s) (store s)
    (load s) (imports s) (alerts s) (savelog s) (advances s) (clock s).

Definition set_playbackCleanup (v : bool) (s : State) : State :=
  mkState (images s) (intervalMs s) (isPlaying s) (currentIndex s)
    (timeoutRef s) (rafRef s) (dragItem s) (dragOverItem s) (saveTimer s) v
    (timeouts s) (frames s) (nextId s) (store s) (load s) (imports s)
    (alerts s) (savelog s) (advances s) (clock s).

Definition set_timeouts (v : list Timeout) (s : State) : State :=
  mkState (images s) (intervalMs s) (isPlaying s) (currentIndex s)
    (timeoutRef s) (rafRef s) (dragItem s) (dragOverItem s) (saveTimer s)
    (playbackCleanup s) v (frames s) (nextId s) (store s) (load s)
    (imports s) (alerts s) (savelog s) (advances s) (clock s).

Definition set_frames (v : list Frame) (s : State) : State :=
  mkState (images s) (intervalMs s) (isPlaying s) (currentIndex s)
    (timeoutRef s) (rafRef s) (dragItem s) (dragOverItem s) (saveTimer s)
    (playbackCleanup s) (timeouts s) v (nextId s) (store s) (load s)
    (imports s) (alerts s) (savelog s) (advances s) (clock s).

Definition set_nextId (v : nat) (s : State) : State :=
  mkState (images s) (intervalMs s) (isPlaying s) (currentIndex s)
    (timeoutRef s) (rafRef s) (dragItem s) (dragOverItem s) (saveTimer s)
    (playbackCleanup s) (timeouts s) (frames s) v (store s) (load s)
    (imports s) (alerts s) (savelog s) (advances s) (clock s).

Definition set_store (v : option SessionData) (s : State) : State :=
  mkState (images s) (intervalMs s) (isPlaying s) (currentIndex s)
    (timeoutRef s) (rafRef s) (dragItem s) (dragOverItem s) (saveTimer s)
    (playbackCleanup s) (timeouts s) (frames s) (nextId s) v (load s)
    (imports s) (alerts s) (savelog s) (advances s) (clock s).

Definition set_load (v : LoadState) (s : State) : State :=
  mkState (images s) (intervalMs s) (isPlaying s) (currentIndex s)
    (timeoutRef s) (rafRef s) (dragItem s) (dragOverItem s) (saveTimer s)
    (playbackCleanup s) (timeouts s) (frames s) (nextId s) (store s) v
    (imports s) (alerts s) (savelog s) (advances s) (clock s).

Definition set_imports (v : list ImportJob) (s : State) : State :=
  mkState (images s) (intervalMs s) (isPlaying s) (currentIndex s)
    (timeoutRef s) (rafRef s) (dragItem s) (dragOverItem s) (saveTimer s)
    (playbackCleanup s) (timeouts s) (frames s) (nextId s) (store s)
    (load s) v (alerts s) (savelog s) (advances s) (clock s).

Definition set_alerts (v : list nat) (s : State) : State :=
  mkState (images s) (intervalMs s) (isPlaying s) (currentIndex s)
    (timeoutRef s) (rafRef s) (dragItem s) (dragOverItem s) (saveTimer s)
    (playbackCleanup s) (timeouts s) (frames s) (nextId s) (store s)
    (load s) (imports s) v (savelog s) (advances s) (clock s).

Definition set_savelog (v : list SaveEv) (s : State) : State :=
  mkState (images s) (intervalMs s) (isPlaying s) (currentIndex s)
    (timeoutRef s) (rafRef s) (dragItem s) (dragOverItem s) (saveTimer s)
    (playbackCleanup s) (timeouts s) (frames s) (nextId s) (store s)
    (load s) (imports s) (alerts s) v (advances s) (clock s).

Definition set_advances (v : nat) (s : State) : State :=
  mkState (images s) (intervalMs s) (isPlaying s) (currentIndex s)
    (timeoutRef s) (rafRef s) (dragItem s) (dragOverItem s) (saveTimer s)
    (playbackCleanup s) (timeouts s) (frames s) (nextId s) (store s)
    (load s) (imports s) (alerts s) (savelog s) v (clock s).

Definition set_clock (v : Q) (s : State) : State :=
  mkState (images s) (intervalMs s) (isPlaying s) (currentIndex s)
    (timeoutRef s) (rafRef s) (dragItem s) (dragOverItem s) (saveTimer s)
    (playbackCleanup s) (timeouts s) (frames s) (nextId s) (store s)
    (load s) (imports s) (alerts s) (savelog s) (advances s) v.

(** *** Browser primitives *)

Definition clearTimeout (i : nat) (s : State) : State :=
  set_timeouts (filter (fun t => negb (to_id t =? i)) (timeouts s)) s.

Definition cancelAnimationFrame (i : nat) (s : State) : State :=
  set_frames (filter (fun f => negb (fr_id f =? i)) (frames s)) s.

Definition setTimeout (now : Q) (cb : TimeoutCb) (delay : Q) (s : State)
  : nat * State :=
  (nextId s,
   set_nextId (S (nextId s))
     (set_timeouts (timeouts s ++ [mkTimeout (nextId s) (now + delay) cb]) s)).

Definition requestAnimationFrame (mk : nat -> Frame) (s : State) : nat * State :=
  (nextId s,
   set_nextId (S (nextId s)) (set_frames (frames s ++ [mk (nextId s)]) s)).

(** *** [clearTimers] *)

Definition clearTimers (s : State) : State :=
  let s1 := match timeoutRef s with
            | Some i => set_timeoutRef None (clearTimeout i s)
            | None => s
            end in
  match rafRef s1 with
  | Some i => set_rafRef None (cancelAnimationFrame i s1)
  | None => s1
  end.

(** *** The effects *)

(** The debounced save effect (dependencies [images], [clampedInterval]):
    the cleanup of the previous run, then a timer of [SAVE_DEBOUNCE_MS]. *)
Definition saveEffect (now : Q) (s : State) : State :=
  let s1 := match saveTimer s with
            | Some i => clearTimeout i s
            | None => s
            end in
  let c := clampedInterval (intervalMs s1) in
  let '(i, s2) := setTimeout now (SaveCb c (images s1)) SAVE_DEBOUNCE_MS s1 in
  set_savelog (savelog s2 ++ [Req now (savePayload c (images s1))])
    (set_saveTimer (Some i) s2).

(** The playback effect (dependencies [isPlaying], [images.length],
    [clampedInterval]): the cleanup of the previous run if it returned one,
    then the guard, then one of the two advancement sources. *)
Definition playbackEffect (now : Q) (s : State) : State :=
  let s1 := if playbackCleanup s then clearTimers s else s in
  if negb (isPlaying s1) || (length (images s1) =? 0) then
    set_playbackCleanup false (clearTimers s1)
  else
    let c := clampedInterval (intervalMs s1) in
    let useRaf := leb c (Num 32) in
    let s2 :=
      if useRaf then
        let '(i, s') :=
          requestAnimationFrame
            (fun i => mkFrame i (isPlaying s1) (length (images s1)) c now) s1 in
        set_rafRef (Some i) s'
      else
        let '(i, s') :=
          setTimeout now (TickCb (length (images s1)) c) (to_delay c) s1 in
        set_timeoutRef (Some i) s' in
    set_playbackCleanup true s2.

(** A render followed by the effects whose dependencies changed since the
    state [old].  [imagesChanged] tells whether [setImages] installed a new
    array: every updater of the component builds a fresh one.  The two
    cleanups act on disjoint timers, so running each next to its effect
    gives the state React reaches by running the cleanups first. *)
Definition commit (now : Q) (old : State) (imagesChanged : bool) (s : State)
  : State :=
  let cChanged :=
    negb (same_value (clampedInterval (intervalMs old))
                     (clampedInterval (intervalMs s))) in
  let s1 := if imagesChanged || cChanged then saveEffect now s else s in
  if negb (Bool.eqb (isPlaying old) (isPlaying s1))
     || negb (length (images old) =? length (images s1))
     || cChanged
  then playbackEffect now s1 else s1.

(** The component right after mounting at time [t0], over a store holding
    [stored]: initial state, then the first run of every effect (the load
    effect only starts the load). *)
Definition mount (t0 : Q) (stored : option SessionData) : State :=
  playbackEffect t0
    (saveEffect t0
       (mkState [] (Num 100) false 0 None None None None None false
                [] [] 0 stored (LoadPending stored) [] [] [] 0 t0)).

(** *** Handlers *)

Definition handleStart (now : Q) (s : State) : State :=
  if length (images s) =? 0 then s
  else commit now s false (set_isPlaying true s).

(** [handleStop]: [setIsPlaying(false); clearTimers()].  The timers are
    cancelled by the handler itself, before the render. *)
Definition handleStop (now : Q) (s : State) : State :=
  commit now s false (set_isPlaying false (clearTimers s)).

(** *** Events *)

Inductive event : Type :=
| LoadGot
    (** [loadSession()] resolves, with what the store held at the mount *)
| LoadFailed
    (** [loadSession()] rejects *)
| LoadDerived (objectUrl : nat -> SessionImage -> option string)
    (** the object-URL derivations of the fetched session settle *)
| FilesPicked (files : list File)
    (** [handleFiles(files)] is called *)
| ImportSettled (k : nat)
    (** the reads of the [k]-th call in flight settle *)
| Remove (rid : string)
| Start
| Stop
| SpaceKey
    (** the space key, outside a text-entry control *)
| IntervalChange (value : number)
| DragStart (index : nat)
| DragEnter (index : nat)
| DragEnd
| TimeoutFired (i : nat)
    (** the browser runs the callback of timeout [i]; when it is the save
        timer, the promise of [saveSession] resolves *)
| FrameFired (i : nat)
    (** the browser runs the callback of frame request [i] *)
| SaveFailed (i : nat)
    (** the browser runs the callback of the save timeout [i], and the
        promise of [saveSession] is rejected *).

Definition remove_nth {A : Type} (k : nat) (l : list A) : list A :=
  firstn k l ++ skipn (S k) l.

(** The reaction to an event at time [now]; [None] when the event cannot
    happen in this state (no such timer, timer not due, no such promise),
    or when the render that follows throws (an [undefined] entry). *)
Definition handle (now : Q) (e : event) (s : State) : option State :=
  match e with
  | LoadGot =>
      match load s with
      | LoadPending (Some session) => Some (set_load (LoadFetched session) s)
      | LoadPending None => Some (set_load LoadSettled s)
      | _ => None
      end
  | LoadFailed =>
      match load s with
      | LoadPending _ => Some (set_load LoadSettled s)
      | _ => None
      end
  | LoadDerived objectUrl =>
      match load s with
      | LoadFetched session =>
          match restoreImages objectUrl session with
          | Some restored =>
              Some (commit now s true
                      (set_load LoadSettled
                         (set_intervalMs (restoreInterval session)
                            (set_images restored s))))
          | None => Some (set_load LoadSettled s)
          end
      | _ => None
      end
  | FilesPicked files =>
      Some (set_imports
              (imports s ++ [mkImportJob (selectFiles (length (images s)) files)
                                         (length files)]) s)
  | ImportSettled k =>
      match nth_error (imports s) k with
      | Some job =>
          let s1 := set_imports (remove_nth k (imports s)) s in
          match handleFiles_outcome (job_selected job) (job_attempted job) with
          | Some o =>
              let s2 := match io_alert o with
                        | Some n => set_alerts (alerts s1 ++ [n]) s1
                        | None => s1
                        end in
              Some (commit now s true
                      (set_currentIndex
                         (if 0 <=? currentIndex s2 then currentIndex s2 else 0)
                         (set_images (appendImages (images s2) (io_next o)) s2)))
          | None => Some s1
          end
      | None => None
      end
  | Remove rid =>
      let '(next, idx) := handleRemove rid (images s) (currentIndex s) in
      Some (commit now s true (set_currentIndex idx (set_images next s)))
  | Start => Some (handleStart now s)
  | Stop => Some (handleStop now s)
  | SpaceKey =>
      if length (images s) =? 0 then Some s
      else if isPlaying s then Some (handleStop now s)
      else Some (handleStart now s)
  | IntervalChange value =>
      Some (commit now s false (set_intervalMs (handleIntervalChange value) s))
  | DragStart index =>
      if index <? length (images s) then Some (set_dragItem (Some index) s)
      else None
  | DragEnter index =>
      if index <? length (images s) then Some (set_dragOverItem (Some index) s)
      else None
  | DragEnd =>
      let d := onDragEnd (mkDragState (dragItem s) (dragOverItem s)
                            (map Some (images s)) (currentIndex s)) in
      let changed := match dragItem s, dragOverItem s with
                     | Some i, Some j => negb (i =? j)
                     | _, _ => false
                     end in
      match defined_all (d_images d) with
      | Some imgs =>
          Some (commit now s changed
                  (set_currentIndex (d_currentIndex d)
                     (set_images imgs
                        (set_dragOverItem (d_dragOverItem d)
                           (set_dragItem (d_dragItem d) s)))))
      | None => None
      end
  | TimeoutFired i =>
      (* a timeout runs no earlier than it is due *)
      match find (fun t => to_id t =? i) (timeouts s) with
      | Some t =>
          if Qle_bool (to_due t) now then
            let s1 := clearTimeout i s in
            match to_cb t with
            | SaveCb c imgs =>
                let p := savePayload c imgs in
                Some (set_store (Some p) (set_savelog (savelog s1 ++ [Wr now p]) s1))
            | TickCb len c =>
                let s2 := set_advances (S (advances s1))
                            (set_currentIndex ((currentIndex s1 + 1) mod len) s1) in
                let '(j, s3) := setTimeout now (TickCb len c) (to_delay c) s2 in
                Some (commit now s false (set_timeoutRef (Some j) s3))
            end
          else None
      | None => None
      end
  | FrameFired i =>
      (* [step(now)]; the frame's timestamp is the time of the callback *)
      match find (fun f => fr_id f =? i) (frames s) with
      | Some f =>
          let s1 := cancelAnimationFrame i s in
          if negb (fr_isPlaying f) then Some s1
          else
            let due := geb (fsub now (fr_start f)) (fr_clamped f) in
            let s2 := if due
                      then set_advances (S (advances s1))
                             (set_currentIndex
                                ((currentIndex s1 + 1) mod fr_len f) s1)
                      else s1 in
            let start' := if due then now else fr_start f in
            let '(j, s3) :=
              requestAnimationFrame
                (fun j => mkFrame j (fr_isPlaying f) (fr_len f) (fr_clamped f) start')
                s2 in
            Some (commit now s false (set_rafRef (Some j) s3))
      | None => None
      end
  | SaveFailed i =>
      (* the save timer runs as in [TimeoutFired]; [saveSession] rejects,
         [catch] logs the error, and nothing is stored *)
      match find (fun t => to_id t =? i) (timeouts s) with
      | Some t =>
          if Qle_bool (to_due t) now then
            let s1 := clearTimeout i s in
            match to_cb t with
            | SaveCb c imgs =>
                Some (set_savelog (savelog s1 ++ [Rej now (savePayload c imgs)]) s1)
            | TickCb _ _ => None
            end
          else None
      | None => None
      end
  end.

(** One step: time does not go backwards. *)
Definition step (now : Q) (e : event) (s : State) : option State :=
  if Qle_bool (clock s) now then
    match handle now e s with
    | Some s' => Some (set_clock now s')
    | None => None
    end
  else None.

(** An execution: events with their times, from the oldest. *)
Fixpoint run (tr : list (Q * event)) (s : State) : option State :=
  match tr with
  | [] => Some s
  | (t, e) :: tr' =>
      match step t e s with
      | Some s' => run tr' s'
      | None => None
      end
  end.

(** The states the component can be in: those an execution reaches from a
    mount, whatever the store held. *)
Definition reachable (t0 : Q) (s : State) : Prop :=
  exists stored tr, run tr (mount t0 stored) = Some s.

(* ================================================================== *)
(** ** Observations and invariants of the machine *)
(* ================================================================== *)

Definition is_tick (t : Timeout) : bool :=
  match to_cb t with TickCb _ _ => true | SaveCb _ _ => false end.

Definition is_save (t : Timeout) : bool :=
  match to_cb t with SaveCb _ _ => true | TickCb _ _ => false end.

(** An advancement source is armed: a [tick] timeout or a frame request. *)
Definition playback_pending (s : State) : Prop :=
  (exists t, In t (timeouts s) /\ is_tick t = true) \/ frames s <> [].

(** A save timer is armed. *)
Definition save_pending (s : State) : Prop :=
  exists t, In t (timeouts s) /\ is_save t = true.

Definition ev_time (e : SaveEv) : Q :=
  match e with Req t _ | Wr t _ | Rej t _ => t end.

(** A call of [saveSession], resolved or rejected. *)
Definition is_write (e : SaveEv) : bool :=
  match e with Wr _ _ | Rej _ _ => true | Req _ _ => false end.

(** The writes of a history, oldest first. *)
Definition writes_of (l : list SaveEv) : list SaveEv := filter is_write l.

(** How an entry of the persistence history relates to the entry before
    it: a write follows, with no entry in between, the request whose
    snapshot it writes, at least [SAVE_DEBOUNCE_MS] later; a request is not
    older than the entry before it. *)
Definition link (prev : option SaveEv) (e : SaveEv) : Prop :=
  match e with
  | Wr t p | Rej t p =>
      match prev with
      | Some (Req t' p') => p' = p /\ (t' + SAVE_DEBOUNCE_MS <= t)%Q
      | _ => False
      end
  | Req t _ =>
      match prev with
      | Some e' => (ev_time e' <= t)%Q
      | None => True
      end
  end.

Fixpoint log_wf (prev : option SaveEv) (l : list SaveEv) : Prop :=
  match l with
  | [] => True
  | e :: r => link prev e /\ log_wf (Some e) r
  end.

(** The last entry of a history that continues after [prev]. *)
Fixpoint last_ev (prev : option SaveEv) (l : list SaveEv) : option SaveEv :=
  match l with
  | [] => prev
  | e :: r => last_ev (Some e) r
  end.

(** A burst: every request of [seg] arrives less than [SAVE_DEBOUNCE_MS]
    after the request before it, [t] being the time of the request that
    opens the burst. *)
Fixpoint burst (t : Q) (seg : list SaveEv) : Prop :=
  match seg with
  | [] => True
  | Req t' _ :: r => (t' - t < SAVE_DEBOUNCE_MS)%Q /\ burst t' r
  | Wr _ _ :: r | Rej _ _ :: r => burst t r
  end.

(** The last request of a burst opened by the request [(t, p)]. *)
Fixpoint last_req (t : Q) (p : SessionData) (seg : list SaveEv) : Q * SessionData :=
  match seg with
  | [] => (t, p)
  | Req t' p' :: r => last_req t' p' r
  | Wr _ _ :: r | Rej _ _ :: r => last_req t p r
  end.

(** Timers, frames and refs are consistent: identifiers are fresh and not
    repeated, every armed callback is the one its ref (or the save
    effect's [timer]) designates, a playback ref designates an armed
    callback, and the save effect's [timer] designates no [tick]. *)
Record Structural (s : State) : Prop := mkStructural {
  st_timeout_ids : forall t, In t (timeouts s) -> to_id t < nextId s;
  st_frame_ids : forall f, In f (frames s) -> fr_id f < nextId s;
  st_timeout_nodup : NoDup (map to_id (timeouts s));
  st_frame_nodup : NoDup (map fr_id (frames s));
  st_ticks_ref : forall t, In t (timeouts s) -> is_tick t = true ->
                           timeoutRef s = Some (to_id t);
  st_frames_ref : forall f, In f (frames s) -> rafRef s = Some (fr_id f);
  st_saves_ref : forall t, In t (timeouts s) -> is_save t = true ->
                           saveTimer s = Some (to_id t);
  st_timeoutRef : forall i, timeoutRef s = Some i ->
                    exists t, In t (timeouts s) /\ to_id t = i /\ is_tick t = true;
  st_rafRef : forall j, rafRef s = Some j ->
                    exists f, In f (frames s) /\ fr_id f = j;
  st_saveTimer : forall i, saveTimer s = Some i ->
                    i < nextId s
                    /\ forall t, In t (timeouts s) -> to_id t = i -> is_save t = true
}.

(** The armed advancement sources were set up for the dependency values
    [playing], [len], [interval]: their closures hold these values, they
    exist only while playing over a non-empty collection, the kind of
    source is the one the interval selects, and the effect that armed them
    returned a cleanup. *)
Record Current (playing : bool) (len : nat) (interval : number) (s : State)
  : Prop := mkCurrent {
  cur_tick : forall t n c, In t (timeouts s) -> to_cb t = TickCb n c ->
               playing = true /\ n = len /\ 0 < len
               /\ leb (clampedInterval interval) (Num 32) = false;
  cur_frame : forall f, In f (frames s) ->
               fr_isPlaying f = true /\ playing = true /\ fr_len f = len
               /\ 0 < len
               /\ same_value (fr_clamped f) (clampedInterval interval) = true
               /\ leb (clampedInterval interval) (Num 32) = true;
  cur_cleanup : playback_pending s -> playbackCleanup s = true
}.

(** While playing over a non-empty collection, the source the interval
    selects is armed. *)
Definition Live (s : State) : Prop :=
  isPlaying s = true -> 0 < length (images s) ->
  if leb (clampedInterval (intervalMs s)) (Num 32)
  then frames s <> []
  else exists t, In t (timeouts s) /\ is_tick t = true.

(** The persistence history is well formed, lies between the mount and
    [bound], and its last entry tells whether a save timer is armed: after
    a request, the timer of that request, due [SAVE_DEBOUNCE_MS] later;
    after a write, none. *)
Record Logged (t0 bound : Q) (s : State) : Prop := mkLogged {
  lg_wf : log_wf None (savelog s);
  lg_after_mount : forall e, In e (savelog s) -> (t0 <= ev_time e)%Q;
  lg_bound : forall e, In e (savelog s) -> (ev_time e <= bound)%Q;
  lg_pending :
    match last_ev None (savelog s) with
    | Some (Req t p) =>
        exists i c imgs,
          In (mkTimeout i (t + SAVE_DEBOUNCE_MS) (SaveCb c imgs)) (timeouts s)
          /\ p = savePayload c imgs
    | _ => forall t, In t (timeouts s) -> is_save t = false
    end
}.

(** Two states agree on everything but timers, frames, refs to them and
    the persistence history. *)
Record same_ui (s s' : State) : Prop := mkSameUi {
  su_images : images s' = images s;
  su_intervalMs : intervalMs s' = intervalMs s;
  su_isPlaying : isPlaying s' = isPlaying s;
  su_currentIndex : currentIndex s' = currentIndex s;
  su_dragItem : dragItem s' = dragItem s;
  su_dragOverItem : dragOverItem s' = dragOverItem s;
  su_store : store s' = store s;
  su_load : load s' = load s;
  su_imports : imports s' = imports s;
  su_alerts : alerts s' = alerts s;
  su_advances : advances s' = advances s;
  su_clock : clock s' = clock s
}.

(** Two states agree on timers, frames, refs to them and the persistence
    history. *)
Record same_timers (s s' : State) : Prop := mkSameTimers {
  sm_timeouts : timeouts s' = timeouts s;
  sm_frames : frames s' = frames s;
  sm_nextId : nextId s' = nextId s;
  sm_timeoutRef : timeoutRef s' = timeoutRef s;
  sm_rafRef : rafRef s' = rafRef s;
  sm_saveTimer : saveTimer s' = saveTimer s;
  sm_playbackCleanup : playbackCleanup s' = playbackCleanup s;
  sm_savelog : savelog s' = savelog s
}.

(** The dependencies of the playback effect did not change. *)
Definition same_deps (old s : State) : Prop :=
  isPlaying s = isPlaying old
  /\ length (images s) = length (images old)
  /\ same_value (clampedInterval (intervalMs old))
                (clampedInterval (intervalMs s)) = true.

(** What holds of the state a handler leaves at time [now], before the
    clock is set. *)
Definition Settled (t0 now : Q) (s : State) : Prop :=
  Structural s
  /\ Current (isPlaying s) (length (images s)) (intervalMs s) s
  /\ Live s
  /\ Logged t0 now s.

(** The invariant of the reachable states. *)
Record Inv (t0 : Q) (s : State) : Prop := mkInv {
  inv_structural : Structural s;
  inv_current : Current (isPlaying s) (length (images s)) (intervalMs s) s;
  inv_live : Live s;
  inv_logged : Logged t0 (clock s) s;
  inv_clock : (t0 <= clock s)%Q
}.

(** Every event but those by which the user starts playback or sets the
    index: the passing of time (timers and frames firing), promises
    settling, and the other inputs. *)
Definition passive (e : event) : bool :=
  match e with
  | Start | SpaceKey | Remove _ | DragEnd => false
  | _ => true
  end.

(** The scheduler's callbacks. *)
Definition scheduler_callback (e : event) : bool :=
  match e with
  | TimeoutFired _ | FrameFired _ | SaveFailed _ => true
  | _ => false
  end.

Definition ev_payload (e : SaveEv) : SessionData :=
  match e with Req _ p | Wr _ p | Rej _ p => p end.



(** The interval presets offered as buttons. *)
Definition PRESETS : list number := [Num 50; Num 100; Num 250; Num 500].






(* ================================================================== *)
(** ** Tactics *)
(* ================================================================== *)

(** Projections of a state built by setters. *)
Ltac proj_simpl :=
  cbn [images intervalMs isPlaying currentIndex timeoutRef rafRef dragItem
       dragOverItem saveTimer playbackCleanup timeouts frames nextId store
       load imports alerts savelog advances clock
       set_images set_intervalMs set_isPlaying set_currentIndex
       set_timeoutRef set_rafRef set_dragItem set_dragOverItem set_saveTimer
       set_playbackCleanup set_timeouts set_frames set_nextId set_store
       set_load set_imports set_alerts set_savelog set_advances set_clock
       clearTimeout cancelAnimationFrame setTimeout requestAnimationFrame
       fst snd].

(** Two states built from one another by setters of other fields. *)
Ltac same_tac := constructor; proj_simpl; reflexivity.

(* ================================================================== *)
(** ** Further observations of the machine *)
(* ================================================================== *)

(** The index designates an entry, or is 0 (over an empty collection
    nothing is displayed). *)
Definition valid_index (s : State) : Prop :=
  currentIndex s = 0 \/ currentIndex s < length (images s).

(** A snapshot is the one the save timer would build from the state. *)
Definition snapshot_of (p : SessionData) (s : State) : Prop :=
  sd_images p = map toSessionImage (images s)
  /\ exists c, sd_intervalMs p = Some c
               /\ same_value c (clampedInterval (intervalMs s)) = true.

(** The most recent entry of the persistence history carries the snapshot
    of the state, and when that entry is a write that resolved the store
    holds it. *)
Definition Saved (s : State) : Prop :=
  match last_ev None (savelog s) with
  | Some (Req _ p) => snapshot_of p s
  | Some (Wr _ p) => snapshot_of p s /\ store s = Some p
  | Some (Rej _ p) => snapshot_of p s
  | None => False
  end.


(** The shortest time between two advances under the clamped interval
    [c].  Where frames are requested, the elapsed time is a difference of
    doubles, rounded, and compared with the interval: it passes the test
    from the interval less one part in [2^53] on.  Elsewhere the gap is
    the delay of the timeout, in whole milliseconds. *)
Definition min_gap (c : number) : Q :=
  if leb c (Num 32)
  then match c with Num q => (q * (1 - 2 ^ (-53)))%Q | _ => 0%Q end
  else to_delay c.

(** No armed source advances before [due]: a [tick] timeout is not due
    before, and a frame callback arriving before finds the interval not
    yet elapsed. *)
Definition Quiet (due : Q) (s : State) : Prop :=
  (forall t, In t (timeouts s) -> is_tick t = true -> (due <= to_due t)%Q)
  /\ (forall f later, In f (frames s) -> (later < due)%Q ->
        geb (fsub later (fr_start f)) (fr_clamped f) = false).

(* ================================================================== *)
(** ** Object URLs: the two revoking effects of the component *)
(* ================================================================== *)

(** The [prevUrls] ref and the calls of [URL.revokeObjectURL] made so far,
    oldest first. *)
Record UrlState : Type := mkUrlState {
  prevUrls : list string;
  revoked : list string
}.

(** [currentUrls.includes(url)]. *)
Definition includes (x : string) (l : list string) : bool :=
  existsb (String.eqb x) l.

(** The effect on [images]: every URL of the previous render that the
    collection no longer holds is revoked, then the ref takes the URLs of
    this render. *)
Definition revokeStale (images : list ImageItem) (u : UrlState) : UrlState :=
  let currentUrls := map url images in
  mkUrlState currentUrls
    (revoked u
     ++ filter (fun x => negb (includes x currentUrls)) (prevUrls u)).

(** The cleanup of the effect without dependencies, run at unmount. *)
Definition revokeAll (u : UrlState) : UrlState :=
  mkUrlState (prevUrls u) (revoked u ++ prevUrls u).

(** The effect over the successive collections the component renders,
    from the first. *)
Definition renders (colls : list (list ImageItem)) (u : UrlState) : UrlState :=
  fold_left (fun u images => revokeStale images u) colls u.

(** A mounted component's life: the ref starts empty, the effect runs for
    every collection rendered, and the cleanup runs at unmount. *)
Definition lifetime (colls : list (list ImageItem)) : UrlState :=
  revokeAll (renders colls (mkUrlState [] [])).

(** The object URLs a call of [handleFiles] creates:
    [URL.createObjectURL(file)] runs for every selected file whose read
    succeeds, whether or not another read of the batch fails. *)
Definition createdByImport (selected : list File) : list string :=
  map file_objectUrl
    (filter (fun f => match file_read f with Some _ => true | None => false end)
       selected).

(** The object URLs the restore creates: [dataUrlToObjectUrl] makes one
    for every entry whose derivation succeeds, whether or not another
    fails. *)
Definition createdByRestore (objectUrl : nat -> SessionImage -> option string)
    (session : SessionData) : list string :=
  let sliced := firstn MAX_IMAGES (sd_images session) in
  flat_map (fun '(k, img) => match objectUrl k img with
                             | Some u => [u]
                             | None => []
                             end)
    (combine (seq 0 (length sliced)) sliced).

(** The object URLs created by the asynchronous work that the event
    settles. *)
Definition created (e : event) (s : State) : list string :=
  match e with
  | ImportSettled k =>
      match nth_error (imports s) k with
      | Some job => createdByImport (job_selected job)
      | None => []
      end
  | LoadDerived objectUrl =>
      match load s with
      | LoadFetched session => createdByRestore objectUrl session
      | _ => []
      end
  | _ => []
  end.

(** The object URLs created along an execution. *)
Fixpoint createdUrls (tr : list (Q * event)) (s : State) : list string :=
  match tr with
  | [] => []
  | (t, e) :: tr' =>
      match step t e s with
      | Some s' => created e s ++ createdUrls tr' s'
      | None => []
      end
  end.

(** The collections rendered along an execution: the one of the state it
    starts from, then the one after each event. *)
Fixpoint collections (tr : list (Q * event)) (s : State)
  : list (list ImageItem) :=
  images s ::
  match tr with
  | [] => []
  | (t, e) :: tr' =>
      match step t e s with
      | Some s' => collections tr' s'
      | None => []
      end
  end.

(* ================================================================== *)
(** ** Keyed records *)
(* ================================================================== *)

(** Records by string key, at most one by key, in insertion order: object
    stores, databases by name, caches by name, cached responses by URL. *)
Fixpoint assoc_get {V : Type} (k : string) (l : list (string * V)) : option V :=
  match l with
  | [] => None
  | (k', v) :: r => if String.eqb k' k then Some v else assoc_get k r
  end.

(** Replace the record under the key, or add it at the end. *)
Fixpoint assoc_put {V : Type} (k : string) (v : V) (l : list (string * V))
  : list (string * V) :=
  match l with
  | [] => [(k, v)]
  | (k', v') :: r =>
      if String.eqb k' k then (k, v) :: r else (k', v') :: assoc_put k v r
  end.

(* ================================================================== *)
(** ** storage.ts over IndexedDB *)
(* ================================================================== *)

Definition DB_NAME : string := "image-loop-player".
Definition DB_VERSION : nat := 1.
Definition STORE_NAME : string := "kv".
Definition SESSION_KEY : string := "session".

(** An object store with out-of-line keys. *)
Definition ObjectStore : Type := list (string * SessionData).

Record Database : Type := mkDatabase {
  db_version : nat;
  db_stores : list (string * ObjectStore)
}.

(** [window.indexedDB]: the databases of the origin by name; [None] when
    the window has no [indexedDB]. *)
Definition Window : Type := option (list (string * Database)).

(** What a promise is rejected with: an [Error] the code builds, or the
    [DOMException] of a request or transaction, by name. *)
Inductive Failure : Type :=
| JsError (message : string)
| DomException (name : string).

Inductive Outcome (A : Type) : Type :=
| Resolved (a : A)
| Rejected (e : Failure).
Arguments Resolved {A} a.
Arguments Rejected {A} e.

(** What goes wrong in the browser during a call: for the open request,
    the transaction and the get request, [None] when it succeeds, and when
    it fails its [error] property, which may be [null]. *)
Record Faults : Type := mkFaults {
  open_fails : option (option string);
  tx_fails : option (option string);
  get_fails : option (option string)
}.

Definition no_faults : Faults := mkFaults None None None.

(** [error ?? new Error(fallback)]. *)
Definition error_or (error : option string) (fallback : string) : Failure :=
  match error with
  | Some name => DomException name
  | None => JsError fallback
  end.

(** [openDB]: the promise's outcome and the databases afterwards.  A
    database that does not exist is created at version [DB_VERSION], and
    one of an older version upgraded: [onupgradeneeded] creates the object
    store unless it is there; a newer version makes the request fail with
    a [VersionError]. *)
Definition openDB (faults : Faults) (w : Window) : Outcome Database * Window :=
  match w with
  | None => (Rejected (JsError "IndexedDB is not supported in this browser."), w)
  | Some dbs =>
      match open_fails faults with
      | Some error => (Rejected (error_or error "Failed to open IndexedDB"), w)
      | None =>
          let old := match assoc_get DB_NAME dbs with
                     | Some db => db
                     | None => mkDatabase 0 []
                     end in
          if DB_VERSION <? db_version old then
            (Rejected (error_or (Some "VersionError"%string)
                                "Failed to open IndexedDB"), w)
          else if db_version old <? DB_VERSION then
            let stores :=
              match assoc_get STORE_NAME (db_stores old) with
              | Some _ => db_stores old
              | None => assoc_put STORE_NAME [] (db_stores old)
              end in
            let db := mkDatabase DB_VERSION stores in
            (Resolved db, Some (assoc_put DB_NAME db dbs))
          else (Resolved old, w)
      end
  end.

(** [saveSession]: [put(session, SESSION_KEY)] in a read-write
    transaction on the store.  [db.transaction] throws a [NotFoundError]
    when the database has no such store; a transaction that fails is
    aborted and writes nothing. *)
Definition saveSession (faults : Faults) (session : SessionData) (w : Window)
  : Outcome unit * Window :=
  match openDB faults w with
  | (Rejected e, w1) => (Rejected e, w1)
  | (Resolved db, w1) =>
      match assoc_get STORE_NAME (db_stores db) with
      | None => (Rejected (DomException "NotFoundError"), w1)
      | Some records =>
          match tx_fails faults with
          | Some error => (Rejected (error_or error "Failed to save session"), w1)
          | None =>
              let db' :=
                mkDatabase (db_version db)
                  (assoc_put STORE_NAME (assoc_put SESSION_KEY session records)
                     (db_stores db)) in
              (Resolved tt,
               match w1 with
               | Some dbs => Some (assoc_put DB_NAME db' dbs)
               | None => w1
               end)
          end
      end
  end.

(** [loadSession]: [get(SESSION_KEY)] in a read-only transaction;
    [request.result ?? null]. *)
Definition loadSession (faults : Faults) (w : Window)
  : Outcome (option SessionData) * Window :=
  match openDB faults w with
  | (Rejected e, w1) => (Rejected e, w1)
  | (Resolved db, w1) =>
      match assoc_get STORE_NAME (db_stores db) with
      | None => (Rejected (DomException "NotFoundError"), w1)
      | Some records =>
          match get_fails faults with
          | Some error => (Rejected (error_or error "Failed to load session"), w1)
          | None => (Resolved (assoc_get SESSION_KEY records), w1)
          end
      end
  end.

(** A call of the module. *)
Inductive StorageCall : Type :=
| CallSave (faults : Faults) (session : SessionData)
| CallLoad (faults : Faults).

(** The calls one after the other: the databases afterwards, and the
    session of the last [saveSession] that resolved, [last] if none did. *)
Fixpoint calls (l : list StorageCall) (w : Window) (last : option SessionData)
  : Window * option SessionData :=
  match l with
  | [] => (w, last)
  | CallSave faults session :: r =>
      match saveSession faults session w with
      | (Resolved _, w') => calls r w' (Some session)
      | (Rejected _, w') => calls r w' last
      end
  | CallLoad faults :: r => calls r (snd (loadSession faults w)) last
  end.

(** The database of the module is as the module leaves it: absent, or at
    version [DB_VERSION] with the object store, the store holding
    [stored] under the session key. *)
Definition module_db (w : Window) (stored : option SessionData) : Prop :=
  match w with
  | None => False
  | Some dbs =>
      match assoc_get DB_NAME dbs with
      | None => stored = None
      | Some db =>
          db_version db = DB_VERSION
          /\ exists records, assoc_get STORE_NAME (db_stores db) = Some records
                             /\ assoc_get SESSION_KEY records = stored
      end
  end.

(* ================================================================== *)
(** ** The service worker (public/sw.js) *)
(* ================================================================== *)

Definition CACHE_NAME : string := "image-loop-player-v4".
Definition ASSETS : list string := ["/"; "/index.html"; "/manifest.webmanifest"]%string.

(** Requests and responses, as far as the worker looks at them.  URLs are
    those of the worker's origin, by path. *)
Record Request : Type := mkRequest {
  rq_method : string;
  rq_mode : string;
  rq_url : string
}.

Record Response : Type := mkResponse {
  rs_status : nat;
  rs_body : string
}.

(** A cache: responses by URL.  The cache storage: caches by name, in
    the order of their creation. *)
Definition Cache : Type := list (string * Response).
Definition CacheStorage : Type := list (string * Cache).

(** The network: what [fetch] resolves with for a URL, [None] when it
    rejects (offline, unreachable). *)
Definition Network : Type := string -> option Response.

Definition offline : Network := fun _ => None.

(** [caches.open(name)]: the cache, created empty if there is none. *)
Definition caches_open (name : string) (cs : CacheStorage) : Cache * CacheStorage :=
  match assoc_get name cs with
  | Some c => (c, cs)
  | None => ([], assoc_put name [] cs)
  end.

(** [caches.match(url)]: the first match over the caches, in the order of
    their creation. *)
Fixpoint caches_match (u : string) (cs : CacheStorage) : option Response :=
  match cs with
  | [] => None
  | (_, c) :: r =>
      match assoc_get u c with
      | Some resp => Some resp
      | None => caches_match u r
      end
  end.

(** [response.ok]. *)
Definition rs_ok (r : Response) : bool :=
  (200 <=? rs_status r) && (rs_status r <=? 299).

(** [cache.put(url, response)]: rejected for a partial response (206), and
    whenever the browser cannot store the response ([putOk] false: quota,
    a [Vary: *] header, a body already read, ...). *)
Definition cache_put (putOk : bool) (u : string) (resp : Response) (c : Cache)
  : option Cache :=
  if negb putOk || (rs_status resp =? 206) then None
  else Some (assoc_put u resp c).

(** [caches.open(CACHE_NAME).then(cache => cache.put(url, clone).catch(() => {}))]:
    the cache is opened, hence created, whether or not the put succeeds;
    the put runs beside the response, and its failure is swallowed. *)
Definition put_current (putOk : bool) (u : string) (resp : Response)
    (cs : CacheStorage) : CacheStorage :=
  let '(c, cs1) := caches_open CACHE_NAME cs in
  match cache_put putOk u resp c with
  | Some c' => assoc_put CACHE_NAME c' cs1
  | None => cs1
  end.

(** The [install] handler: [cache.addAll(ASSETS)] fetches every asset and
    stores the responses if all of them arrived and are ok and the
    browser can store them ([putOk]), none of them otherwise.  The boolean
    of the result tells whether the promise given to [waitUntil]
    resolved. *)
Definition onInstall (net : Network) (putOk : bool) (cs : CacheStorage)
  : bool * CacheStorage :=
  let '(c, cs1) := caches_open CACHE_NAME cs in
  match promise_all
          (map (fun u => match net u with
                         | Some resp =>
                             if rs_ok resp && negb (rs_status resp =? 206)
                             then Some (u, resp) else None
                         | None => None
                         end) ASSETS) with
  | Some entries =>
      if putOk then
        (true,
         assoc_put CACHE_NAME
           (fold_left (fun c e => assoc_put (fst e) (snd e) c) entries c) cs1)
      else (false, cs1)
  | None => (false, cs1)
  end.

(** The [activate] handler: every cache but [CACHE_NAME] is deleted. *)
Definition onActivate (cs : CacheStorage) : CacheStorage :=
  filter (fun e => String.eqb (fst e) CACHE_NAME) cs.

(** What the page gets for a request: the browser's own handling when the
    worker does not call [respondWith]; a response; [Response.error()];
    or the failure of a [respondWith] promise resolved with
    [undefined]. *)
Inductive Answer : Type :=
| NotIntercepted
| Responds (resp : Response)
| ErrorResponse
| NoResponse.

(** The [fetch] handler: network first for navigations, the response
    stored under ["/"]; cache first for everything else.  [putOk] tells
    whether the browser can store the response it is given. *)
Definition onFetch (net : Network) (putOk : bool) (req : Request)
    (cs : CacheStorage) : Answer * CacheStorage :=
  if negb (String.eqb (rq_method req) "GET") then (NotIntercepted, cs)
  else if String.eqb (rq_mode req) "navigate" then
    match net (rq_url req) with
    | Some resp => (Responds resp, put_current putOk "/" resp cs)
    | None =>
        match caches_match "/" cs with
        | Some cached => (Responds cached, cs)
        | None => (ErrorResponse, cs)
        end
    end
  else
    match caches_match (rq_url req) cs with
    | Some cached => (Responds cached, cs)
    | None =>
        match net (rq_url req) with
        | Some resp => (Responds resp, put_current putOk (rq_url req) resp cs)
        | None => (NoResponse, cs)
        end
    end.

(** A fetch event with its circumstances: the network at that moment, and
    whether the browser can store the response. *)
Record FetchEvent : Type := mkFetchEvent {
  fe_net : Network;
  fe_putOk : bool;
  fe_req : Request
}.

(** The caches after a sequence of fetch events. *)
Definition fetches (l : list FetchEvent) (cs : CacheStorage) : CacheStorage :=
  fold_left (fun cs e => snd (onFetch (fe_net e) (fe_putOk e) (fe_req e) cs)) l cs.

(* ================================================================== *)
(** ** The keyboard *)
(* ================================================================== *)

(** The target of a key event, as far as [handleKey] looks at it. *)
Record KeyTarget : Type := mkKeyTarget {
  isContentEditable : bool;
  tagName : string
}.

(** [toLowerCase] on the letters of tag names. *)
Definition lower_ascii (c : Ascii.ascii) : Ascii.ascii :=
  let n := Ascii.nat_of_ascii c in
  if (65 <=? n) && (n <=? 90) then Ascii.ascii_of_nat (n + 32) else c.

Fixpoint toLowerCase (s : string) : string :=
  match s with
  | EmptyString => EmptyString
  | String c r => String (lower_ascii c) (toLowerCase r)
  end.

(** The key event is for a control of its own: an editable element, or a
    form control. *)
Definition own_control (target : option KeyTarget) : bool :=
  match target with
  | Some t =>
      let tag := toLowerCase (tagName t) in
      isContentEditable t
      || String.eqb tag "input" || String.eqb tag "textarea"
      || String.eqb tag "select" || String.eqb tag "option"
      || String.eqb tag "button"
  | None => false
  end.

(** [handleKey]: whether [preventDefault] is called, and the state after
    the key ([None] as for [step]). *)
Definition handleKey (code : string) (target : option KeyTarget) (now : Q)
    (s : State) : bool * option State :=
  if negb (String.eqb code "Space") then (false, Some s)
  else if own_control target then (false, Some s)
  else (true, step now SpaceKey s).

(** The hypothesis [Hd] says that the dependencies of the playback effect
    changed, in a state built by setters that leave them alone; [refl] is
    the reflexivity of [same_value]. *)
Ltac no_change Hd refl :=
  exfalso;
  cbn [images intervalMs isPlaying set_images set_intervalMs set_isPlaying
       set_currentIndex set_timeoutRef set_rafRef set_dragItem
       set_dragOverItem set_saveTimer set_playbackCleanup set_timeouts
       set_frames set_nextId set_store set_load set_imports set_alerts
       set_savelog set_advances set_clock] in Hd;
  destruct Hd as [Hd|[Hd|Hd]]; try congruence;
  rewrite refl in Hd; discriminate.

(* ================================================================== *)
(** ** What an event may change *)
(* ================================================================== *)

(** The events that set each part of the state. *)
Definition sets_isPlaying (e : event) : bool :=
  match e with Start | Stop | SpaceKey => true | _ => false end.

Definition sets_images (e : event) : bool :=
  match e with
  | LoadDerived _ | ImportSettled _ | Remove _ | DragEnd => true
  | _ => false
  end.

Definition sets_intervalMs (e : event) : bool :=
  match e with IntervalChange _ | LoadDerived _ => true | _ => false end.

Definition sets_currentIndex (e : event) : bool :=
  match e with
  | TimeoutFired _ | FrameFired _ | Remove _ | DragEnd => true
  | _ => false
  end.

(** The fields a render leaves as the handler set them, read through the
    setters. *)
Ltac ui_fields U :=
  destruct U;
  cbn [images intervalMs isPlaying currentIndex store advances
       set_images set_intervalMs set_isPlaying set_currentIndex
       set_timeoutRef set_rafRef set_dragItem set_dragOverItem set_saveTimer
       set_playbackCleanup set_timeouts set_frames set_nextId set_store
       set_load set_imports set_alerts set_savelog set_advances set_clock] in *.

(* ================================================================== *)
(** * Properties *)
(* ================================================================== *)

(** ** Numbers and the clamp *)

Lemma clamp_in_range (v : number) : v <> NaN -> in_range (clamp v).
Proof.
  intros Hv. destruct v as [| |q|]; try congruence.
  - cbn. split; discriminate.
  - unfold clamp, MIN_INTERVAL, MAX_INTERVAL. cbn [Math_max leb].
    destruct (Qle_bool q 16) eqn:E1.
    + cbn. split; discriminate.
    + cbn [Math_min leb]. destruct (Qle_bool q 10000) eqn:E2; cbn.
      * apply Qle_bool_iff in E2. split; [|exact E2].
        destruct (Qlt_le_dec q 16) as [H|H]; [|exact H].
        apply Qlt_le_weak, Qle_bool_iff in H. congruence.
      * split; discriminate.
  - cbn. split; discriminate.
Qed.


(** ** Lists *)


Lemma promise_all_Some {A : Type} (l : list (option A)) (r : list A) :
  promise_all l = Some r -> l = map Some r.
Proof.
  revert r. induction l as [|[x|] l IH]; intros r H; cbn in H.
  - now inversion H.
  - destruct (promise_all l) as [r'|]; [|discriminate].
    inversion H; subst. cbn. now rewrite (IH r' eq_refl).
  - discriminate.
Qed.

Lemma defined_all_map_Some (l : list ImageItem) : defined_all (map Some l) = Some l.
Proof. induction l as [|x l IH]; cbn; [reflexivity|]. now rewrite IH. Qed.

Lemma splice_out_map {A B : Type} (f : A -> B) (k : nat) (l : list A) :
  splice_out k (map f l) = map f (splice_out k l).
Proof. unfold splice_out. now rewrite map_app, firstn_map, skipn_map. Qed.

Lemma splice_in_map {A B : Type} (f : A -> B) (k : nat) (x : A) (l : list A) :
  splice_in k (f x) (map f l) = map f (splice_in k x l).
Proof. unfold splice_in. now rewrite map_app, firstn_map, skipn_map. Qed.

Lemma splice_out_perm {A : Type} (k : nat) (x : A) (l : list A) :
  nth_error l k = Some x -> Permutation (x :: splice_out k l) l.
Proof.
  intros H. unfold splice_out.
  destruct (nth_error_split l k H) as (l1 & l2 & -> & <-).
  rewrite firstn_app, Nat.sub_diag, firstn_all. cbn [firstn]. rewrite app_nil_r.
  replace (skipn (S (length l1)) (l1 ++ x :: l2)) with l2.
  - apply Permutation_middle.
  - rewrite skipn_app, skipn_all2 by lia.
    replace (S (length l1) - length l1) with 1 by lia. reflexivity.
Qed.

Lemma splice_in_perm {A : Type} (k : nat) (x : A) (l : list A) :
  Permutation (splice_in k x l) (x :: l).
Proof.
  unfold splice_in. rewrite <- (firstn_skipn k l) at 3.
  symmetry. apply Permutation_middle.
Qed.

Lemma splice_out_length {A : Type} (k : nat) (l : list A) :
  k < length l -> length (splice_out k l) = length l - 1.
Proof.
  intros H. unfold splice_out.
  rewrite length_app, length_firstn, length_skipn. lia.
Qed.

Lemma splice_in_length {A : Type} (k : nat) (x : A) (l : list A) :
  length (splice_in k x l) = S (length l).
Proof.
  unfold splice_in. rewrite length_app. cbn [length].
  rewrite length_firstn, length_skipn. lia.
Qed.

Lemma splice_in_nth {A : Type} (k : nat) (x : A) (l : list A) :
  k <= length l -> nth_error (splice_in k x l) k = Some x.
Proof.
  intros H. unfold splice_in.
  rewrite nth_error_app2; rewrite length_firstn, Nat.min_l by lia; [|lia].
  now rewrite Nat.sub_diag.
Qed.

Lemma splice_in_past_end {A : Type} (k : nat) (x : A) (l : list A) :
  length l <= k -> splice_in k x l = l ++ [x].
Proof.
  intros H. unfold splice_in. now rewrite firstn_all2, skipn_all2 by lia.
Qed.

Lemma reorder_in_range (items : list ImageItem) (i j : nat) (x : ImageItem) :
  nth_error items i = Some x ->
  reorder i j (map Some items) = map Some (splice_in j x (splice_out i items)).
Proof.
  intros H. unfold reorder.
  rewrite nth_error_map, H. cbn [option_map].
  now rewrite splice_out_map, splice_in_map.
Qed.

(** ** Doubles *)

Local Open Scope Q_scope.

Lemma pow2_pos (e : Z) : 0 < 2 ^ e.
Proof. apply Qpower_0_lt. reflexivity. Qed.

Lemma pow2_succ (e : Z) : 2 ^ (e + 1) == 2 * 2 ^ e.
Proof. rewrite Qpower_plus by discriminate. change (2 ^ 1) with 2. ring. Qed.

Lemma pow2_Z (k : Z) : (0 <= k)%Z -> inject_Z (2 ^ k) == 2 ^ k.
Proof. intros H. now rewrite Zpower_Qpower. Qed.

Lemma ilog2_spec (x : Q) : 0 < x -> 2 ^ ilog2 x <= x /\ x < 2 ^ (ilog2 x + 1).
Proof.
  intros Hx. unfold ilog2.
  set (n := Qnum x). set (d := Zpos (Qden x)).
  assert (Hn : (0 < n)%Z).
  { unfold n. destruct x as [xn xd]. unfold Qlt in Hx. cbn in *. lia. }
  assert (Hd : (0 < d)%Z) by (unfold d; lia).
  destruct (Z.log2_spec n Hn) as [A1 A2]. destruct (Z.log2_spec d Hd) as [B1 B2].
  set (a := Z.log2 n) in *. set (b := Z.log2 d) in *.
  assert (Ha : (0 <= a)%Z) by apply Z.log2_nonneg.
  assert (Hb : (0 <= b)%Z) by apply Z.log2_nonneg.
  assert (Ex : x == inject_Z n / inject_Z d).
  { unfold n, d. destruct x as [xn xd]. cbn. apply Qmake_Qdiv. }
  assert (P1 : 2 ^ a <= inject_Z n).
  { rewrite <- pow2_Z by exact Ha. now rewrite <- Zle_Qle. }
  assert (P2 : inject_Z n < 2 * 2 ^ a).
  { rewrite <- pow2_succ, <- pow2_Z by lia. rewrite <- Zlt_Qlt.
    replace (a + 1)%Z with (Z.succ a) by lia. exact A2. }
  assert (D1 : 2 ^ b <= inject_Z d).
  { rewrite <- pow2_Z by exact Hb. now rewrite <- Zle_Qle. }
  assert (D2 : inject_Z d < 2 * 2 ^ b).
  { rewrite <- pow2_succ, <- pow2_Z by lia. rewrite <- Zlt_Qlt.
    replace (b + 1)%Z with (Z.succ b) by lia. exact B2. }
  pose proof (pow2_pos a) as Pa. pose proof (pow2_pos b) as Pb.
  assert (Dd : 0 < inject_Z d) by lra.
  assert (Eab : 2 ^ (a - b) == 2 ^ a / 2 ^ b).
  { apply Qpower_minus. discriminate. }
  destruct (Qle_bool (2 ^ (a - b)) x) eqn:E.
  - apply Qle_bool_iff in E. split; [exact E|].
    rewrite pow2_succ, Eab, Ex.
    apply Qlt_shift_div_r; [exact Dd|].
    setoid_replace (2 * (2 ^ a / 2 ^ b) * inject_Z d)
      with ((2 * 2 ^ a) * (inject_Z d / 2 ^ b)) by (field; lra).
    assert (K : 1 <= inject_Z d / 2 ^ b).
    { apply Qle_shift_div_l; [exact Pb|]. lra. }
    nra.
  - assert (E' : x < 2 ^ (a - b)).
    { destruct (Qlt_le_dec x (2 ^ (a - b))) as [L|L]; [exact L|].
      apply Qle_bool_iff in L. congruence. }
    split.
    + assert (Eq : 2 ^ (a - b) == 2 * 2 ^ (a - b - 1)).
      { rewrite <- pow2_succ. now replace (a - b - 1 + 1)%Z with (a - b)%Z by lia. }
      rewrite Ex. apply Qle_shift_div_l; [exact Dd|].
      assert (K : 2 ^ (a - b - 1) * (2 * 2 ^ b) == 2 ^ a).
      { setoid_replace (2 ^ (a - b - 1) * (2 * 2 ^ b))
          with ((2 * 2 ^ (a - b - 1)) * 2 ^ b) by ring.
        rewrite <- Eq, Eab. field. lra. }
      assert (Pc : 0 < 2 ^ (a - b - 1)) by apply pow2_pos.
      nra.
    + now replace (a - b - 1 + 1)%Z with (a - b)%Z by lia.
Qed.

Lemma round_even_le (y : Q) : inject_Z (round_even y) <= y + (1 # 2).
Proof.
  unfold round_even. pose proof (Qfloor_le y) as F.
  destruct (Qcompare_spec (y - inject_Z (Qfloor y)) (1 # 2)) as [E|L|G].
  - destruct (Z.even (Qfloor y)); [lra|].
    rewrite inject_Z_plus. change (inject_Z 1) with 1. lra.
  - lra.
  - rewrite inject_Z_plus. change (inject_Z 1) with 1.
    pose proof (Qlt_floor y) as U. rewrite inject_Z_plus in U.
    change (inject_Z 1) with 1 in U. lra.
Qed.

Lemma round_even_nonneg (y : Q) : 0 <= y -> 0 <= inject_Z (round_even y).
Proof.
  intros Hy. assert (F : (0 <= Qfloor y)%Z).
  { change 0%Z with (Qfloor 0). now apply Qfloor_resp_le. }
  unfold round_even.
  destruct (Qcompare (y - inject_Z (Qfloor y)) (1 # 2));
    [destruct (Z.even (Qfloor y))| |];
    change 0 with (inject_Z 0); rewrite <- Zle_Qle; lia.
Qed.

(** What the rounding can add: a value that is below [q] by more than one
    part in [2^53] does not round up to [q]. *)
Lemma binary64_below (x q : Q) :
  2 <= q -> q <= 10000 -> x < q * (1 - 2 ^ (-53)) ->
  geb (binary64 x) (Num q) = false.
Proof.
  intros Hq Hq' Hx. unfold geb, binary64.
  change (2 ^ (-53)) with (1 # 9007199254740992) in Hx.
  destruct (Qeq_bool x 0) eqn:E0.
  { cbn. apply not_true_is_false. intros K. apply Qle_bool_iff in K. lra. }
  assert (Hbig : 10000 <= 2 ^ 1024).
  { apply (Qle_trans _ (2 ^ 14)); [discriminate|].
    apply Qpower_le_compat_l; [lia|discriminate]. }
  set (a := Qabs x).
  set (e := Z.max (ilog2 a) (-1022)).
  set (ulp := 2 ^ (e - 52)).
  set (r := inject_Z (round_even (a / ulp)) * ulp).
  assert (Hu : 0 < ulp) by apply pow2_pos.
  assert (Ha : 0 <= a) by apply Qabs_nonneg.
  assert (Hr0 : 0 <= r).
  { unfold r. apply Qmult_le_0_compat; [|lra].
    apply round_even_nonneg. apply Qle_shift_div_l; [exact Hu|]. lra. }
  assert (Hr : r <= a + ulp * (1 # 2)).
  { unfold r. pose proof (round_even_le (a / ulp)) as K.
    apply (Qmult_le_compat_r _ _ ulp) in K; [|lra].
    setoid_replace ((a / ulp + (1 # 2)) * ulp) with (a + ulp * (1 # 2)) in K
      by (field; lra).
    exact K. }
  destruct (Qle_bool 0 x) eqn:Ex.
  - apply Qle_bool_iff in Ex.
    assert (Eax : a == x) by (unfold a; now apply Qabs_pos).
    assert (Hx0 : 0 < x).
    { destruct (Qlt_le_dec 0 x) as [L|L]; [exact L|].
      assert (K : x == 0) by lra. apply Qeq_bool_iff in K. congruence. }
    assert (Hrq : r < q).
    { destruct (ilog2_spec a) as [L U]; [lra|].
      destruct (Z.max_spec (ilog2 a) (-1022)) as [[Hl Em]|[Hl Em]];
        fold e in Em.
      - (* subnormal *)
        assert (K1 : a < 1).
        { apply (Qlt_le_trans _ _ _ U). change 1 with (2 ^ 0).
          apply Qpower_le_compat_l; [lia|discriminate]. }
        assert (K2 : ulp <= 1).
        { unfold ulp. change 1 with (2 ^ 0).
          apply Qpower_le_compat_l; [lia|discriminate]. }
        lra.
      - assert (K : ulp * 2 ^ 52 == 2 ^ e).
        { unfold ulp. rewrite <- Qpower_plus by discriminate.
          now replace (e - 52 + 52)%Z with e by lia. }
        rewrite Em in K. change (2 ^ 52) with 4503599627370496 in K.
        nra. }
    destruct (Qle_bool (2 ^ 1024) r) eqn:Eo.
    { apply Qle_bool_iff in Eo. lra. }
    change (Qle_bool q (Qred r) = false).
    apply not_true_is_false. intros K. apply Qle_bool_iff in K.
    rewrite Qred_correct in K. lra.
  - destruct (Qle_bool (2 ^ 1024) r); [reflexivity|].
    change (Qle_bool q (Qred (- r)) = false).
    apply not_true_is_false. intros K. apply Qle_bool_iff in K.
    rewrite Qred_correct in K. lra.
Qed.

Local Close Scope Q_scope.


(* ================================================================== *)
(** ** Removal and the current index *)
(* ================================================================== *)

Lemma filter_length_le {A : Type} (f : A -> bool) (l : list A) :
  length (filter f l) <= length l.
Proof.
  induction l as [|x l IH]; cbn; [lia|]. destruct (f x); cbn; lia.
Qed.

Lemma filter_drops_one {A : Type} (f : A -> bool) (l : list A) (k : nat) (x : A) :
  nth_error l k = Some x -> f x = false -> length (filter f l) < length l.
Proof.
  revert k. induction l as [|y l IH]; intros [|k] H Hf; cbn in *; try discriminate.
  - inversion H; subst. rewrite Hf. pose proof (filter_length_le f l). lia.
  - specialize (IH k H Hf). destruct (f y); cbn; lia.
Qed.

(** C2, as the code has it.  After [handleRemove]: the collection is the
    previous one without the entries of that identifier; the index becomes 0
    when it no longer designates a slot of the new collection (so also when
    the collection is emptied) and is left as it was otherwise, whether or
    not the displayed entry was the one removed; it is never moved to
    [length - 1].  In particular removing the displayed entry when it is the
    last one gives index 0, and an index that was in range stays in range
    as long as an entry remains. *)
Theorem handleRemove_index_rule (rid : string) (prev : list ImageItem) (idx : nat) :
  let next := fst (handleRemove rid prev idx) in
  let idx' := snd (handleRemove rid prev idx) in
  next = filter (fun img => negb (String.eqb (id img) rid)) prev
  /\ (length next <= idx -> idx' = 0)
  /\ (idx < length next -> idx' = idx)
  /\ (forall x, nth_error prev idx = Some x -> id x = rid ->
                S idx = length prev -> idx' = 0)
  /\ (next <> [] -> idx' < length next).
Proof.
  cbv zeta. unfold handleRemove. cbn [fst snd].
  set (next := filter _ prev).
  assert (Hle : length next <= idx -> (if length next =? 0 then 0
            else if length next <=? idx then 0 else idx) = 0).
  { intros H. destruct (length next =? 0); [reflexivity|].
    apply Nat.leb_le in H. now rewrite H. }
  repeat split.
  - exact Hle.
  - intros H. destruct (length next =? 0) eqn:E0.
    + apply Nat.eqb_eq in E0. lia.
    + destruct (length next <=? idx) eqn:E1; [|reflexivity].
      apply Nat.leb_le in E1. lia.
  - intros x Hx Hid Hlast. apply Hle.
    assert (length next < length prev); [|lia].
    apply (filter_drops_one _ prev idx x Hx).
    rewrite Hid, String.eqb_refl. reflexivity.
  - intros Hne. destruct (length next =? 0) eqn:E0.
    + apply Nat.eqb_eq in E0. destruct next; [congruence|discriminate].
    + apply Nat.eqb_neq in E0.
      destruct (length next <=? idx) eqn:E1; [lia|].
      apply Nat.leb_gt in E1. exact E1.
Qed.

(** C2 fails as stated.  With entries a, b, c: removing b while it is
    displayed (index 1) leaves the index at 1, not 0; removing a while c is
    displayed (index 2) gives index 0, not [length - 1 = 1]. *)
Lemma handleRemove_neither_resets_nor_clamps :
  let a := mkImageItem "a" "a.png" "blob:a" "data:a" in
  let b := mkImageItem "b" "b.png" "blob:b" "data:b" in
  let c := mkImageItem "c" "c.png" "blob:c" "data:c" in
  (nth_error [a; b; c] 1 = Some b
   /\ handleRemove "b" [a; b; c] 1 = ([a; c], 1))
  /\ (handleRemove "a" [a; b; c] 2 = ([b; c], 0)
      /\ length [b; c] - 1 = 1).
Proof. cbv zeta. repeat split. Qed.

(* ================================================================== *)
(** ** Reordering *)
(* ================================================================== *)

(** C3, as the code has it.  [onDragEnd] leaves the collection and the
    index alone when a drag ref is unset or the two indices are equal; for
    any other pair, in range or not, it runs the two splices and sets the
    index to 0, and a drop index past the end puts the dragged entry last.
    Both refs are cleared in every case. *)
Theorem onDragEnd_guard (s : DragState) :
  (d_dragItem s = None \/ d_dragOverItem s = None
   \/ d_dragItem s = d_dragOverItem s ->
   d_images (onDragEnd s) = d_images s
   /\ d_currentIndex (onDragEnd s) = d_currentIndex s)
  /\ (forall i j, d_dragItem s = Some i -> d_dragOverItem s = Some j -> i <> j ->
      d_images (onDragEnd s) = reorder i j (d_images s)
      /\ d_currentIndex (onDragEnd s) = 0
      /\ (forall x, nth_error (d_images s) i = Some x ->
                    length (d_images s) <= j ->
                    reorder i j (d_images s) = splice_out i (d_images s) ++ [x]))
  /\ d_dragItem (onDragEnd s) = None
  /\ d_dragOverItem (onDragEnd s) = None.
Proof.
  unfold onDragEnd.
  destruct (d_dragItem s) as [i|], (d_dragOverItem s) as [j|]; cbn;
    try (split; [intros _; split; reflexivity
                |split; [intros i' j' Hi Hj; discriminate
                        |split; reflexivity]]).
  destruct (i =? j) eqn:E; cbn.
  - apply Nat.eqb_eq in E. subst j.
    split; [intros _; split; reflexivity|].
    split; [|split; reflexivity].
    intros i' j' Hi Hj Hne. inversion Hi; inversion Hj; subst. congruence.
  - apply Nat.eqb_neq in E.
    split; [|split; [|split; reflexivity]].
    + intros [H|[H|H]]; try discriminate. inversion H. congruence.
    + intros i' j' Hi Hj _. inversion Hi; inversion Hj; subst.
      split; [reflexivity|]. split; [reflexivity|].
      intros x Hx Hlen. unfold reorder. rewrite Hx.
      apply splice_in_past_end.
      pose proof (proj1 (nth_error_Some (d_images s) i')) as Hlt.
      rewrite Hx in Hlt. specialize (Hlt ltac:(discriminate)).
      rewrite splice_out_length by exact Hlt. lia.
Qed.

Lemma onDragEnd_guard_witness :
  let a := Some (mkImageItem "a" "a.png" "blob:a" "data:a") in
  let b := Some (mkImageItem "b" "b.png" "blob:b" "data:b") in
  d_images (onDragEnd (mkDragState (Some 1) (Some 1) [a; b] 1)) = [a; b]
  /\ d_currentIndex (onDragEnd (mkDragState (Some 1) (Some 1) [a; b] 1)) = 1.
Proof.
  cbv zeta.
  apply (proj1 (onDragEnd_guard
                  (mkDragState (Some 1) (Some 1)
                     [Some (mkImageItem "a" "a.png" "blob:a" "data:a");
                      Some (mkImageItem "b" "b.png" "blob:b" "data:b")] 1))).
  right. right. reflexivity.
Defined.

(** C3 fails as stated for out-of-range indices.  A drop index past the
    end (5 of 3) moves the dragged entry to the end and sets the index to 0;
    a drag index past the end (7 of 3) inserts an [undefined] slot. *)
Lemma onDragEnd_out_of_range_not_noop :
  let a := Some (mkImageItem "a" "a.png" "blob:a" "data:a") in
  let b := Some (mkImageItem "b" "b.png" "blob:b" "data:b") in
  let c := Some (mkImageItem "c" "c.png" "blob:c" "data:c") in
  onDragEnd (mkDragState (Some 0) (Some 5) [a; b; c] 2)
  = mkDragState None None [b; c; a] 0
  /\ onDragEnd (mkDragState (Some 7) (Some 0) [a; b; c] 2)
     = mkDragState None None [None; a; b; c] 0.
Proof. cbv zeta. split; reflexivity. Qed.

(** C4.  For distinct indices in range, [onDragEnd] yields a collection
    with the same entries (no slot is [undefined], and the entries are a
    permutation of the previous ones, so none is added, lost or
    duplicated), of the same length, with the dragged entry at the drop
    index, and sets the index to 0. *)
Theorem onDragEnd_reorders (items : list ImageItem) (i j idx : nat) :
  i < length items -> j < length items -> i <> j ->
  exists items',
    onDragEnd (mkDragState (Some i) (Some j) (map Some items) idx)
    = mkDragState None None (map Some items') 0
    /\ defined_all (map Some items') = Some items'
    /\ Permutation items' items
    /\ length items' = length items
    /\ nth_error items' j = nth_error items i.
Proof.
  intros Hi Hj Hne.
  destruct (nth_error items i) as [x|] eqn:Hx;
    [|apply nth_error_None in Hx; lia].
  exists (splice_in j x (splice_out i items)).
  split; [|split; [apply defined_all_map_Some|split; [|split]]].
  - unfold onDragEnd. cbn [d_dragItem d_dragOverItem d_images d_currentIndex].
    apply Nat.eqb_neq in Hne. rewrite Hne.
    now rewrite (reorder_in_range items i j x Hx).
  - rewrite splice_in_perm. now apply splice_out_perm.
  - rewrite splice_in_length, splice_out_length by exact Hi. lia.
  - apply splice_in_nth. rewrite splice_out_length by exact Hi. lia.
Qed.

Lemma onDragEnd_reorders_witness :
  let a := mkImageItem "a" "a.png" "blob:a" "data:a" in
  let b := mkImageItem "b" "b.png" "blob:b" "data:b" in
  let c := mkImageItem "c" "c.png" "blob:c" "data:c" in
  exists items',
    onDragEnd (mkDragState (Some 0) (Some 2) (map Some [a; b; c]) 1)
    = mkDragState None None (map Some items') 0
    /\ defined_all (map Some items') = Some items'
    /\ Permutation items' [a; b; c]
    /\ length items' = 3
    /\ nth_error items' 2 = Some a.
Proof.
  cbv zeta.
  apply (onDragEnd_reorders
           [mkImageItem "a" "a.png" "blob:a" "data:a";
            mkImageItem "b" "b.png" "blob:b" "data:b";
            mkImageItem "c" "c.png" "blob:c" "data:c"] 0 2 1);
    cbn; lia.
Defined.

(* ================================================================== *)
(** ** Adding files *)
(* ================================================================== *)

Lemma available_spec (n : nat) : available n = MAX_IMAGES - n.
Proof. unfold available, MAX_IMAGES. lia. Qed.

Lemma selectFiles_length (n : nat) (files : list File) :
  length (selectFiles n files) = Nat.min (length files) (MAX_IMAGES - n).
Proof.
  unfold selectFiles. rewrite length_firstn, available_spec. lia.
Qed.





(* ================================================================== *)
(** ** Restoring the entries of a session *)
(* ================================================================== *)

Lemma restoreImages_sound (objectUrl : nat -> SessionImage -> option string)
      (session : SessionData) (restored : list ImageItem) :
  restoreImages objectUrl session = Some restored ->
  map toSessionImage restored = firstn MAX_IMAGES (sd_images session).
Proof.
  unfold restoreImages.
  set (sliced := firstn MAX_IMAGES (sd_images session)).
  generalize 0 as k. revert restored.
  induction sliced as [|img l IH]; intros restored k H; cbn in H.
  - now inversion H.
  - destruct (objectUrl k img) as [u|]; [|discriminate].
    destruct (promise_all _) as [r|] eqn:E; [|discriminate].
    inversion H; subst. cbn. rewrite (IH r (S k) E).
    destruct img; reflexivity.
Qed.

Lemma restoreImages_total (objectUrl : nat -> SessionImage -> option string)
      (session : SessionData) :
  (forall k img, objectUrl k img <> None) ->
  exists restored, restoreImages objectUrl session = Some restored.
Proof.
  intros Hall. unfold restoreImages.
  set (sliced := firstn MAX_IMAGES (sd_images session)).
  generalize 0 as k.
  induction sliced as [|img l IH]; intros k; cbn.
  - now exists [].
  - destruct (objectUrl k img) as [u|] eqn:E; [|now apply Hall in E].
    destruct (IH (S k)) as [r Hr]. rewrite Hr. eauto.
Qed.

(* ================================================================== *)
(** ** The machine: closed forms of the timer operations *)
(* ================================================================== *)

Lemma same_value_refl (a : number) : same_value a a = true.
Proof. destruct a; cbn; try reflexivity. apply Qeq_bool_iff. reflexivity. Qed.

Lemma leb_same_value (a b c : number) :
  same_value a b = true -> leb a c = leb b c.
Proof.
  destruct a as [| |p|], b as [| |q|]; cbn; try discriminate; try reflexivity.
  intros H. apply Qeq_bool_iff in H.
  destruct c as [| |r|]; cbn; try reflexivity.
  destruct (Qle_bool p r) eqn:E1, (Qle_bool q r) eqn:E2; try reflexivity.
  - apply Qle_bool_iff in E1. rewrite H in E1. apply Qle_bool_iff in E1. congruence.
  - apply Qle_bool_iff in E2. rewrite <- H in E2. apply Qle_bool_iff in E2. congruence.
Qed.

Lemma is_save_tick (t : Timeout) : is_save t = negb (is_tick t).
Proof. unfold is_save, is_tick. destruct (to_cb t); reflexivity. Qed.

Lemma filter_all {A : Type} (f : A -> bool) (l : list A) :
  (forall x, In x l -> f x = true) -> filter f l = l.
Proof.
  induction l as [|x l IH]; intros H; cbn; [reflexivity|].
  rewrite (H x (or_introl eq_refl)), IH; [reflexivity|].
  intros y Hy. apply H. now right.
Qed.

Lemma filter_none {A : Type} (f : A -> bool) (l : list A) :
  (forall x, In x l -> f x = false) -> filter f l = [].
Proof.
  induction l as [|x l IH]; intros H; cbn; [reflexivity|].
  rewrite (H x (or_introl eq_refl)). apply IH.
  intros y Hy. apply H. now right.
Qed.

Lemma NoDup_map_filter {A B : Type} (g : A -> B) (f : A -> bool) (l : list A) :
  NoDup (map g l) -> NoDup (map g (filter f l)).
Proof.
  induction l as [|x l IH]; cbn; intros H; [constructor|].
  inversion H as [|? ? Hn Hd]; subst.
  destruct (f x); cbn; [constructor|]; auto.
  intros Hin. apply Hn. apply in_map_iff in Hin as (y & Hy & Hin).
  apply filter_In in Hin as [Hin _]. apply in_map_iff. eauto.
Qed.

Lemma NoDup_map_eq {A B : Type} (g : A -> B) (l : list A) (x y : A) :
  NoDup (map g l) -> In x l -> In y l -> g x = g y -> x = y.
Proof.
  induction l as [|z l IH]; cbn; intros Hd Hx Hy E; [contradiction|].
  inversion Hd as [|? ? Hn Hd']; subst.
  destruct Hx as [->|Hx], Hy as [->|Hy]; auto.
  - exfalso. apply Hn. rewrite E. now apply in_map.
  - exfalso. apply Hn. rewrite <- E. now apply in_map.
Qed.

Lemma find_id {A : Type} (g : A -> nat) (l : list A) (x : A) :
  NoDup (map g l) -> In x l -> find (fun y => g y =? g x) l = Some x.
Proof.
  intros Hd Hx.
  destruct (find (fun y => g y =? g x) l) as [y|] eqn:E.
  - apply find_some in E as [Hy E]. apply Nat.eqb_eq in E.
    f_equal. now apply (NoDup_map_eq g l).
  - apply (find_none _ _ E) in Hx. now rewrite Nat.eqb_refl in Hx.
Qed.

Lemma timeoutRef_is_tick (s : State) :
  Structural s ->
  forall i, timeoutRef s = Some i ->
  forall t, In t (timeouts s) -> to_id t = i -> is_tick t = true.
Proof.
  intros St i Hi t Hin Hid.
  destruct (st_timeoutRef s St i Hi) as (t' & Hin' & Hid' & Hk).
  assert (t = t') by (apply (NoDup_map_eq to_id (timeouts s)); auto using st_timeout_nodup; congruence).
  now subst.
Qed.

(** Under [Structural], [clearTimers] cancels every advancement source,
    and nothing else. *)
Lemma clearTimers_eq (s : State) :
  Structural s ->
  clearTimers s =
  mkState (images s) (intervalMs s) (isPlaying s) (currentIndex s) None None
    (dragItem s) (dragOverItem s) (saveTimer s) (playbackCleanup s)
    (filter is_save (timeouts s)) [] (nextId s) (store s) (load s)
    (imports s) (alerts s) (savelog s) (advances s) (clock s).
Proof.
  intros St.
  assert (Ht : forall i, timeoutRef s = Some i ->
            filter (fun t => negb (to_id t =? i)) (timeouts s)
            = filter is_save (timeouts s)).
  { intros i Hi. apply filter_ext_in. intros t Hin.
    rewrite is_save_tick. f_equal.
    destruct (to_id t =? i) eqn:E.
    - apply Nat.eqb_eq in E. symmetry.
      now apply (timeoutRef_is_tick s St i Hi t).
    - destruct (is_tick t) eqn:Ek; [|reflexivity].
      pose proof (st_ticks_ref s St t Hin Ek) as R.
      rewrite Hi in R. inversion R. subst. now rewrite Nat.eqb_refl in E. }
  assert (Ht' : timeoutRef s = None -> timeouts s = filter is_save (timeouts s)).
  { intros Hn. symmetry. apply filter_all. intros t Hin.
    rewrite is_save_tick. destruct (is_tick t) eqn:Ek; [|reflexivity].
    pose proof (st_ticks_ref s St t Hin Ek) as R. congruence. }
  assert (Hf : forall j, rafRef s = Some j ->
            filter (fun f => negb (fr_id f =? j)) (frames s) = []).
  { intros j Hj. apply filter_none. intros f Hin.
    pose proof (st_frames_ref s St f Hin) as R. rewrite Hj in R.
    inversion R. now rewrite Nat.eqb_refl. }
  assert (Hf' : rafRef s = None -> frames s = []).
  { intros Hn. destruct (frames s) as [|f l] eqn:E; [reflexivity|].
    pose proof (st_frames_ref s St f) as R. rewrite E in R.
    specialize (R (or_introl eq_refl)). congruence. }
  unfold clearTimers, clearTimeout, cancelAnimationFrame.
  destruct s as [im iv pl ci tr rr di do_ sv pc tos frs nid sto ld imp al lg adv ck].
  cbn in *.
  destruct tr as [i|], rr as [j|]; cbn.
  - now rewrite (Ht i eq_refl), (Hf j eq_refl).
  - now rewrite (Ht i eq_refl), (Hf' eq_refl).
  - now rewrite <- (Ht' eq_refl), (Hf j eq_refl).
  - now rewrite <- (Ht' eq_refl), (Hf' eq_refl).
Qed.

(** Under [Structural], the save effect replaces whatever save timer is
    armed by a new one, due [SAVE_DEBOUNCE_MS] later, closing over the
    current snapshot. *)
Lemma saveEffect_eq (now : Q) (s : State) :
  Structural s ->
  saveEffect now s =
  mkState (images s) (intervalMs s) (isPlaying s) (currentIndex s)
    (timeoutRef s) (rafRef s) (dragItem s) (dragOverItem s)
    (Some (nextId s)) (playbackCleanup s)
    (filter is_tick (timeouts s)
     ++ [mkTimeout (nextId s) (now + SAVE_DEBOUNCE_MS)
           (SaveCb (clampedInterval (intervalMs s)) (images s))])
    (frames s) (S (nextId s)) (store s) (load s) (imports s) (alerts s)
    (savelog s
     ++ [Req now (savePayload (clampedInterval (intervalMs s)) (images s))])
    (advances s) (clock s).
Proof.
  intros St.
  assert (Ht : forall i, saveTimer s = Some i ->
            filter (fun t => negb (to_id t =? i)) (timeouts s)
            = filter is_tick (timeouts s)).
  { intros i Hi. apply filter_ext_in. intros t Hin.
    destruct (to_id t =? i) eqn:E.
    - apply Nat.eqb_eq in E.
      pose proof (proj2 (st_saveTimer s St i Hi) t Hin E) as R.
      rewrite is_save_tick in R. now destruct (is_tick t).
    - destruct (is_tick t) eqn:Ek; [reflexivity|].
      assert (R : is_save t = true) by (rewrite is_save_tick, Ek; reflexivity).
      pose proof (st_saves_ref s St t Hin R) as R'.
      rewrite Hi in R'. inversion R'. subst. now rewrite Nat.eqb_refl in E. }
  assert (Ht' : saveTimer s = None -> timeouts s = filter is_tick (timeouts s)).
  { intros Hn. symmetry. apply filter_all. intros t Hin.
    destruct (is_tick t) eqn:Ek; [reflexivity|].
    assert (R : is_save t = true) by (rewrite is_save_tick, Ek; reflexivity).
    pose proof (st_saves_ref s St t Hin R). congruence. }
  unfold saveEffect, setTimeout, clearTimeout.
  destruct s as [im iv pl ci tr rr di do_ sv pc tos frs nid sto ld imp al lg adv ck].
  cbn in *.
  destruct sv as [i|]; cbn.
  - now rewrite (Ht i eq_refl).
  - now rewrite <- (Ht' eq_refl).
Qed.

Lemma no_playback_pending (s : State) :
  Structural s -> ~ playback_pending s ->
  timeouts s = filter is_save (timeouts s) /\ frames s = []
  /\ timeoutRef s = None /\ rafRef s = None.
Proof.
  intros St Hn.
  assert (Hfr : frames s = []).
  { destruct (frames s) eqn:E; [reflexivity|].
    exfalso. apply Hn. right. rewrite E. discriminate. }
  assert (Hti : forall t, In t (timeouts s) -> is_tick t = false).
  { intros t Hin. destruct (is_tick t) eqn:E; [|reflexivity].
    exfalso. apply Hn. left. eauto. }
  repeat split.
  - symmetry. apply filter_all. intros t Hin.
    rewrite is_save_tick, (Hti t Hin). reflexivity.
  - exact Hfr.
  - destruct (timeoutRef s) as [i|] eqn:E; [|reflexivity].
    destruct (st_timeoutRef s St i E) as (t & Hin & _ & Hk).
    rewrite (Hti t Hin) in Hk. discriminate.
  - destruct (rafRef s) as [j|] eqn:E; [|reflexivity].
    destruct (st_rafRef s St j E) as (f & Hin & _).
    rewrite Hfr in Hin. destruct Hin.
Qed.

(** Under [Structural], when every armed source is covered by a cleanup,
    the playback effect leaves exactly one source armed while playing over
    a non-empty collection (the frame request when the clamped interval is
    at most 32, the [tick] timeout otherwise) and none in the other
    case. *)
Lemma playbackEffect_eq (now : Q) (s : State) :
  Structural s ->
  (playback_pending s -> playbackCleanup s = true) ->
  let run := isPlaying s && negb (length (images s) =? 0) in
  let c := clampedInterval (intervalMs s) in
  let useRaf := leb c (Num 32) in
  playbackEffect now s =
  mkState (images s) (intervalMs s) (isPlaying s) (currentIndex s)
    (if run && negb useRaf then Some (nextId s) else None)
    (if run && useRaf then Some (nextId s) else None)
    (dragItem s) (dragOverItem s) (saveTimer s) run
    (filter is_save (timeouts s)
     ++ (if run && negb useRaf
         then [mkTimeout (nextId s) (now + to_delay c)
                 (TickCb (length (images s)) c)]
         else []))
    (if run && useRaf
     then [mkFrame (nextId s) (isPlaying s) (length (images s)) c now]
     else [])
    (if run then S (nextId s) else nextId s)
    (store s) (load s) (imports s) (alerts s) (savelog s) (advances s) (clock s).
Proof.
  intros St Hc. cbv zeta.
  set (cleared :=
    mkState (images s) (intervalMs s) (isPlaying s) (currentIndex s) None None
      (dragItem s) (dragOverItem s) (saveTimer s) (playbackCleanup s)
      (filter is_save (timeouts s)) [] (nextId s) (store s) (load s)
      (imports s) (alerts s) (savelog s) (advances s) (clock s)).
  assert (H1 : (if playbackCleanup s then clearTimers s else s) = cleared).
  { destruct (playbackCleanup s) eqn:E.
    - rewrite (clearTimers_eq s St). unfold cleared. now rewrite E.
    - assert (Hn : ~ playback_pending s) by (intros H; apply Hc in H; congruence).
      destruct (no_playback_pending s St Hn) as (A & B & C & D).
      unfold cleared. rewrite <- A, <- E.
      destruct s; cbn in *; subst; reflexivity. }
  assert (H2 : clearTimers cleared = cleared).
  { unfold clearTimers, cleared. cbn. reflexivity. }
  unfold playbackEffect. rewrite H1.
  replace (isPlaying cleared) with (isPlaying s) by reflexivity.
  replace (images cleared) with (images s) by reflexivity.
  replace (intervalMs cleared) with (intervalMs s) by reflexivity.
  destruct (isPlaying s) eqn:Ep; cbn [negb orb andb].
  - destruct (length (images s) =? 0) eqn:El; cbn [negb orb andb].
    + rewrite H2. unfold cleared. cbn. now rewrite app_nil_r.
    + destruct (leb (clampedInterval (intervalMs s)) (Num 32)) eqn:Eu;
        cbn [negb]; unfold cleared, requestAnimationFrame, setTimeout; cbn.
      * now rewrite app_nil_r.
      * reflexivity.
  - rewrite H2. unfold cleared. cbn. now rewrite app_nil_r.
Qed.

(* ================================================================== *)
(** ** The machine: the effects keep the invariants *)
(* ================================================================== *)

Lemma same_value_trans (a b c : number) :
  same_value a b = true -> same_value b c = true -> same_value a c = true.
Proof.
  destruct a as [| |p|], b as [| |q|], c as [| |r|]; cbn; try discriminate; auto.
  intros H1 H2. apply Qeq_bool_iff in H1, H2. apply Qeq_bool_iff.
  now rewrite H1.
Qed.

Lemma NoDup_snoc {A : Type} (l : list A) (x : A) :
  NoDup l -> ~ In x l -> NoDup (l ++ [x]).
Proof.
  intros Hd Hn. apply (Permutation_NoDup (l := x :: l)).
  - apply Permutation_cons_append.
  - now constructor.
Qed.

Lemma log_wf_snoc (prev : option SaveEv) (l : list SaveEv) (e : SaveEv) :
  log_wf prev (l ++ [e]) <-> log_wf prev l /\ link (last_ev prev l) e.
Proof.
  revert prev. induction l as [|x l IH]; intros prev; cbn.
  - tauto.
  - rewrite IH. tauto.
Qed.

Lemma last_ev_snoc (prev : option SaveEv) (l : list SaveEv) (e : SaveEv) :
  last_ev prev (l ++ [e]) = Some e.
Proof. revert prev. induction l as [|x l IH]; intros prev; cbn; auto. Qed.

Lemma last_ev_in (l : list SaveEv) (e : SaveEv) :
  last_ev None l = Some e -> In e l.
Proof.
  assert (G : forall prev, last_ev prev l = Some e -> prev = Some e \/ In e l).
  { induction l as [|x l IH]; intros prev H; cbn in *; [now left|].
    destruct (IH _ H) as [E|E]; [inversion E; auto|auto]. }
  intros H. destruct (G None H) as [E|E]; [discriminate|exact E].
Qed.

(** *** Invariants only read part of the state *)

Lemma Structural_same (s s' : State) :
  same_timers s s' -> Structural s -> Structural s'.
Proof.
  intros [A B C D E F G H] St.
  constructor; rewrite ?A, ?B, ?C, ?D, ?E, ?F; apply St.
Qed.

Lemma Current_same (p : bool) (n : nat) (iv : number) (s s' : State) :
  same_timers s s' -> Current p n iv s -> Current p n iv s'.
Proof.
  intros [A B C D E F G H] Cu.
  constructor; unfold playback_pending; rewrite ?A, ?B, ?G; apply Cu.
Qed.

Lemma Logged_same (t0 b : Q) (s s' : State) :
  same_timers s s' -> Logged t0 b s -> Logged t0 b s'.
Proof.
  intros [A B C D E F G H] Lg.
  constructor; rewrite ?A, ?H; apply Lg.
Qed.

Lemma Logged_later (t0 b b' : Q) (s : State) :
  (b <= b')%Q -> Logged t0 b s -> Logged t0 b' s.
Proof.
  intros Hb [A B C D]. constructor; auto.
  intros e He. specialize (C e He). lra.
Qed.

Lemma Current_deps (p : bool) (n : nat) (iv iv' : number) (s : State) :
  same_value (clampedInterval iv) (clampedInterval iv') = true ->
  Current p n iv s -> Current p n iv' s.
Proof.
  intros E [A B C]. constructor; auto.
  - intros t m c Hin Hcb. destruct (A t m c Hin Hcb) as (a1 & a2 & a3 & a4).
    repeat split; auto. now rewrite <- (leb_same_value _ _ _ E).
  - intros f Hin. destruct (B f Hin) as (b1 & b2 & b3 & b4 & b5 & b6).
    repeat split; auto.
    + now apply (same_value_trans _ _ _ b5).
    + now rewrite <- (leb_same_value _ _ _ E).
Qed.

Lemma Live_same (old s : State) :
  same_deps old s -> timeouts s = timeouts old -> frames s = frames old ->
  Live old -> Live s.
Proof.
  intros (A & B & C) Ht Hf L. unfold Live in *.
  rewrite A, B, Ht, Hf, <- (leb_same_value _ _ _ C). exact L.
Qed.

Lemma same_ui_refl (s : State) : same_ui s s.
Proof. constructor; reflexivity. Qed.

Lemma same_ui_trans (s1 s2 s3 : State) :
  same_ui s1 s2 -> same_ui s2 s3 -> same_ui s1 s3.
Proof. intros [] []. constructor; congruence. Qed.

(** *** The save effect *)

Lemma saveEffect_ui (now : Q) (s : State) :
  Structural s -> same_ui s (saveEffect now s).
Proof. intros St. rewrite (saveEffect_eq now s St). constructor; reflexivity. Qed.

Lemma saveEffect_Structural (now : Q) (s : State) :
  Structural s -> Structural (saveEffect now s).
Proof.
  intros St. rewrite (saveEffect_eq now s St).
  constructor; cbn [timeouts frames nextId timeoutRef rafRef saveTimer].
  - intros t Hin. apply in_app_or in Hin as [Hin|[<-|[]]]; cbn.
    + apply filter_In in Hin as [Hin _]. pose proof (st_timeout_ids s St t Hin). lia.
    + lia.
  - intros f Hin. pose proof (st_frame_ids s St f Hin). lia.
  - rewrite map_app. apply NoDup_snoc.
    + apply NoDup_map_filter, St.
    + cbn. intros Hin. apply in_map_iff in Hin as (t & E & Hin).
      apply filter_In in Hin as [Hin _].
      pose proof (st_timeout_ids s St t Hin). lia.
  - apply St.
  - intros t Hin Hk. apply in_app_or in Hin as [Hin|[<-|[]]].
    + apply filter_In in Hin as [Hin _]. now apply St.
    + discriminate.
  - apply St.
  - intros t Hin Hk. apply in_app_or in Hin as [Hin|[<-|[]]].
    + apply filter_In in Hin as [_ Hin]. rewrite is_save_tick, Hin in Hk. discriminate.
    + reflexivity.
  - intros i Hi. destruct (st_timeoutRef s St i Hi) as (t & Hin & Hid & Hk).
    exists t. repeat split; auto. apply in_or_app. left. now apply filter_In.
  - apply St.
  - intros i Hi. inversion Hi; subst. split; [lia|].
    intros t Hin Hid. apply in_app_or in Hin as [Hin|[<-|[]]].
    + apply filter_In in Hin as [Hin _].
      pose proof (st_timeout_ids s St t Hin). lia.
    + reflexivity.
Qed.

Lemma saveEffect_Current (now : Q) (p : bool) (n : nat) (iv : number) (s : State) :
  Structural s -> Current p n iv s -> Current p n iv (saveEffect now s).
Proof.
  intros St [A B C]. rewrite (saveEffect_eq now s St).
  constructor; unfold playback_pending; cbn [timeouts frames playbackCleanup].
  - intros t m c Hin Hcb. apply in_app_or in Hin as [Hin|[<-|[]]].
    + apply filter_In in Hin as [Hin _]. eauto.
    + discriminate.
  - exact B.
  - intros [(t & Hin & Hk)|Hf]; apply C; [left|now right].
    apply in_app_or in Hin as [Hin|[<-|[]]]; [|discriminate].
    apply filter_In in Hin as [Hin _]. eauto.
Qed.

Lemma saveEffect_Logged (t0 b now : Q) (s : State) :
  Structural s -> (b <= now)%Q -> (t0 <= now)%Q ->
  Logged t0 b s -> Logged t0 now (saveEffect now s).
Proof.
  intros St Hb H0 [A B C D]. rewrite (saveEffect_eq now s St).
  constructor; cbn [timeouts savelog].
  - apply log_wf_snoc. split; [exact A|].
    cbn. destruct (last_ev None (savelog s)) as [e|] eqn:E; [|exact I].
    apply last_ev_in in E. specialize (C e E). lra.
  - intros e Hin. apply in_app_or in Hin as [Hin|[<-|[]]]; cbn; auto.
  - intros e Hin. apply in_app_or in Hin as [Hin|[<-|[]]]; cbn.
    + specialize (C e Hin). lra.
    + lra.
  - rewrite last_ev_snoc. eexists _, _, _. split; [|reflexivity].
    apply in_or_app. right. left. reflexivity.
Qed.

Lemma saveEffect_ticks (now : Q) (s : State) :
  Structural s ->
  frames (saveEffect now s) = frames s
  /\ forall t, is_tick t = true ->
       (In t (timeouts (saveEffect now s)) <-> In t (timeouts s)).
Proof.
  intros St. rewrite (saveEffect_eq now s St). cbn [timeouts frames].
  split; [reflexivity|]. intros t Hk. split.
  - intros Hin. apply in_app_or in Hin as [Hin|[<-|[]]]; [|discriminate].
    now apply filter_In in Hin as [Hin _].
  - intros Hin. apply in_or_app. left. now apply filter_In.
Qed.

(** *** The playback effect *)

Lemma playbackEffect_inv (t0 b now : Q) (p : bool) (n : nat) (iv : number)
      (s : State) :
  Structural s -> Current p n iv s -> Logged t0 b s ->
  Structural (playbackEffect now s)
  /\ Current (isPlaying s) (length (images s)) (intervalMs s) (playbackEffect now s)
  /\ Live (playbackEffect now s)
  /\ Logged t0 b (playbackEffect now s)
  /\ same_ui s (playbackEffect now s)
  /\ saveTimer (playbackEffect now s) = saveTimer s
  /\ savelog (playbackEffect now s) = savelog s.
Proof.
  intros St Cu Lg.
  rewrite (playbackEffect_eq now s St (cur_cleanup _ _ _ _ Cu)).
  assert (Hsave : forall t, In t (filter is_save (timeouts s)) ->
            is_tick t = false /\ In t (timeouts s) /\ to_id t < nextId s).
  { intros t Hin. apply filter_In in Hin as [Hin K].
    rewrite is_save_tick in K. split; [now destruct (is_tick t)|].
    split; [exact Hin|now apply St]. }
  assert (Hlog : forall l,
            (forall t, In t l -> is_save t = true -> In t (timeouts s)) ->
            (forall t, In t (timeouts s) -> is_save t = true -> In t l) ->
            match last_ev None (savelog s) with
            | Some (Req t q) =>
                exists i c imgs,
                  In (mkTimeout i (t + SAVE_DEBOUNCE_MS) (SaveCb c imgs)) l
                  /\ q = savePayload c imgs
            | _ => forall t, In t l -> is_save t = false
            end).
  { intros l H1 H2. pose proof (lg_pending _ _ _ Lg) as D.
    destruct (last_ev None (savelog s)) as [[t q|t q|t q]|].
    - destruct D as (i & c & imgs & Hin & E). exists i, c, imgs.
      split; [|exact E]. now apply H2.
    - intros t' Hin. destruct (is_save t') eqn:E; [|reflexivity].
      pose proof (D t' (H1 t' Hin E)). congruence.
    - intros t' Hin. destruct (is_save t') eqn:E; [|reflexivity].
      pose proof (D t' (H1 t' Hin E)). congruence.
    - intros t' Hin. destruct (is_save t') eqn:E; [|reflexivity].
      pose proof (D t' (H1 t' Hin E)). congruence. }
  destruct (isPlaying s) eqn:Ep; cbn [andb negb];
    [destruct (length (images s) =? 0) eqn:El; cbn [andb negb];
     [|destruct (leb (clampedInterval (intervalMs s)) (Num 32)) eqn:Eu;
       cbn [andb negb]]|];
    rewrite ?app_nil_r.
  - (* playing over an empty collection *)
    split; [|split; [|split; [|split; [|split; [|split]]]]].
    { constructor; cbn [timeouts frames nextId timeoutRef rafRef saveTimer].
      - intros t Hin. now apply Hsave.
      - intros f [].
      - apply NoDup_map_filter, St.
      - constructor.
      - intros t Hin Hk. apply Hsave in Hin as [E _]. congruence.
      - intros f [].
      - intros t Hin Hk. apply Hsave in Hin as (_ & Hin & _). now apply St.
      - discriminate.
      - discriminate.
      - intros i Hi. split; [now apply (st_saveTimer s St i Hi)|].
        intros t Hin Hid. apply Hsave in Hin as (_ & Hin & _).
        now apply (st_saveTimer s St i Hi). }
    { constructor; unfold playback_pending;
        cbn [timeouts frames playbackCleanup].
      - intros t m c Hin Hcb. apply Hsave in Hin as [E _].
        unfold is_tick in E. rewrite Hcb in E. discriminate.
      - intros f [].
      - intros [(t & Hin & Hk)|Hf]; [|congruence].
        apply Hsave in Hin as [E _]. congruence. }
    { unfold Live. cbn [isPlaying images intervalMs frames timeouts].
      intros _ H. apply Nat.eqb_eq in El. lia. }
    { constructor; cbn [timeouts savelog]; try apply Lg.
      apply Hlog.
      - intros t Hin _. now apply Hsave in Hin.
      - intros t Hin Hk. now apply filter_In. }
    { constructor; cbn; congruence. }
    { reflexivity. }
    { reflexivity. }
  - (* playing, frame-based *)
    apply Nat.eqb_neq in El.
    split; [|split; [|split; [|split; [|split; [|split]]]]].
    { constructor; cbn [timeouts frames nextId timeoutRef rafRef saveTimer].
      - intros t Hin. apply Hsave in Hin. lia.
      - intros f [<-|[]]. cbn. lia.
      - apply NoDup_map_filter, St.
      - constructor; [intros []|constructor].
      - intros t Hin Hk. apply Hsave in Hin as [E _]. congruence.
      - intros f [<-|[]]. reflexivity.
      - intros t Hin Hk. apply Hsave in Hin as (_ & Hin & _). now apply St.
      - discriminate.
      - intros j Hj. inversion Hj; subst.
        eexists. split; [left; reflexivity|reflexivity].
      - intros i Hi. split; [pose proof (proj1 (st_saveTimer s St i Hi)); lia|].
        intros t Hin Hid. apply Hsave in Hin as (_ & Hin & _).
        now apply (st_saveTimer s St i Hi). }
    { constructor; unfold playback_pending;
        cbn [timeouts frames playbackCleanup].
      - intros t m c Hin Hcb. apply Hsave in Hin as [E _].
        unfold is_tick in E. rewrite Hcb in E. discriminate.
      - intros f [<-|[]]. cbn. repeat split; auto; try lia.
        apply same_value_refl.
      - reflexivity. }
    { unfold Live. cbn [isPlaying images intervalMs frames timeouts].
      rewrite Eu. discriminate. }
    { constructor; cbn [timeouts savelog]; try apply Lg.
      apply Hlog.
      - intros t Hin _. now apply Hsave in Hin.
      - intros t Hin Hk. now apply filter_In. }
    { constructor; cbn; congruence. }
    { reflexivity. }
    { reflexivity. }
  - (* playing, timer-based *)
    apply Nat.eqb_neq in El.
    split; [|split; [|split; [|split; [|split; [|split]]]]].
    { constructor; cbn [timeouts frames nextId timeoutRef rafRef saveTimer].
      - intros t Hin. apply in_app_or in Hin as [Hin|[<-|[]]]; [|cbn; lia].
        apply Hsave in Hin. lia.
      - intros f [].
      - rewrite map_app. apply NoDup_snoc; [apply NoDup_map_filter, St|].
        cbn. intros Hin. apply in_map_iff in Hin as (t & E & Hin).
        apply Hsave in Hin. lia.
      - constructor.
      - intros t Hin Hk. apply in_app_or in Hin as [Hin|[<-|[]]]; [|reflexivity].
        apply Hsave in Hin as [E _]. congruence.
      - intros f [].
      - intros t Hin Hk. apply in_app_or in Hin as [Hin|[<-|[]]]; [|discriminate].
        apply Hsave in Hin as (_ & Hin & _). now apply St.
      - intros i Hi. inversion Hi; subst. eexists.
        split; [apply in_or_app; right; left; reflexivity|].
        split; reflexivity.
      - discriminate.
      - intros i Hi. split; [pose proof (proj1 (st_saveTimer s St i Hi)); lia|].
        intros t Hin Hid. apply in_app_or in Hin as [Hin|[<-|[]]].
        + apply Hsave in Hin as (_ & Hin & _). now apply (st_saveTimer s St i Hi).
        + cbn in Hid. pose proof (proj1 (st_saveTimer s St i Hi)). lia. }
    { constructor; unfold playback_pending;
        cbn [timeouts frames playbackCleanup].
      - intros t m c Hin Hcb. apply in_app_or in Hin as [Hin|[<-|[]]].
        + apply Hsave in Hin as [E _]. unfold is_tick in E.
          rewrite Hcb in E. discriminate.
        + cbn in Hcb. inversion Hcb; subst. repeat split; auto. lia.
      - intros f [].
      - reflexivity. }
    { unfold Live. cbn [isPlaying images intervalMs frames timeouts].
      rewrite Eu. intros _ _. eexists.
      split; [apply in_or_app; right; left; reflexivity|reflexivity]. }
    { constructor; cbn [timeouts savelog]; try apply Lg.
      apply Hlog.
      - intros t Hin Hk. apply in_app_or in Hin as [Hin|[<-|[]]]; [|discriminate].
        now apply Hsave in Hin.
      - intros t Hin Hk. apply in_or_app. left. now apply filter_In. }
    { constructor; cbn; congruence. }
    { reflexivity. }
    { reflexivity. }
  - (* not playing *)
    split; [|split; [|split; [|split; [|split; [|split]]]]].
    { constructor; cbn [timeouts frames nextId timeoutRef rafRef saveTimer].
      - intros t Hin. now apply Hsave.
      - intros f [].
      - apply NoDup_map_filter, St.
      - constructor.
      - intros t Hin Hk. apply Hsave in Hin as [E _]. congruence.
      - intros f [].
      - intros t Hin Hk. apply Hsave in Hin as (_ & Hin & _). now apply St.
      - discriminate.
      - discriminate.
      - intros i Hi. split; [now apply (st_saveTimer s St i Hi)|].
        intros t Hin Hid. apply Hsave in Hin as (_ & Hin & _).
        now apply (st_saveTimer s St i Hi). }
    { constructor; unfold playback_pending;
        cbn [timeouts frames playbackCleanup].
      - intros t m c Hin Hcb. apply Hsave in Hin as [E _].
        unfold is_tick in E. rewrite Hcb in E. discriminate.
      - intros f [].
      - intros [(t & Hin & Hk)|Hf]; [|congruence].
        apply Hsave in Hin as [E _]. congruence. }
    { unfold Live. cbn [isPlaying images intervalMs frames timeouts].
      discriminate. }
    { constructor; cbn [timeouts savelog]; try apply Lg.
      apply Hlog.
      - intros t Hin _. now apply Hsave in Hin.
      - intros t Hin Hk. now apply filter_In. }
    { constructor; cbn; congruence. }
    { reflexivity. }
    { reflexivity. }
Qed.

(** *** A render and its effects *)

Lemma saveEffect_Live (now : Q) (s : State) :
  Structural s -> Live s -> Live (saveEffect now s).
Proof.
  intros St L.
  destruct (saveEffect_ui now s St) as [A B C _ _ _ _ _ _ _ _ _].
  destruct (saveEffect_ticks now s St) as [F T].
  unfold Live in *. rewrite A, B, C, F. intros Hp Hl.
  specialize (L Hp Hl).
  destruct (leb (clampedInterval (intervalMs s)) (Num 32)); [exact L|].
  destruct L as (t & Hin & Hk). exists t. split; [now apply T|exact Hk].
Qed.

Lemma commit_inv (t0 b now : Q) (old s : State) (ch : bool) :
  Structural s ->
  Current (isPlaying old) (length (images old)) (intervalMs old) s ->
  Logged t0 b s -> (b <= now)%Q -> (t0 <= now)%Q ->
  (same_deps old s -> Live s) ->
  Structural (commit now old ch s)
  /\ Current (isPlaying s) (length (images s)) (intervalMs s) (commit now old ch s)
  /\ Live (commit now old ch s)
  /\ Logged t0 now (commit now old ch s)
  /\ same_ui s (commit now old ch s).
Proof.
  intros St Cu Lg Hb H0 HL. unfold commit.
  set (cChanged := negb (same_value (clampedInterval (intervalMs old))
                           (clampedInterval (intervalMs s)))).
  set (b1 := ch || cChanged).
  assert (H1 : exists s1,
             (if b1 then saveEffect now s else s) = s1
             /\ Structural s1
             /\ Current (isPlaying old) (length (images old)) (intervalMs old) s1
             /\ Logged t0 now s1 /\ same_ui s s1
             /\ (same_deps old s -> Live s1)).
  { destruct b1.
    - exists (saveEffect now s). split; [reflexivity|].
      split; [now apply saveEffect_Structural|].
      split; [now apply saveEffect_Current|].
      split; [now apply (saveEffect_Logged t0 b)|].
      split; [now apply saveEffect_ui|].
      intros D. apply saveEffect_Live; auto.
    - exists s. split; [reflexivity|].
      split; [exact St|]. split; [exact Cu|].
      split; [now apply (Logged_later t0 b)|].
      split; [apply same_ui_refl|exact HL]. }
  destruct H1 as (s1 & -> & St1 & Cu1 & Lg1 & U1 & L1).
  pose proof (su_images _ _ U1) as Ei.
  pose proof (su_isPlaying _ _ U1) as Ep.
  pose proof (su_intervalMs _ _ U1) as Ev.
  destruct (negb (Bool.eqb (isPlaying old) (isPlaying s1))
            || negb (length (images old) =? length (images s1))
            || cChanged) eqn:Eb.
  - destruct (playbackEffect_inv t0 now now _ _ _ s1 St1 Cu1 Lg1)
      as (A & B & C & D & E & _).
    rewrite Ei, Ep, Ev in B.
    split; [exact A|]. split; [exact B|]. split; [exact C|].
    split; [exact D|]. eapply same_ui_trans; eauto.
  - apply orb_false_iff in Eb as [Eb E3].
    apply orb_false_iff in Eb as [E1 E2].
    apply negb_false_iff in E1, E2, E3.
    apply Bool.eqb_prop in E1. apply Nat.eqb_eq in E2.
    assert (D : same_deps old s).
    { unfold same_deps. rewrite <- Ep, <- Ei. auto. }
    destruct D as (D1 & D2 & D3).
    split; [exact St1|].
    split; [rewrite D1, D2; now apply (Current_deps _ _ (intervalMs old))|].
    split; [apply L1; unfold same_deps; auto|].
    split; [exact Lg1|exact U1].
Qed.

Lemma commit_noop (now : Q) (old s : State) :
  isPlaying s = isPlaying old -> images s = images old ->
  intervalMs s = intervalMs old -> commit now old false s = s.
Proof.
  intros A B C. unfold commit.
  rewrite C, same_value_refl. cbn [negb orb].
  rewrite A, B, Bool.eqb_reflx, Nat.eqb_refl. reflexivity.
Qed.

(* ================================================================== *)
(** ** The machine: every step keeps the invariant *)
(* ================================================================== *)

Lemma settled_same (t0 now : Q) (s s1 : State) :
  Inv t0 s -> (clock s <= now)%Q -> same_timers s s1 ->
  isPlaying s1 = isPlaying s -> images s1 = images s ->
  intervalMs s1 = intervalMs s ->
  Settled t0 now s1.
Proof.
  intros [St Cu L Lg Hc] Hn Sm A B C.
  split; [now apply (Structural_same s)|].
  split; [rewrite A, B, C; now apply (Current_same _ _ _ s)|].
  split.
  - apply (Live_same s); auto using sm_timeouts, sm_frames.
    unfold same_deps. rewrite A, B, C. auto using same_value_refl.
  - apply (Logged_later t0 (clock s)); auto. now apply (Logged_same _ _ s).
Qed.

Lemma commit_update (t0 now : Q) (s s2 : State) (ch : bool) :
  Inv t0 s -> (clock s <= now)%Q -> same_timers s s2 ->
  Settled t0 now (commit now s ch s2)
  /\ same_ui s2 (commit now s ch s2).
Proof.
  intros [St Cu L Lg Hc] Hn Sm.
  destruct (commit_inv t0 (clock s) now s s2 ch) as (A & B & C & D & E).
  - now apply (Structural_same s).
  - now apply (Current_same _ _ _ s).
  - now apply (Logged_same _ _ s).
  - exact Hn.
  - lra.
  - intros Dp. apply (Live_same s); auto using sm_timeouts, sm_frames.
  - split; [|exact E]. split; [exact A|].
    rewrite (su_isPlaying _ _ E), (su_images _ _ E), (su_intervalMs _ _ E).
    split; [exact B|]. split; [exact C|exact D].
Qed.

(** *** [clearTimers] and [handleStop] *)

Lemma clearTimers_Structural (s : State) :
  Structural s -> Structural (clearTimers s).
Proof.
  intros St. rewrite (clearTimers_eq s St).
  constructor; cbn [timeouts frames nextId timeoutRef rafRef saveTimer].
  - intros t Hin. apply filter_In in Hin as [Hin _]. now apply St.
  - intros f [].
  - apply NoDup_map_filter, St.
  - constructor.
  - intros t Hin Hk. apply filter_In in Hin as [_ K].
    rewrite is_save_tick, Hk in K. discriminate.
  - intros f [].
  - intros t Hin Hk. apply filter_In in Hin as [Hin _]. now apply St.
  - discriminate.
  - discriminate.
  - intros i Hi. split; [now apply (st_saveTimer s St i Hi)|].
    intros t Hin Hid. apply filter_In in Hin as [Hin _].
    now apply (st_saveTimer s St i Hi).
Qed.

Lemma clearTimers_idle (s : State) :
  Structural s -> ~ playback_pending (clearTimers s).
Proof.
  intros St. rewrite (clearTimers_eq s St). unfold playback_pending.
  cbn [timeouts frames]. intros [(t & Hin & Hk)|H]; [|congruence].
  apply filter_In in Hin as [_ K]. rewrite is_save_tick, Hk in K. discriminate.
Qed.

Lemma idle_Current (p : bool) (n : nat) (iv : number) (s : State) :
  ~ playback_pending s -> Current p n iv s.
Proof.
  intros Hn. constructor.
  - intros t m c Hin Hcb. exfalso. apply Hn. left. exists t.
    split; [exact Hin|]. unfold is_tick. now rewrite Hcb.
  - intros f Hin. exfalso. apply Hn. right. intros E. rewrite E in Hin. destruct Hin.
  - intros H. contradiction.
Qed.

Lemma Current_stopped (n : nat) (iv : number) (s : State) :
  Current false n iv s -> ~ playback_pending s.
Proof.
  intros [A B C] [(t & Hin & Hk)|Hf].
  - unfold is_tick in Hk. destruct (to_cb t) as [|m c] eqn:E; [discriminate|].
    destruct (A t m c Hin E) as [K _]. discriminate.
  - destruct (frames s) as [|f l] eqn:E; [congruence|].
    destruct (B f (or_introl eq_refl)) as (_ & K & _). discriminate.
Qed.

Lemma clearTimers_Logged (t0 b : Q) (s : State) :
  Structural s -> Logged t0 b s -> Logged t0 b (clearTimers s).
Proof.
  intros St [A B C D]. rewrite (clearTimers_eq s St).
  constructor; cbn [timeouts savelog]; auto.
  destruct (last_ev None (savelog s)) as [[t q|t q|t q]|].
  - destruct D as (i & c & imgs & Hin & E). exists i, c, imgs.
    split; [|exact E]. apply filter_In. split; [exact Hin|reflexivity].
  - intros t' Hin. apply filter_In in Hin as [Hin _]. now apply D.
  - intros t' Hin. apply filter_In in Hin as [Hin _]. now apply D.
  - intros t' Hin. apply filter_In in Hin as [Hin _]. now apply D.
Qed.

Lemma clearTimers_ui (s : State) : Structural s -> same_ui s (clearTimers s).
Proof. intros St. rewrite (clearTimers_eq s St). constructor; reflexivity. Qed.

Lemma handleStop_settled (t0 now : Q) (s : State) :
  Inv t0 s -> (clock s <= now)%Q ->
  Settled t0 now (handleStop now s)
  /\ same_ui (set_isPlaying false s) (handleStop now s)
  /\ ~ playback_pending (handleStop now s).
Proof.
  intros [St Cu L Lg Hc] Hn. unfold handleStop.
  pose proof (clearTimers_Structural s St) as St1.
  pose proof (clearTimers_idle s St) as Id1.
  pose proof (clearTimers_ui s St) as U1.
  set (s1 := clearTimers s) in *.
  set (s2 := set_isPlaying false s1).
  assert (Sm : same_timers s1 s2) by same_tac.
  assert (Id2 : ~ playback_pending s2) by exact Id1.
  destruct (commit_inv t0 (clock s) now s s2 false) as (A & B & C & D & E).
  - now apply (Structural_same s1).
  - now apply idle_Current.
  - apply (Logged_same _ _ s1); auto. now apply clearTimers_Logged.
  - exact Hn.
  - lra.
  - intros _. unfold Live. intros H. discriminate H.
  - split; [|split].
    + split; [exact A|].
      rewrite (su_isPlaying _ _ E), (su_images _ _ E), (su_intervalMs _ _ E).
      split; [exact B|]. split; [exact C|exact D].
    + apply (same_ui_trans _ s2); [|exact E].
      destruct U1. constructor; cbn; auto.
    + apply (Current_stopped _ _ _ B).
Qed.

(** *** Timers and frames firing *)

Lemma save_fired_eq (now : Q) (s : State) (i : nat) (t : Timeout)
      (c : number) (imgs : list ImageItem) :
  find (fun t => to_id t =? i) (timeouts s) = Some t ->
  Qle_bool (to_due t) now = true ->
  to_cb t = SaveCb c imgs ->
  handle now (TimeoutFired i) s =
  Some (mkState (images s) (intervalMs s) (isPlaying s) (currentIndex s)
          (timeoutRef s) (rafRef s) (dragItem s) (dragOverItem s)
          (saveTimer s) (playbackCleanup s)
          (filter (fun t => negb (to_id t =? i)) (timeouts s))
          (frames s) (nextId s) (Some (savePayload c imgs)) (load s)
          (imports s) (alerts s)
          (savelog s ++ [Wr now (savePayload c imgs)])
          (advances s) (clock s)).
Proof.
  intros Hf Hd Hc. unfold handle. rewrite Hf, Hd, Hc. reflexivity.
Qed.

Lemma save_failed_eq (now : Q) (s : State) (i : nat) (t : Timeout)
      (c : number) (imgs : list ImageItem) :
  find (fun t => to_id t =? i) (timeouts s) = Some t ->
  Qle_bool (to_due t) now = true ->
  to_cb t = SaveCb c imgs ->
  handle now (SaveFailed i) s =
  Some (mkState (images s) (intervalMs s) (isPlaying s) (currentIndex s)
          (timeoutRef s) (rafRef s) (dragItem s) (dragOverItem s)
          (saveTimer s) (playbackCleanup s)
          (filter (fun t => negb (to_id t =? i)) (timeouts s))
          (frames s) (nextId s) (store s) (load s)
          (imports s) (alerts s)
          (savelog s ++ [Rej now (savePayload c imgs)])
          (advances s) (clock s)).
Proof.
  intros Hf Hd Hc. unfold handle. rewrite Hf, Hd, Hc. reflexivity.
Qed.

Lemma tick_fired_eq (now : Q) (s : State) (i : nat) (t : Timeout)
      (len : nat) (c : number) :
  find (fun t => to_id t =? i) (timeouts s) = Some t ->
  Qle_bool (to_due t) now = true ->
  to_cb t = TickCb len c ->
  handle now (TimeoutFired i) s =
  Some (mkState (images s) (intervalMs s) (isPlaying s)
          ((currentIndex s + 1) mod len)
          (Some (nextId s)) (rafRef s) (dragItem s) (dragOverItem s)
          (saveTimer s) (playbackCleanup s)
          (filter (fun t => negb (to_id t =? i)) (timeouts s)
           ++ [mkTimeout (nextId s) (now + to_delay c) (TickCb len c)])
          (frames s) (S (nextId s)) (store s) (load s) (imports s) (alerts s)
          (savelog s) (S (advances s)) (clock s)).
Proof.
  intros Hf Hd Hc. unfold handle. rewrite Hf, Hd, Hc.
  cbv zeta. unfold setTimeout. cbv iota beta.
  rewrite commit_noop by reflexivity. reflexivity.
Qed.

Lemma frame_fired_eq (now : Q) (s : State) (i : nat) (f : Frame) :
  find (fun f => fr_id f =? i) (frames s) = Some f ->
  fr_isPlaying f = true ->
  let due := geb (fsub now (fr_start f)) (fr_clamped f) in
  handle now (FrameFired i) s =
  Some (mkState (images s) (intervalMs s) (isPlaying s)
          (if due then (currentIndex s + 1) mod fr_len f else currentIndex s)
          (timeoutRef s) (Some (nextId s)) (dragItem s) (dragOverItem s)
          (saveTimer s) (playbackCleanup s) (timeouts s)
          (filter (fun f => negb (fr_id f =? i)) (frames s)
           ++ [mkFrame (nextId s) (fr_isPlaying f) (fr_len f) (fr_clamped f)
                 (if due then now else fr_start f)])
          (S (nextId s)) (store s) (load s) (imports s) (alerts s)
          (savelog s) (if due then S (advances s) else advances s) (clock s)).
Proof.
  intros Hf Hp. cbv zeta. unfold handle. rewrite Hf, Hp.
  cbn [negb]. cbv zeta. unfold requestAnimationFrame. cbv iota beta.
  destruct (geb (fsub now (fr_start f)) (fr_clamped f));
    rewrite commit_noop by reflexivity; reflexivity.
Qed.

Lemma find_timeout (s : State) (i : nat) (t : Timeout) :
  find (fun t => to_id t =? i) (timeouts s) = Some t ->
  In t (timeouts s) /\ to_id t = i.
Proof.
  intros H. apply find_some in H as [Hin E]. apply Nat.eqb_eq in E. auto.
Qed.

Lemma other_kind_kept (s : State) (t t' : Timeout) :
  Structural s -> In t (timeouts s) -> In t' (timeouts s) ->
  is_tick t <> is_tick t' -> (to_id t' =? to_id t) = false.
Proof.
  intros St Hin Hin' Hk. apply Nat.eqb_neq. intros E. apply Hk.
  now rewrite (NoDup_map_eq to_id (timeouts s) t' t (st_timeout_nodup s St) Hin' Hin E).
Qed.

(** The save timer has run: its call of [saveSession] is in the history,
    resolved or rejected, and the store is what the call left. *)
Lemma save_ran_settled (t0 now : Q) (s : State) (i : nat) (t : Timeout)
      (c : number) (imgs : list ImageItem) (st : option SessionData)
      (ev : SaveEv) :
  Inv t0 s -> (clock s <= now)%Q ->
  find (fun t => to_id t =? i) (timeouts s) = Some t ->
  Qle_bool (to_due t) now = true ->
  to_cb t = SaveCb c imgs ->
  ev = Wr now (savePayload c imgs) \/ ev = Rej now (savePayload c imgs) ->
  Settled t0 now
    (mkState (images s) (intervalMs s) (isPlaying s) (currentIndex s)
       (timeoutRef s) (rafRef s) (dragItem s) (dragOverItem s)
       (saveTimer s) (playbackCleanup s)
       (filter (fun t => negb (to_id t =? i)) (timeouts s))
       (frames s) (nextId s) st (load s) (imports s) (alerts s)
       (savelog s ++ [ev]) (advances s) (clock s)).
Proof.
  intros [St Cu L Lg Hc] Hn Hf Hd Hcb Hev.
  destruct (find_timeout s i t Hf) as [Hin Hid].
  assert (Hsv : is_save t = true) by (unfold is_save; now rewrite Hcb).
  assert (Htk : is_tick t = false) by (unfold is_tick; now rewrite Hcb).
  assert (Hkeep : forall t', In t' (timeouts s) -> is_tick t' = true ->
            In t' (filter (fun t => negb (to_id t =? i)) (timeouts s))).
  { intros t' Hin' Hk. apply filter_In. split; [exact Hin'|].
    rewrite <- Hid, (other_kind_kept s t t' St Hin Hin'); [reflexivity|congruence]. }
  split; [|split; [|split]].
  - constructor; cbn [timeouts frames nextId timeoutRef rafRef saveTimer];
      try apply St.
    + intros t' Hin'. apply filter_In in Hin' as [Hin' _]. now apply St.
    + apply NoDup_map_filter, St.
    + intros t' Hin' Hk. apply filter_In in Hin' as [Hin' _]. now apply St.
    + intros t' Hin' Hk. apply filter_In in Hin' as [Hin' _]. now apply St.
    + intros k Hk. destruct (st_timeoutRef s St k Hk) as (t' & Hin' & E & Hk').
      exists t'. auto.
    + intros k Hk. split; [now apply (st_saveTimer s St k Hk)|].
      intros t' Hin' E. apply filter_In in Hin' as [Hin' _].
      now apply (st_saveTimer s St k Hk).
  - destruct Cu as [A B C].
    constructor; unfold playback_pending;
      cbn [timeouts frames playbackCleanup isPlaying images intervalMs].
    + intros t' n c' Hin' E. apply filter_In in Hin' as [Hin' _]. eauto.
    + exact B.
    + intros [(t' & Hin' & Hk)|Hfr]; apply C; [left|now right].
      apply filter_In in Hin' as [Hin' _]. eauto.
  - unfold Live in *. cbn [timeouts frames isPlaying images intervalMs].
    intros Hp Hl. specialize (L Hp Hl).
    destruct (leb (clampedInterval (intervalMs s)) (Num 32)); [exact L|].
    destruct L as (t' & Hin' & Hk). exists t'. auto.
  - destruct Lg as [A B C D].
    assert (Hlast : exists t', last_ev None (savelog s)
                               = Some (Req t' (savePayload c imgs))
                               /\ (t' + SAVE_DEBOUNCE_MS <= now)%Q).
    { destruct (last_ev None (savelog s)) as [[t' q|t' q|t' q]|].
      - destruct D as (i' & c' & imgs' & Hin' & E).
        assert (Eid : to_id (mkTimeout i' (t' + SAVE_DEBOUNCE_MS) (SaveCb c' imgs'))
                      = to_id t).
        { pose proof (st_saves_ref s St _ Hin' eq_refl) as R1.
          pose proof (st_saves_ref s St t Hin Hsv) as R2.
          rewrite R1 in R2. now inversion R2. }
        pose proof (NoDup_map_eq to_id (timeouts s) _ _
                      (st_timeout_nodup s St) Hin' Hin Eid) as Et.
        exists t'. rewrite <- Et in Hcb, Hd. cbn in Hcb, Hd.
        inversion Hcb; subst c' imgs'. subst q.
        split; [reflexivity|]. now apply Qle_bool_iff.
      - rewrite (D t Hin) in Hsv. discriminate.
      - rewrite (D t Hin) in Hsv. discriminate.
      - rewrite (D t Hin) in Hsv. discriminate. }
    destruct Hlast as (t' & Hlast & Hdue).
    constructor; cbn [timeouts savelog].
    + apply log_wf_snoc. split; [exact A|]. rewrite Hlast.
      destruct Hev as [->| ->]; cbn; auto.
    + intros e He. apply in_app_or in He as [He|[<-|[]]]; [now auto|].
      destruct Hev as [->| ->]; cbn; lra.
    + intros e He. apply in_app_or in He as [He|[<-|[]]].
      * specialize (C e He). lra.
      * destruct Hev as [->| ->]; cbn; lra.
    + rewrite last_ev_snoc.
      assert (K0 : forall t'',
                In t'' (filter (fun t => negb (to_id t =? i)) (timeouts s)) ->
                is_save t'' = false);
        [|now destruct Hev as [->| ->]].
      intros t'' Hin''.
      apply filter_In in Hin'' as [Hin'' K].
      destruct (is_save t'') eqn:Es; [|reflexivity].
      pose proof (st_saves_ref s St _ Hin'' Es) as R1.
      pose proof (st_saves_ref s St t Hin Hsv) as R2.
      rewrite R1 in R2. inversion R2 as [R3].
      rewrite R3, Hid, Nat.eqb_refl in K. discriminate.
Qed.

Lemma save_fired_settled (t0 now : Q) (s s1 : State) (i : nat) (t : Timeout)
      (c : number) (imgs : list ImageItem) :
  Inv t0 s -> (clock s <= now)%Q ->
  find (fun t => to_id t =? i) (timeouts s) = Some t ->
  Qle_bool (to_due t) now = true ->
  to_cb t = SaveCb c imgs ->
  handle now (TimeoutFired i) s = Some s1 ->
  Settled t0 now s1.
Proof.
  intros I Hn Hf Hd Hcb H.
  rewrite (save_fired_eq now s i t c imgs Hf Hd Hcb) in H.
  inversion H; subst s1; clear H.
  apply (save_ran_settled t0 now s i t c imgs); auto.
Qed.

Lemma save_failed_settled (t0 now : Q) (s s1 : State) (i : nat) :
  Inv t0 s -> (clock s <= now)%Q ->
  handle now (SaveFailed i) s = Some s1 ->
  Settled t0 now s1.
Proof.
  intros I Hn H.
  destruct (find (fun t => to_id t =? i) (timeouts s)) as [t|] eqn:Hf;
    [|unfold handle in H; rewrite Hf in H; discriminate].
  destruct (Qle_bool (to_due t) now) eqn:Hd;
    [|unfold handle in H; rewrite Hf, Hd in H; discriminate].
  destruct (to_cb t) as [c imgs|len c] eqn:Hcb;
    [|unfold handle in H; rewrite Hf, Hd, Hcb in H; discriminate].
  rewrite (save_failed_eq now s i t c imgs Hf Hd Hcb) in H.
  inversion H; subst s1; clear H.
  apply (save_ran_settled t0 now s i t c imgs); auto.
Qed.

Lemma tick_fired_settled (t0 now : Q) (s s1 : State) (i : nat) (t : Timeout)
      (len : nat) (c : number) :
  Inv t0 s -> (clock s <= now)%Q ->
  find (fun t => to_id t =? i) (timeouts s) = Some t ->
  Qle_bool (to_due t) now = true ->
  to_cb t = TickCb len c ->
  handle now (TimeoutFired i) s = Some s1 ->
  Settled t0 now s1.
Proof.
  intros [St Cu L Lg Hc] Hn Hf Hd Hcb H.
  rewrite (tick_fired_eq now s i t len c Hf Hd Hcb) in H.
  inversion H; subst s1; clear H.
  destruct (find_timeout s i t Hf) as [Hin Hid].
  assert (Htk : is_tick t = true) by (unfold is_tick; now rewrite Hcb).
  assert (Href : timeoutRef s = Some i).
  { rewrite <- Hid. now apply St. }
  assert (Hold : forall t', In t' (filter (fun t => negb (to_id t =? i)) (timeouts s)) ->
            In t' (timeouts s) /\ is_tick t' = false /\ to_id t' < nextId s).
  { intros t' Hin'. apply filter_In in Hin' as [Hin' K].
    split; [exact Hin'|]. split; [|now apply St].
    destruct (is_tick t') eqn:Ek; [|reflexivity].
    pose proof (st_ticks_ref s St t' Hin' Ek) as R. rewrite Href in R.
    inversion R as [R1]. rewrite <- R1, Nat.eqb_refl in K. discriminate. }
  assert (Hkeep : forall t', In t' (timeouts s) -> is_save t' = true ->
            In t' (filter (fun t => negb (to_id t =? i)) (timeouts s))).
  { intros t' Hin' Hk. apply filter_In. split; [exact Hin'|].
    rewrite <- Hid, (other_kind_kept s t t' St Hin Hin'); [reflexivity|].
    rewrite is_save_tick in Hk. destruct (is_tick t'); [discriminate|congruence]. }
  destruct (cur_tick _ _ _ _ Cu t len c Hin Hcb) as (P1 & P2 & P3 & P4).
  split; [|split; [|split]].
  - constructor; cbn [timeouts frames nextId timeoutRef rafRef saveTimer].
    + intros t' Hin'. apply in_app_or in Hin' as [Hin'|[<-|[]]]; [|cbn; lia].
      apply Hold in Hin'. lia.
    + intros f Hin'. pose proof (st_frame_ids s St f Hin'). lia.
    + rewrite map_app. apply NoDup_snoc; [apply NoDup_map_filter, St|].
      cbn. intros Hin'. apply in_map_iff in Hin' as (t' & E & Hin').
      apply Hold in Hin'. lia.
    + apply St.
    + intros t' Hin' Hk. apply in_app_or in Hin' as [Hin'|[<-|[]]]; [|reflexivity].
      apply Hold in Hin' as (_ & K & _). congruence.
    + apply St.
    + intros t' Hin' Hk. apply in_app_or in Hin' as [Hin'|[<-|[]]]; [|discriminate].
      apply Hold in Hin' as (Hin' & _). now apply St.
    + intros k Hk. inversion Hk; subst k. eexists.
      split; [apply in_or_app; right; left; reflexivity|].
      split; reflexivity.
    + apply St.
    + intros k Hk. split; [pose proof (proj1 (st_saveTimer s St k Hk)); lia|].
      intros t' Hin' E. apply in_app_or in Hin' as [Hin'|[<-|[]]].
      * apply Hold in Hin' as (Hin' & _). now apply (st_saveTimer s St k Hk).
      * cbn in E. pose proof (proj1 (st_saveTimer s St k Hk)). lia.
  - constructor; unfold playback_pending;
      cbn [timeouts frames playbackCleanup isPlaying images intervalMs].
    + intros t' n c' Hin' E. apply in_app_or in Hin' as [Hin'|[<-|[]]].
      * apply Hold in Hin' as (Hin' & _). now apply (cur_tick _ _ _ _ Cu t' n c').
      * cbn in E. inversion E; subst. auto.
    + apply Cu.
    + intros _. apply (cur_cleanup _ _ _ _ Cu). left. eauto.
  - unfold Live. cbn [timeouts frames isPlaying images intervalMs].
    intros _ _. rewrite P4. eexists.
    split; [apply in_or_app; right; left; reflexivity|reflexivity].
  - destruct Lg as [A B C D].
    constructor; cbn [timeouts savelog]; auto.
    + intros e He. specialize (C e He). lra.
    + destruct (last_ev None (savelog s)) as [[t' q|t' q|t' q]|].
      * destruct D as (i' & c' & imgs' & Hin' & E). exists i', c', imgs'.
        split; [|exact E]. apply in_or_app. left. now apply Hkeep.
      * intros t'' Hin''. apply in_app_or in Hin'' as [Hin''|[<-|[]]]; [|reflexivity].
        apply Hold in Hin'' as (Hin'' & _). now apply D.
      * intros t'' Hin''. apply in_app_or in Hin'' as [Hin''|[<-|[]]]; [|reflexivity].
        apply Hold in Hin'' as (Hin'' & _). now apply D.
      * intros t'' Hin''. apply in_app_or in Hin'' as [Hin''|[<-|[]]]; [|reflexivity].
        apply Hold in Hin'' as (Hin'' & _). now apply D.
Qed.

Lemma find_frame (s : State) (i : nat) (f : Frame) :
  find (fun f => fr_id f =? i) (frames s) = Some f ->
  In f (frames s) /\ fr_id f = i.
Proof.
  intros H. apply find_some in H as [Hin E]. apply Nat.eqb_eq in E. auto.
Qed.

Lemma frames_all_fired (s : State) (i : nat) (f : Frame) :
  Structural s -> In f (frames s) -> fr_id f = i ->
  filter (fun f => negb (fr_id f =? i)) (frames s) = [].
Proof.
  intros St Hin Hid. apply filter_none. intros f' Hin'.
  pose proof (st_frames_ref s St f Hin) as R1.
  pose proof (st_frames_ref s St f' Hin') as R2.
  assert (E : fr_id f' = i) by congruence.
  now rewrite E, Nat.eqb_refl.
Qed.

Lemma frame_fired_settled (t0 now : Q) (s s1 : State) (i : nat) :
  Inv t0 s -> (clock s <= now)%Q ->
  handle now (FrameFired i) s = Some s1 ->
  Settled t0 now s1.
Proof.
  intros [St Cu L Lg Hc] Hn H.
  destruct (find (fun f => fr_id f =? i) (frames s)) as [f|] eqn:Hf;
    [|unfold handle in H; rewrite Hf in H; discriminate].
  destruct (find_frame s i f Hf) as [Hin Hid].
  destruct (cur_frame _ _ _ _ Cu f Hin) as (P0 & P1 & P2 & P3 & P4 & P5).
  rewrite (frame_fired_eq now s i f Hf P0) in H.
  inversion H; subst s1; clear H.
  rewrite (frames_all_fired s i f St Hin Hid). cbn [app].
  split; [|split; [|split]].
  - constructor; cbn [timeouts frames nextId timeoutRef rafRef saveTimer].
    + intros t Hin'. pose proof (st_timeout_ids s St t Hin'). lia.
    + intros f' [<-|[]]. cbn. lia.
    + apply St.
    + constructor; [intros []|constructor].
    + apply St.
    + intros f' [<-|[]]. reflexivity.
    + apply St.
    + apply St.
    + intros k Hk. inversion Hk; subst k. eexists.
      split; [left; reflexivity|reflexivity].
    + intros k Hk. split; [pose proof (proj1 (st_saveTimer s St k Hk)); lia|].
      now apply (st_saveTimer s St k Hk).
  - constructor; unfold playback_pending;
      cbn [timeouts frames playbackCleanup isPlaying images intervalMs].
    + apply Cu.
    + intros f' [<-|[]]. cbn. auto 10.
    + intros _. apply (cur_cleanup _ _ _ _ Cu). right.
      intros E. rewrite E in Hin. destruct Hin.
  - unfold Live. cbn [timeouts frames isPlaying images intervalMs].
    intros _ _. rewrite P5. discriminate.
  - destruct Lg as [A B C D].
    constructor; cbn [timeouts savelog]; auto.
    intros e He. specialize (C e He). lra.
Qed.

(** *** Every event *)

Lemma same_timers_refl (s : State) : same_timers s s.
Proof. constructor; reflexivity. Qed.

Lemma settled_here (t0 now : Q) (s : State) :
  Inv t0 s -> (clock s <= now)%Q -> Settled t0 now s.
Proof.
  intros I Hn. apply (settled_same t0 now s s); auto using same_timers_refl.
Qed.

Lemma handleStart_settled (t0 now : Q) (s : State) :
  Inv t0 s -> (clock s <= now)%Q -> Settled t0 now (handleStart now s).
Proof.
  intros I Hn. unfold handleStart.
  destruct (length (images s) =? 0); [now apply settled_here|].
  apply commit_update; auto. same_tac.
Qed.

Lemma handle_settled (t0 now : Q) (e : event) (s s1 : State) :
  Inv t0 s -> (clock s <= now)%Q ->
  handle now e s = Some s1 -> Settled t0 now s1.
Proof.
  intros I Hn H.
  destruct e as [| |objectUrl|files|k|rid| | | |value|index|index| |i|i|i].
  - (* LoadGot *)
    unfold handle in H. destruct (load s) as [[session|]| |]; try discriminate;
      inversion H; subst; apply (settled_same t0 now s); auto; same_tac.
  - (* LoadFailed *)
    unfold handle in H. destruct (load s); try discriminate.
    inversion H; subst. apply (settled_same t0 now s); auto; same_tac.
  - (* LoadDerived *)
    unfold handle in H. destruct (load s) as [|session|]; try discriminate.
    destruct (restoreImages objectUrl session) as [restored|];
      inversion H; subst.
    + apply commit_update; auto. same_tac.
    + apply (settled_same t0 now s); auto; same_tac.
  - (* FilesPicked *)
    unfold handle in H. inversion H; subst.
    apply (settled_same t0 now s); auto; same_tac.
  - (* ImportSettled *)
    unfold handle in H. destruct (nth_error (imports s) k) as [job|]; try discriminate.
    destruct (handleFiles_outcome (job_selected job) (job_attempted job)) as [o|];
      inversion H; subst.
    + apply commit_update; auto. destruct (io_alert o); same_tac.
    + apply (settled_same t0 now s); auto; same_tac.
  - (* Remove *)
    unfold handle in H. inversion H; subst. apply commit_update; auto. same_tac.
  - (* Start *)
    unfold handle in H. inversion H; subst. now apply handleStart_settled.
  - (* Stop *)
    unfold handle in H. inversion H; subst. now apply handleStop_settled.
  - (* SpaceKey *)
    unfold handle in H. destruct (length (images s) =? 0).
    + inversion H; subst. now apply settled_here.
    + destruct (isPlaying s); inversion H; subst.
      * now apply handleStop_settled.
      * now apply handleStart_settled.
  - (* IntervalChange *)
    unfold handle in H. inversion H; subst. apply commit_update; auto. same_tac.
  - (* DragStart *)
    unfold handle in H. destruct (index <? length (images s)); inversion H; subst.
    apply (settled_same t0 now s); auto; same_tac.
  - (* DragEnter *)
    unfold handle in H. destruct (index <? length (images s)); inversion H; subst.
    apply (settled_same t0 now s); auto; same_tac.
  - (* DragEnd *)
    unfold handle in H.
    destruct (defined_all _) as [imgs|]; inversion H; subst.
    apply commit_update; auto. same_tac.
  - (* TimeoutFired *)
    destruct (find (fun t => to_id t =? i) (timeouts s)) as [t|] eqn:Hf;
      [|unfold handle in H; rewrite Hf in H; discriminate].
    destruct (Qle_bool (to_due t) now) eqn:Hd;
      [|unfold handle in H; rewrite Hf, Hd in H; discriminate].
    destruct (to_cb t) as [c imgs|len c] eqn:Hcb.
    + eapply save_fired_settled; eauto.
    + eapply tick_fired_settled; eauto.
  - (* FrameFired *)
    eapply frame_fired_settled; eauto.
  - (* SaveFailed *)
    eapply save_failed_settled; eauto.
Qed.

Lemma set_clock_Inv (t0 now : Q) (s : State) :
  Settled t0 now s -> (t0 <= now)%Q -> Inv t0 (set_clock now s).
Proof.
  intros (St & Cu & L & Lg) H0.
  assert (Sm : same_timers s (set_clock now s)) by same_tac.
  constructor.
  - now apply (Structural_same s).
  - now apply (Current_same _ _ _ s).
  - exact L.
  - now apply (Logged_same _ _ s).
  - exact H0.
Qed.

Lemma step_clock (now : Q) (e : event) (s s' : State) :
  step now e s = Some s' ->
  (clock s <= now)%Q /\ exists s1, handle now e s = Some s1 /\ s' = set_clock now s1.
Proof.
  unfold step. destruct (Qle_bool (clock s) now) eqn:E; [|discriminate].
  apply Qle_bool_iff in E.
  destruct (handle now e s) as [s1|]; [|discriminate].
  intros H. inversion H. eauto.
Qed.

Lemma step_Inv (t0 now : Q) (e : event) (s s' : State) :
  Inv t0 s -> step now e s = Some s' -> Inv t0 s'.
Proof.
  intros I H. apply step_clock in H as (Hn & s1 & H & ->).
  apply set_clock_Inv.
  - now apply (handle_settled t0 now e s).
  - pose proof (inv_clock _ _ I). lra.
Qed.

Lemma run_Inv (t0 : Q) (tr : list (Q * event)) (s s' : State) :
  Inv t0 s -> run tr s = Some s' -> Inv t0 s'.
Proof.
  revert s. induction tr as [|[t e] tr IH]; intros s I H; cbn in H.
  - now inversion H; subst.
  - destruct (step t e s) as [s1|] eqn:E; [|discriminate].
    apply (IH s1); auto. now apply (step_Inv t0 t e s).
Qed.

Lemma blank_Structural (t0 : Q) (stored : option SessionData) :
  Structural (mkState [] (Num 100) false 0 None None None None None false
                [] [] 0 stored (LoadPending stored) [] [] [] 0 t0).
Proof.
  constructor; cbn; try (now intros ? []); try (intros; discriminate);
    apply NoDup_nil.
Qed.

Lemma mount_Inv (t0 : Q) (stored : option SessionData) : Inv t0 (mount t0 stored).
Proof.
  unfold mount.
  set (s0 := mkState [] (Num 100) false 0 None None None None None false
               [] [] 0 stored (LoadPending stored) [] [] [] 0 t0).
  pose proof (blank_Structural t0 stored) as St0. fold s0 in St0.
  assert (Id0 : ~ playback_pending s0).
  { intros [(t & Hin & _)|H]; [destruct Hin|now apply H]. }
  assert (Lg0 : Logged t0 t0 s0).
  { constructor; cbn; auto; intros ? []. }
  pose proof (saveEffect_Structural t0 s0 St0) as St1.
  pose proof (saveEffect_Current t0 false 0 (Num 100) s0 St0
                (idle_Current _ _ _ s0 Id0)) as Cu1.
  pose proof (saveEffect_Logged t0 t0 t0 s0 St0 (Qle_refl _) (Qle_refl _) Lg0) as Lg1.
  pose proof (saveEffect_ui t0 s0 St0) as U1.
  destruct (playbackEffect_inv t0 t0 t0 _ _ _ _ St1 Cu1 Lg1)
    as (A & B & C & D & E & _).
  pose proof (same_ui_trans _ _ _ U1 E) as U.
  constructor.
  - exact A.
  - rewrite (su_isPlaying _ _ E), (su_images _ _ E), (su_intervalMs _ _ E).
    exact B.
  - exact C.
  - rewrite (su_clock _ _ U). exact D.
  - rewrite (su_clock _ _ U). cbn. apply Qle_refl.
Qed.

(** The invariant holds in every reachable state. *)
Lemma reachable_Inv (t0 : Q) (s : State) : reachable t0 s -> Inv t0 s.
Proof.
  intros (stored & tr & H). apply (run_Inv t0 tr (mount t0 stored)); auto.
  apply mount_Inv.
Qed.

(* ================================================================== *)
(** ** The debounced save *)
(* ================================================================== *)

Lemma log_wf_app (prev : option SaveEv) (l1 l2 : list SaveEv) :
  log_wf prev (l1 ++ l2) <-> log_wf prev l1 /\ log_wf (last_ev prev l1) l2.
Proof.
  revert prev. induction l1 as [|x l1 IH]; intros prev; cbn.
  - tauto.
  - rewrite IH. tauto.
Qed.

Lemma last_ev_app (prev : option SaveEv) (l1 l2 : list SaveEv) :
  last_ev prev (l1 ++ l2) = last_ev (last_ev prev l1) l2.
Proof. revert prev. induction l1 as [|x l1 IH]; intros prev; cbn; auto. Qed.

Lemma write_follows_request (prev : option SaveEv) (l : list SaveEv)
      (e : SaveEv) :
  log_wf prev l -> In e l -> is_write e = true ->
  exists t', (prev = Some (Req t' (ev_payload e)) \/ In (Req t' (ev_payload e)) l)
             /\ (t' + SAVE_DEBOUNCE_MS <= ev_time e)%Q.
Proof.
  revert prev. induction l as [|x l IH]; intros prev Hwf Hin Hw; [destruct Hin|].
  destruct Hwf as [Hl Hwf]. destruct Hin as [->|Hin].
  - destruct e as [t p|t p|t p]; [discriminate| |];
      cbn in Hl; destruct prev as [[t' p'|t' p'|t' p']|]; try contradiction;
      destruct Hl as [-> Hl]; exists t'; auto.
  - destruct (IH _ Hwf Hin Hw) as (t' & [E|E] & Ht).
    + inversion E; subst. exists t'. split; [right; left; reflexivity|exact Ht].
    + exists t'. split; [right; right; exact E|exact Ht].
Qed.

(** The shape of a burst in a well-formed history: either it holds no
    write and ends with its last request, or its one write is its last
    entry, writes the last request's snapshot and comes at least
    [SAVE_DEBOUNCE_MS] after it. *)
Lemma burst_shape (seg : list SaveEv) :
  forall t p,
    log_wf (Some (Req t p)) seg -> burst t seg ->
    let tN := fst (last_req t p seg) in
    let pN := snd (last_req t p seg) in
    (writes_of seg = [] /\ last_ev (Some (Req t p)) seg = Some (Req tN pN))
    \/ (exists reqs w,
          seg = reqs ++ [w] /\ is_write w = true /\ ev_payload w = pN
          /\ writes_of reqs = []
          /\ (tN + SAVE_DEBOUNCE_MS <= ev_time w)%Q).
Proof.
  induction seg as [|[t' p'|tw pw|tw pw] r IH]; intros t p Hwf Hb; cbv zeta.
  - left. split; reflexivity.
  - destruct Hwf as [_ Hwf]. destruct Hb as [_ Hb]. cbn [last_req last_ev].
    destruct (IH t' p' Hwf Hb) as [[A B]|(reqs & w & A & Hw & Hp & B & C)].
    + left. split; [exact A|exact B].
    + right. exists (Req t' p' :: reqs), w. rewrite A at 1.
      split; [reflexivity|]. auto.
  - destruct Hwf as [[-> Hl] Hwf]. cbn [burst] in Hb. cbn [last_req].
    destruct r as [|[t'' p''|t'' p''|t'' p''] r].
    + right. exists [], (Wr tw pw). cbn. auto.
    + exfalso. destruct Hwf as [Hl' _]. destruct Hb as [Hb _]. cbn in Hl'.
      unfold SAVE_DEBOUNCE_MS in *. lra.
    + exfalso. destruct Hwf as [Hl' _]. exact Hl'.
    + exfalso. destruct Hwf as [Hl' _]. exact Hl'.
  - destruct Hwf as [[-> Hl] Hwf]. cbn [burst] in Hb. cbn [last_req].
    destruct r as [|[t'' p''|t'' p''|t'' p''] r].
    + right. exists [], (Rej tw pw). cbn. auto.
    + exfalso. destruct Hwf as [Hl' _]. destruct Hb as [Hb _]. cbn in Hl'.
      unfold SAVE_DEBOUNCE_MS in *. lra.
    + exfalso. destruct Hwf as [Hl' _]. exact Hl'.
    + exfalso. destruct Hwf as [Hl' _]. exact Hl'.
Qed.

Lemma save_fire_step (t0 now : Q) (s : State) (i : nat) (due : Q)
      (c : number) (imgs : list ImageItem) :
  Inv t0 s ->
  In (mkTimeout i due (SaveCb c imgs)) (timeouts s) ->
  ((now < due)%Q -> step now (TimeoutFired i) s = None)
  /\ ((clock s <= now)%Q -> (due <= now)%Q ->
      exists s', step now (TimeoutFired i) s = Some s'
                 /\ savelog s' = savelog s ++ [Wr now (savePayload c imgs)]
                 /\ store s' = Some (savePayload c imgs)
                 /\ ~ save_pending s').
Proof.
  intros I Hin.
  pose proof (find_id to_id (timeouts s) _
                (st_timeout_nodup s (inv_structural _ _ I)) Hin) as Hf.
  cbn [to_id] in Hf.
  split.
  - intros Hlt. unfold step.
    destruct (Qle_bool (clock s) now); [|reflexivity].
    unfold handle. rewrite Hf. cbn [to_due].
    destruct (Qle_bool due now) eqn:E; [|reflexivity].
    apply Qle_bool_iff in E. lra.
  - intros Hn Hd.
    assert (Hd' : Qle_bool (to_due (mkTimeout i due (SaveCb c imgs))) now = true)
      by now apply Qle_bool_iff.
    pose proof (save_fired_eq now s i _ c imgs Hf Hd' eq_refl) as Hh.
    eexists. split.
    + unfold step. apply Qle_bool_iff in Hn. rewrite Hn, Hh. reflexivity.
    + split; [reflexivity|]. split; [reflexivity|].
      assert (I' : Inv t0 (set_clock now
                (mkState (images s) (intervalMs s) (isPlaying s) (currentIndex s)
                   (timeoutRef s) (rafRef s) (dragItem s) (dragOverItem s)
                   (saveTimer s) (playbackCleanup s)
                   (filter (fun t => negb (to_id t =? i)) (timeouts s))
                   (frames s) (nextId s) (Some (savePayload c imgs)) (load s)
                   (imports s) (alerts s)
                   (savelog s ++ [Wr now (savePayload c imgs)])
                   (advances s) (clock s)))).
      { apply (step_Inv t0 now (TimeoutFired i) s); auto.
        unfold step. apply Qle_bool_iff in Hn. rewrite Hn, Hh. reflexivity. }
      pose proof (lg_pending _ _ _ (inv_logged _ _ I')) as P.
      cbn [savelog set_clock] in P. rewrite last_ev_snoc in P.
      intros (t & Ht & Hs). rewrite (P t Ht) in Hs. discriminate.
Qed.

(** The history ends with a request: one save timer is armed, the one of
    that request. *)
Lemma pending_timer (t0 : Q) (s : State) (t : Q) (p : SessionData) :
  Inv t0 s -> last_ev None (savelog s) = Some (Req t p) ->
  exists i c imgs,
    In (mkTimeout i (t + SAVE_DEBOUNCE_MS) (SaveCb c imgs)) (timeouts s)
    /\ p = savePayload c imgs
    /\ (forall x, In x (timeouts s) -> is_save x = true ->
          x = mkTimeout i (t + SAVE_DEBOUNCE_MS) (SaveCb c imgs)).
Proof.
  intros I L. pose proof (inv_structural _ _ I) as St.
  pose proof (lg_pending _ _ _ (inv_logged _ _ I)) as D. rewrite L in D.
  destruct D as (i & c & imgs & Hin & Ep). exists i, c, imgs.
  split; [exact Hin|]. split; [exact Ep|].
  intros x Hx Hs.
  apply (NoDup_map_eq to_id (timeouts s)); auto using st_timeout_nodup.
  pose proof (st_saves_ref s St _ Hx Hs) as R1.
  pose proof (st_saves_ref s St _ Hin eq_refl) as R2.
  rewrite R1 in R2. now inversion R2.
Qed.

(** *** What a step adds to the history *)

Lemma commit_log (now : Q) (old s2 : State) (ch : bool)
      (p : bool) (n : nat) (iv : number) :
  Structural s2 -> Current p n iv s2 ->
  images (commit now old ch s2) = images s2
  /\ intervalMs (commit now old ch s2) = intervalMs s2
  /\ (savelog (commit now old ch s2) = savelog s2
      \/ savelog (commit now old ch s2)
         = savelog s2
           ++ [Req now (savePayload (clampedInterval (intervalMs s2)) (images s2))]).
Proof.
  intros St Cu. unfold commit.
  set (b1 := ch || _).
  assert (H1 : exists s1,
             (if b1 then saveEffect now s2 else s2) = s1
             /\ Structural s1 /\ Current p n iv s1
             /\ images s1 = images s2 /\ intervalMs s1 = intervalMs s2
             /\ (savelog s1 = savelog s2
                 \/ savelog s1
                    = savelog s2
                      ++ [Req now (savePayload (clampedInterval (intervalMs s2))
                                     (images s2))])).
  { destruct b1.
    - exists (saveEffect now s2). split; [reflexivity|].
      split; [now apply saveEffect_Structural|].
      split; [now apply saveEffect_Current|].
      rewrite (saveEffect_eq now s2 St). cbn [savelog images intervalMs]. auto.
    - exists s2. auto 10. }
  destruct H1 as (s1 & -> & St1 & Cu1 & Ei & Ev & L1).
  match goal with |- context [if ?b then _ else _] => destruct b end;
    [|auto].
  rewrite (playbackEffect_eq now s1 St1 (cur_cleanup _ _ _ _ Cu1)).
  cbn [savelog images intervalMs]. auto.
Qed.

Lemma commit_update_log (t0 now : Q) (s s2 : State) (ch : bool) :
  Inv t0 s -> same_timers s s2 ->
  savelog (commit now s ch s2) = savelog s
  \/ savelog (commit now s ch s2)
     = savelog s
       ++ [Req now (savePayload (clampedInterval (intervalMs (commit now s ch s2)))
                      (images (commit now s ch s2)))].
Proof.
  intros I Sm.
  destruct (commit_log now s s2 ch (isPlaying s) (length (images s)) (intervalMs s))
    as (Ei & Ev & L).
  - apply (Structural_same s); auto. apply I.
  - apply (Current_same _ _ _ s); auto. apply I.
  - rewrite Ei, Ev, <- (sm_savelog _ _ Sm). exact L.
Qed.

Lemma handleStop_log (t0 now : Q) (s : State) :
  Inv t0 s ->
  savelog (handleStop now s) = savelog s
  \/ savelog (handleStop now s)
     = savelog s
       ++ [Req now (savePayload (clampedInterval (intervalMs (handleStop now s)))
                      (images (handleStop now s)))].
Proof.
  intros I. pose proof (inv_structural _ _ I) as St. unfold handleStop.
  destruct (commit_log now s (set_isPlaying false (clearTimers s)) false
              false 0 (intervalMs s)) as (Ei & Ev & L).
  - apply (Structural_same (clearTimers s)); [same_tac|].
    now apply clearTimers_Structural.
  - apply idle_Current. exact (clearTimers_idle s St).
  - rewrite Ei, Ev.
    assert (El : savelog (set_isPlaying false (clearTimers s)) = savelog s).
    { cbn [savelog set_isPlaying]. now rewrite (clearTimers_eq s St). }
    rewrite <- El. exact L.
Qed.

Lemma handleStart_log (t0 now : Q) (s : State) :
  Inv t0 s ->
  savelog (handleStart now s) = savelog s
  \/ savelog (handleStart now s)
     = savelog s
       ++ [Req now (savePayload (clampedInterval (intervalMs (handleStart now s)))
                      (images (handleStart now s)))].
Proof.
  intros I. unfold handleStart.
  destruct (length (images s) =? 0); [now left|].
  apply (commit_update_log t0); auto. same_tac.
Qed.

(** An event adds at most one entry to the history: a request, with the
    snapshot of the state the event leaves, or a call of [saveSession]. *)
Lemma handle_log (t0 now : Q) (e : event) (s s1 : State) :
  Inv t0 s -> handle now e s = Some s1 ->
  savelog s1 = savelog s
  \/ savelog s1
     = savelog s
       ++ [Req now (savePayload (clampedInterval (intervalMs s1)) (images s1))]
  \/ exists w, savelog s1 = savelog s ++ [w]
               /\ is_write w = true /\ ev_time w = now.
Proof.
  intros I H.
  assert (K : forall s',
             savelog s' = savelog s
             \/ savelog s'
                = savelog s
                  ++ [Req now (savePayload (clampedInterval (intervalMs s'))
                                 (images s'))] ->
             savelog s' = savelog s
             \/ savelog s'
                = savelog s
                  ++ [Req now (savePayload (clampedInterval (intervalMs s'))
                                 (images s'))]
             \/ exists w, savelog s' = savelog s ++ [w]
                          /\ is_write w = true /\ ev_time w = now)
    by (intros s' [A|A]; auto).
  destruct e as [| |objectUrl|files|k|rid| | | |value|index|index| |i|i|i];
    unfold handle in H.
  - destruct (load s) as [[session|]| |]; try discriminate;
      inversion H; subst; now left.
  - destruct (load s); try discriminate. inversion H; subst. now left.
  - destruct (load s) as [|session|]; try discriminate.
    destruct (restoreImages objectUrl session) as [restored|];
      inversion H; subst; [|now left].
    apply K, (commit_update_log t0); auto. same_tac.
  - inversion H; subst. now left.
  - destruct (nth_error (imports s) k) as [job|]; try discriminate.
    destruct (handleFiles_outcome (job_selected job) (job_attempted job)) as [o|];
      inversion H; subst; [|now left].
    apply K, (commit_update_log t0); auto. destruct (io_alert o); same_tac.
  - destruct (handleRemove rid (images s) (currentIndex s)) as [next idx].
    inversion H; subst. apply K, (commit_update_log t0); auto. same_tac.
  - inversion H; subst. now apply K, (handleStart_log t0).
  - inversion H; subst. now apply K, (handleStop_log t0).
  - destruct (length (images s) =? 0); [inversion H; subst; now left|].
    destruct (isPlaying s); inversion H; subst.
    + now apply K, (handleStop_log t0).
    + now apply K, (handleStart_log t0).
  - inversion H; subst. apply K, (commit_update_log t0); auto. same_tac.
  - destruct (index <? length (images s)); inversion H; subst. now left.
  - destruct (index <? length (images s)); inversion H; subst. now left.
  - destruct (defined_all _) as [imgs|]; inversion H; subst.
    apply K, (commit_update_log t0); auto. same_tac.
  - destruct (find (fun t => to_id t =? i) (timeouts s)) as [t|] eqn:Hf;
      [|discriminate].
    destruct (Qle_bool (to_due t) now) eqn:Hd; [|discriminate].
    destruct (to_cb t) as [c imgs|len c] eqn:Hcb.
    + inversion H; subst. right. right. eexists. split; [reflexivity|].
      split; reflexivity.
    + pose proof (tick_fired_eq now s i t len c Hf Hd Hcb) as Eq.
      unfold handle in Eq. rewrite Hf, Hd, Hcb in Eq. rewrite Eq in H.
      inversion H; subst. now left.
  - destruct (find (fun f => fr_id f =? i) (frames s)) as [f|] eqn:Hf;
      [|discriminate].
    destruct (find_frame s i f Hf) as [Hin _].
    destruct (cur_frame _ _ _ _ (inv_current _ _ I) f Hin) as (P0 & _).
    pose proof (frame_fired_eq now s i f Hf P0) as Eq. cbv zeta in Eq.
    unfold handle in Eq. rewrite Hf in Eq. rewrite Eq in H.
    inversion H; subst. now left.
  - destruct (find (fun t => to_id t =? i) (timeouts s)) as [t|] eqn:Hf;
      [|discriminate].
    destruct (Qle_bool (to_due t) now) eqn:Hd; [|discriminate].
    destruct (to_cb t) as [c imgs|len c] eqn:Hcb; [|discriminate].
    inversion H; subst. right. right. eexists. split; [reflexivity|].
    split; reflexivity.
Qed.

(** C1, as the code has it.  Nothing makes the save wait for the load;
    what the debounce gives is that no call of [saveSession] happens less
    than [SAVE_DEBOUNCE_MS] (400 ms) after the component mounts, in any
    execution.  A load that settles within that delay therefore comes
    before every write; a slower one does not hold the first write
    back. *)
Theorem first_write_after_debounce (t0 : Q) (s : State) :
  reachable t0 s ->
  (forall e, In e (savelog s) -> is_write e = true ->
             (t0 + SAVE_DEBOUNCE_MS <= ev_time e)%Q)
  /\ (forall t p, In (Wr t p) (savelog s) -> (t0 + SAVE_DEBOUNCE_MS <= t)%Q)
  /\ ((clock s < t0 + SAVE_DEBOUNCE_MS)%Q -> writes_of (savelog s) = []).
Proof.
  intros R. apply reachable_Inv in R.
  destruct (inv_logged _ _ R) as [A B C _].
  assert (H : forall e, In e (savelog s) -> is_write e = true ->
                        (t0 + SAVE_DEBOUNCE_MS <= ev_time e)%Q).
  { intros e Hin Hw.
    destruct (write_follows_request None (savelog s) e A Hin Hw)
      as (t' & [E|E] & Ht).
    - discriminate.
    - specialize (B _ E). cbn in B. lra. }
  split; [exact H|]. split; [intros t p Hin; exact (H _ Hin eq_refl)|].
  intros Hlt. unfold writes_of.
  destruct (filter is_write (savelog s)) as [|e l] eqn:E; [reflexivity|].
  exfalso.
  assert (Hin : In e (filter is_write (savelog s))) by (rewrite E; now left).
  apply filter_In in Hin as [Hin Hw].
  specialize (H e Hin Hw). specialize (C _ Hin). lra.
Qed.

Lemma first_write_after_debounce_witness :
  exists s,
    run [(400%Q, TimeoutFired 0)] (mount 0 None) = Some s
    /\ In (Wr 400 (mkSessionData (Some (Num 100)) [])) (savelog s)
    /\ (0 + SAVE_DEBOUNCE_MS <= 400)%Q.
Proof.
  assert (H : exists s,
             run [(400%Q, TimeoutFired 0)] (mount 0 None) = Some s
             /\ In (Wr 400 (mkSessionData (Some (Num 100)) [])) (savelog s)).
  { eexists. split; [vm_compute; reflexivity|]. right. left. reflexivity. }
  destruct H as (s & Hs & Hin).
  exists s. split; [exact Hs|]. split; [exact Hin|].
  exact (proj1 (proj2 (first_write_after_debounce 0 s
                  (ex_intro _ None (ex_intro _ [(400%Q, TimeoutFired 0)] Hs))))
           400%Q (mkSessionData (Some (Num 100)) []) Hin).
Defined.

(** C1 fails as stated.  Over a store holding a snapshot, with a load
    that has not settled 400 ms after the mount, the save timer armed at
    the mount fires and [saveSession] is called with the initial empty
    state while the load is pending.  The read of the load was queued
    first, so that the load still answers the stored snapshot; once both
    are done the store holds the empty state, and the snapshot is in
    memory only, not yet restored.  The same happens when the load has
    answered and the object URLs are still being derived. *)
Lemma save_fires_while_load_pending :
  let snap := mkSessionData (Some (Num 250))
                [mkSessionImage "x" "x.png" "data:x"] in
  let empty := mkSessionData (Some (Num 100)) [] in
  (exists s,
     run [(400%Q, TimeoutFired 0)] (mount 0 (Some snap)) = Some s
     /\ load s = LoadPending (Some snap)
     /\ savelog s = [Req 0 empty; Wr 400 empty])
  /\ (exists s,
        run [(400%Q, TimeoutFired 0); (450%Q, LoadGot)] (mount 0 (Some snap))
        = Some s
        /\ load s = LoadFetched snap
        /\ images s = []
        /\ store s = Some empty)
  /\ (exists s,
        run [(100%Q, LoadGot); (400%Q, TimeoutFired 0)] (mount 0 (Some snap))
        = Some s
        /\ load s = LoadFetched snap
        /\ images s = []
        /\ savelog s = [Req 0 empty; Wr 400 empty]
        /\ store s = Some empty).
Proof.
  cbv zeta. split; [|split]; eexists; (split; [vm_compute; reflexivity|]);
    repeat split; reflexivity.
Qed.

(** C9, as the code has it.  Take, in the persistence history of any
    reachable state, a request and the entries [seg] that follow it, every
    request of [seg] arriving less than [SAVE_DEBOUNCE_MS] after the
    request before it (a burst of [1 + requests_in seg] requests), and let
    [post] be the rest of the history.  The burst causes at most one call
    of [saveSession], and one once its timer fires:
    - either [seg] holds no write; if the history ends there, exactly one
      save timer is armed, it is due [SAVE_DEBOUNCE_MS] after the last
      request and closes over the last request's snapshot (the timers of
      the earlier requests were cancelled); it cannot fire before it is
      due, and when it fires, at any later time, it calls [saveSession]
      with that snapshot, which the store then holds if the call
      resolves, and no save timer is armed afterwards;
    - or [seg] holds exactly one write; it is the last entry of [seg], its
      payload is the last request's snapshot, and it came at least
      [SAVE_DEBOUNCE_MS] after that request; if the history ends there, no
      save timer is armed.
    A burst whose timer has not fired when a later request arrives is not
    written: [post] then begins with that request, and [seg] has no write.
    And every event adds at most one entry to the history; when it is a
    request, its snapshot holds the clamped interval and, entry by entry,
    the identifier, name and data URL of the collection that the event
    leaves, and the one save timer then armed is the one of this request,
    due [SAVE_DEBOUNCE_MS] later: the timer of the request before is
    cancelled and the window starts again. *)
Theorem debounce_burst_at_most_one_write (t0 : Q) (s : State) :
  reachable t0 s ->
  (forall pre t1 p1 seg post,
     savelog s = pre ++ Req t1 p1 :: seg ++ post ->
     burst t1 seg ->
     let tN := fst (last_req t1 p1 seg) in
     let pN := snd (last_req t1 p1 seg) in
     (writes_of seg = []
      /\ (post = [] ->
          exists i c imgs,
            In (mkTimeout i (tN + SAVE_DEBOUNCE_MS) (SaveCb c imgs)) (timeouts s)
            /\ pN = savePayload c imgs
            /\ (forall t, In t (timeouts s) -> is_save t = true ->
                  t = mkTimeout i (tN + SAVE_DEBOUNCE_MS) (SaveCb c imgs))
            /\ (forall now, (now < tN + SAVE_DEBOUNCE_MS)%Q ->
                  step now (TimeoutFired i) s = None)
            /\ (forall now, (clock s <= now)%Q ->
                  (tN + SAVE_DEBOUNCE_MS <= now)%Q ->
                  exists s', step now (TimeoutFired i) s = Some s'
                             /\ savelog s' = savelog s ++ [Wr now pN]
                             /\ store s' = Some pN
                             /\ ~ save_pending s')))
     \/ (exists reqs w,
           seg = reqs ++ [w]
           /\ is_write w = true
           /\ ev_payload w = pN
           /\ writes_of reqs = []
           /\ writes_of seg = [w]
           /\ (tN + SAVE_DEBOUNCE_MS <= ev_time w)%Q
           /\ (post = [] -> ~ save_pending s)))
  /\ (forall now e s',
        step now e s = Some s' ->
        savelog s' = savelog s
        \/ (exists p,
              savelog s' = savelog s ++ [Req now p]
              /\ sd_intervalMs p = Some (clampedInterval (intervalMs s'))
              /\ map si_id (sd_images p) = map id (images s')
              /\ map si_name (sd_images p) = map name (images s')
              /\ map si_dataUrl (sd_images p) = map dataUrl (images s')
              /\ exists i c imgs,
                   In (mkTimeout i (now + SAVE_DEBOUNCE_MS) (SaveCb c imgs))
                      (timeouts s')
                   /\ p = savePayload c imgs
                   /\ (forall t, In t (timeouts s') -> is_save t = true ->
                         t = mkTimeout i (now + SAVE_DEBOUNCE_MS) (SaveCb c imgs)))
        \/ (exists w, savelog s' = savelog s ++ [w]
                      /\ is_write w = true /\ ev_time w = now)).
Proof.
  intros R. apply reachable_Inv in R. split.
  - intros pre t1 p1 seg post Hlog Hb. cbv zeta.
    destruct (inv_logged _ _ R) as [A _ _ D].
    rewrite Hlog in A.
    apply log_wf_app in A as [_ A]. destruct A as [_ A].
    apply log_wf_app in A as [A _].
    destruct (burst_shape seg t1 p1 A Hb)
      as [[W L]|(reqs & w & E & Hw & Hp & W & T)].
    + left. split; [exact W|]. intros ->. rewrite app_nil_r in Hlog.
      assert (L' : last_ev None (savelog s)
                   = Some (Req (fst (last_req t1 p1 seg))
                             (snd (last_req t1 p1 seg)))).
      { rewrite Hlog, last_ev_app. exact L. }
      destruct (pending_timer t0 s _ _ R L') as (i & c & imgs & Hin & Ep & U).
      exists i, c, imgs.
      split; [exact Hin|]. split; [exact Ep|]. split; [exact U|]. split.
      * intros now. apply (save_fire_step t0 now s i _ c imgs R Hin).
      * intros now Hn Hd. rewrite Ep.
        now apply (save_fire_step t0 now s i _ c imgs R Hin).
    + right. exists reqs, w.
      split; [exact E|]. split; [exact Hw|]. split; [exact Hp|].
      split; [exact W|]. split; [|split; [exact T|]].
      * rewrite E at 1. unfold writes_of in *. rewrite filter_app, W.
        cbn. now rewrite Hw.
      * intros ->. rewrite app_nil_r in Hlog.
        rewrite Hlog, E, last_ev_app in D. cbn [last_ev] in D.
        rewrite last_ev_snoc in D.
        intros (t & Ht & Hs).
        destruct w as [tw pw|tw pw|tw pw]; [discriminate| |];
          rewrite (D t Ht) in Hs; discriminate.
  - intros now e s' Hstep.
    pose proof (step_Inv t0 now e s s' R Hstep) as I'.
    apply step_clock in Hstep as (Hn & s1 & Hh & ->).
    destruct (handle_log t0 now e s s1 R Hh) as [L|[L|L]].
    + left. exact L.
    + right. left. eexists. split; [exact L|].
      cbn [images intervalMs set_clock sd_intervalMs sd_images savePayload].
      split; [reflexivity|]. rewrite !map_map.
      split; [reflexivity|]. split; [reflexivity|]. split; [reflexivity|].
      apply (pending_timer t0 _ _ _ I').
      cbn [savelog set_clock]. rewrite L. apply last_ev_snoc.
    + right. right. exact L.
Qed.

Lemma debounce_burst_at_most_one_write_witness :
  let a := mkFile "a" (Some "data:a"%string) "blob:a" "id-a" in
  let p3 := mkSessionData (Some (Num 250))
              [mkSessionImage "id-a" "a" "data:a"] in
  exists s,
    run [(100%Q, FilesPicked [a]); (150%Q, ImportSettled 0);
         (300%Q, IntervalChange (Num 250))] (mount 0 None) = Some s
    /\ (exists p2,
          savelog s = [Req 0 (mkSessionData (Some (Num 100)) []);
                       Req 150 p2; Req 300 p3])
    /\ (exists s',
          step 700 (TimeoutFired 2) s = Some s'
          /\ savelog s' = savelog s ++ [Wr 700 p3])
    /\ (exists s' p,
          step 350 (Remove "id-a") s = Some s'
          /\ savelog s' = savelog s ++ [Req 350 p]
          /\ sd_intervalMs p = Some (clampedInterval (intervalMs s'))
          /\ map si_dataUrl (sd_images p) = map dataUrl (images s')).
Proof.
  cbv zeta.
  set (tr0 := [(100%Q, FilesPicked [mkFile "a" (Some "data:a"%string) "blob:a" "id-a"]);
               (150%Q, ImportSettled 0); (300%Q, IntervalChange (Num 250))]).
  set (p3 := mkSessionData (Some (Num 250)) [mkSessionImage "id-a" "a" "data:a"]).
  assert (H : exists s p2 s2 q,
             run tr0 (mount 0 None) = Some s
             /\ savelog s = [Req 0 (mkSessionData (Some (Num 100)) []);
                             Req 150 p2; Req 300 p3]
             /\ timeouts s = [mkTimeout 2 700 (SaveCb (Num 250)
                                 [mkImageItem "id-a" "a" "blob:a" "data:a"])]
             /\ clock s = 300%Q
             /\ step 350 (Remove "id-a") s = Some s2
             /\ savelog s2 = savelog s ++ [Req 350 q]).
  { eexists. eexists. eexists. eexists. split; [vm_compute; reflexivity|].
    split; [reflexivity|]. split; [reflexivity|]. split; [reflexivity|].
    split; [vm_compute; reflexivity|]. reflexivity. }
  destruct H as (s & p2 & s2 & q & Hs & Hlog & Hto & Hck & Hs2 & Hlog2).
  destruct (debounce_burst_at_most_one_write 0 s
              (ex_intro _ None (ex_intro _ tr0 Hs))) as [PA PB].
  exists s. split; [exact Hs|]. split; [exists p2; exact Hlog|]. split.
  - destruct (PA [] 0%Q (mkSessionData (Some (Num 100)) [])
                [Req 150 p2; Req 300 p3] [])
      as [(_ & Hp)|(reqs & w & E & Hw & _)].
    + rewrite Hlog. reflexivity.
    + cbn. unfold SAVE_DEBOUNCE_MS. repeat split; reflexivity.
    + destruct (Hp eq_refl) as (i & c & imgs & Hin & Ep & _ & _ & Hfire).
      rewrite Hto in Hin. destruct Hin as [Hin|[]].
      assert (Ei : i = 2) by (injection Hin; congruence). subst i.
      destruct (Hfire 700%Q) as (s' & Hs' & Hl & _).
      * rewrite Hck. discriminate.
      * cbn. discriminate.
      * exists s'. split; [exact Hs'|exact Hl].
    + exfalso. destruct reqs as [|? [|? [|? ?]]]; cbn in E; try discriminate.
      inversion E; subst w. discriminate Hw.
  - exists s2.
    destruct (PB 350%Q (Remove "id-a") s2 Hs2)
      as [L|[(p & L & Hi & _ & _ & Hd & _)|(w & L & Hw & _)]].
    + exfalso. rewrite L in Hlog2.
      apply (f_equal (@length SaveEv)) in Hlog2.
      rewrite length_app in Hlog2. cbn in Hlog2. lia.
    + exists p. auto.
    + exfalso. rewrite L in Hlog2. apply app_inv_head in Hlog2.
      inversion Hlog2; subst w. discriminate Hw.
Defined.

(** C9 fails as stated.  The save timer armed at the mount is due at 400;
    timers may run late, and this one has not run when an import settles
    at 500: the request made then cancels it.  The burst made of the
    request at the mount alone, the next request coming 500 ms after it,
    is never written; the one write of the history is that of the second
    request. *)
Lemma burst_without_write :
  let a := mkFile "a" (Some "data:a"%string) "blob:a" "id-a" in
  let p0 := mkSessionData (Some (Num 100)) [] in
  let p1 := mkSessionData (Some (Num 100)) [mkSessionImage "id-a" "a" "data:a"] in
  exists s,
    run [(100%Q, FilesPicked [a]); (500%Q, ImportSettled 0);
         (900%Q, TimeoutFired 1)] (mount 0 None) = Some s
    /\ savelog s = [Req 0 p0; Req 500 p1; Wr 900 p1]
    /\ burst 0 [] /\ (SAVE_DEBOUNCE_MS <= 500 - 0)%Q
    /\ writes_of (savelog s) = [Wr 900 p1]
    /\ p1 <> p0
    /\ timeouts s = [].
Proof.
  cbv zeta. eexists. split; [vm_compute; reflexivity|].
  split; [reflexivity|]. split; [exact I|]. split; [discriminate|].
  split; [reflexivity|]. split; [discriminate|reflexivity].
Qed.

(* ================================================================== *)
(** ** Executions *)
(* ================================================================== *)

Lemma run_app (tr1 tr2 : list (Q * event)) (s : State) :
  run (tr1 ++ tr2) s =
  match run tr1 s with Some s1 => run tr2 s1 | None => None end.
Proof.
  revert s. induction tr1 as [|[t e] tr1 IH]; intros s; cbn; [reflexivity|].
  destruct (step t e s); [apply IH|reflexivity].
Qed.

(* ================================================================== *)
(** ** Stopping *)
(* ================================================================== *)

Lemma stopped_idle (t0 : Q) (s : State) :
  Inv t0 s -> isPlaying s = false -> ~ playback_pending s.
Proof.
  intros I Hp. pose proof (inv_current _ _ I) as Cu. rewrite Hp in Cu.
  now apply Current_stopped in Cu.
Qed.

(** While stopped, an event other than a start, a removal or a reorder
    leaves the component stopped and the index where it is. *)
Lemma passive_handle (t0 now : Q) (e : event) (s s1 : State) :
  Inv t0 s -> (clock s <= now)%Q -> isPlaying s = false ->
  passive e = true -> handle now e s = Some s1 ->
  isPlaying s1 = false /\ currentIndex s1 = currentIndex s
  /\ advances s1 = advances s.
Proof.
  intros I Hn Hp Hpas H.
  pose proof (stopped_idle t0 s I Hp) as Idle.
  destruct e as [| |objectUrl|files|k|rid| | | |value|index|index| |i|i|i];
    try discriminate Hpas; unfold handle in H.
  - (* LoadGot *)
    destruct (load s) as [[session|]| |]; try discriminate;
      inversion H; subst; auto.
  - (* LoadFailed *)
    destruct (load s); try discriminate. inversion H; subst; auto.
  - (* LoadDerived *)
    destruct (load s) as [|session|]; try discriminate.
    destruct (restoreImages objectUrl session) as [restored|];
      inversion H; subst; auto.
    match goal with
    | |- context [commit now s true ?s2] =>
        destruct (commit_update t0 now s s2 true I Hn) as [_ U]; [same_tac|];
        rewrite (su_isPlaying _ _ U), (su_currentIndex _ _ U), (su_advances _ _ U)
    end.
    auto.
  - (* FilesPicked *)
    inversion H; subst; auto.
  - (* ImportSettled *)
    destruct (nth_error (imports s) k) as [job|]; try discriminate.
    destruct (handleFiles_outcome (job_selected job) (job_attempted job)) as [o|];
      inversion H; subst; auto.
    match goal with
    | |- context [commit now s true ?s2] =>
        destruct (commit_update t0 now s s2 true I Hn) as [_ U];
        [destruct (io_alert o); same_tac|];
        rewrite (su_isPlaying _ _ U), (su_currentIndex _ _ U), (su_advances _ _ U)
    end.
    destruct (io_alert o); auto.
  - (* Stop *)
    inversion H; subst.
    destruct (handleStop_settled t0 now s I Hn) as (_ & U & _).
    rewrite (su_isPlaying _ _ U), (su_currentIndex _ _ U), (su_advances _ _ U).
    auto.
  - (* IntervalChange *)
    inversion H; subst.
    match goal with
    | |- context [commit now s false ?s2] =>
        destruct (commit_update t0 now s s2 false I Hn) as [_ U]; [same_tac|];
        rewrite (su_isPlaying _ _ U), (su_currentIndex _ _ U), (su_advances _ _ U)
    end.
    auto.
  - (* DragStart *)
    destruct (index <? length (images s)); inversion H; subst; auto.
  - (* DragEnter *)
    destruct (index <? length (images s)); inversion H; subst; auto.
  - (* TimeoutFired *)
    destruct (find (fun t => to_id t =? i) (timeouts s)) as [t|] eqn:Hf;
      [|discriminate].
    destruct (Qle_bool (to_due t) now) eqn:Hd; [|discriminate].
    destruct (find_timeout s i t Hf) as [Hin _].
    destruct (to_cb t) as [c imgs|len c] eqn:Hcb.
    + inversion H; subst; auto.
    + exfalso. apply Idle. left. exists t. split; [exact Hin|].
      unfold is_tick. now rewrite Hcb.
  - (* FrameFired *)
    destruct (find (fun f => fr_id f =? i) (frames s)) as [f|] eqn:Hf;
      [|discriminate].
    destruct (find_frame s i f Hf) as [Hin _].
    exfalso. apply Idle. right. intros E. rewrite E in Hin. destruct Hin.
  - (* SaveFailed *)
    destruct (find (fun t => to_id t =? i) (timeouts s)) as [t|] eqn:Hf;
      [|discriminate].
    destruct (Qle_bool (to_due t) now) eqn:Hd; [|discriminate].
    destruct (to_cb t) as [c imgs|len c] eqn:Hcb; [|discriminate].
    inversion H; subst; auto.
Qed.

Lemma passive_run (t0 : Q) (tr : list (Q * event)) :
  forall s s', Inv t0 s -> isPlaying s = false ->
    Forall (fun te => passive (snd te) = true) tr ->
    run tr s = Some s' ->
    isPlaying s' = false /\ currentIndex s' = currentIndex s
    /\ advances s' = advances s /\ ~ playback_pending s'.
Proof.
  induction tr as [|[t e] tr IH]; intros s s' I Hp Hall H; cbn in H.
  - inversion H; subst. repeat split; auto. now apply (stopped_idle t0).
  - inversion Hall as [|? ? Hpas Hall']; subst. cbn in Hpas.
    destruct (step t e s) as [s1|] eqn:Es; [|discriminate].
    pose proof (step_Inv t0 t e s s1 I Es) as I1.
    apply step_clock in Es as (Hn & s1' & Hh & ->).
    destruct (passive_handle t0 t e s s1' I Hn Hp Hpas Hh) as (A & B & C).
    destruct (IH _ _ I1 A Hall' H) as (A' & B' & C' & D').
    repeat split; auto; cbn in *; congruence.
Qed.

(** C8.  Stopping a reachable state: [handleStop] itself, before any
    render, leaves no advancement source armed; after the step the
    component is stopped, no source is armed and the index is where it was;
    and whatever happens next short of a start, a removal or a reorder
    (time passing, timers and frames the browser may still try to fire,
    promises settling, files being added, interval changes), the index
    does not change, the scheduler makes no advance and no source is
    armed. *)
Theorem stop_cancels_and_freezes (t0 now : Q) (s s1 : State) :
  reachable t0 s -> step now Stop s = Some s1 ->
  ~ playback_pending (clearTimers s)
  /\ isPlaying s1 = false
  /\ ~ playback_pending s1
  /\ currentIndex s1 = currentIndex s
  /\ forall tr s2,
       Forall (fun te => passive (snd te) = true) tr ->
       run tr s1 = Some s2 ->
       currentIndex s2 = currentIndex s1
       /\ advances s2 = advances s1
       /\ isPlaying s2 = false
       /\ ~ playback_pending s2.
Proof.
  intros R Hs. apply reachable_Inv in R.
  pose proof (step_Inv t0 now Stop s s1 R Hs) as I1.
  apply step_clock in Hs as (Hn & s1' & Hh & ->).
  unfold handle in Hh. inversion Hh; subst s1'; clear Hh.
  destruct (handleStop_settled t0 now s R Hn) as (_ & U & Idle).
  assert (Hp : isPlaying (set_clock now (handleStop now s)) = false).
  { cbn. now rewrite (su_isPlaying _ _ U). }
  split; [apply clearTimers_idle, R|].
  split; [exact Hp|].
  split; [exact Idle|].
  split; [cbn; now rewrite (su_currentIndex _ _ U)|].
  intros tr s2 Hall Hr.
  destruct (passive_run t0 tr _ _ I1 Hp Hall Hr) as (A & B & C & D).
  auto.
Qed.

Lemma stop_cancels_and_freezes_witness :
  let f := fun n : string => mkFile n (Some "data:"%string) "blob:" n in
  exists s s1,
    run [(10%Q, FilesPicked [f "a"%string; f "b"%string; f "c"%string]);
         (20%Q, ImportSettled 0); (30%Q, Start); (130%Q, TimeoutFired 2)]
        (mount 0 None) = Some s
    /\ step 340 Stop s = Some s1
    /\ isPlaying s = true /\ currentIndex s = 1
    /\ isPlaying s1 = false /\ currentIndex s1 = 1
    /\ forall tr s2,
         Forall (fun te => passive (snd te) = true) tr ->
         run tr s1 = Some s2 -> currentIndex s2 = 1.
Proof.
  cbv zeta.
  set (tr0 := [(10%Q, FilesPicked
                        [mkFile "a" (Some "data:"%string) "blob:" "a";
                         mkFile "b" (Some "data:"%string) "blob:" "b";
                         mkFile "c" (Some "data:"%string) "blob:" "c"]);
               (20%Q, ImportSettled 0); (30%Q, Start); (130%Q, TimeoutFired 2)]).
  assert (H : exists s s1,
             run tr0 (mount 0 None) = Some s /\ step 340 Stop s = Some s1
             /\ isPlaying s = true /\ currentIndex s = 1
             /\ isPlaying s1 = false /\ currentIndex s1 = 1).
  { eexists. eexists.
    split; [vm_compute; reflexivity|].
    split; [vm_compute; reflexivity|].
    repeat split; reflexivity. }
  destruct H as (s & s1 & Hs & Hst & A & B & C & D).
  exists s, s1. repeat (split; [assumption|]).
  intros tr s2 Hall Hr. rewrite <- D.
  destruct (stop_cancels_and_freezes 0 340 s s1
              (ex_intro _ None (ex_intro _ tr0 Hs)) Hst)
    as (_ & _ & _ & _ & K).
  now apply (K tr s2 Hall Hr).
Defined.

(* ================================================================== *)
(** ** Playing *)
(* ================================================================== *)

Lemma one_frame (s : State) (f : Frame) :
  Structural s -> In f (frames s) -> frames s = [f].
Proof.
  intros St Hin.
  assert (Hall : forall f', In f' (frames s) -> f' = f).
  { intros f' Hin'. apply (NoDup_map_eq fr_id (frames s)); auto using st_frame_nodup.
    pose proof (st_frames_ref s St f Hin). pose proof (st_frames_ref s St f' Hin').
    congruence. }
  pose proof (st_frame_nodup s St) as Hd.
  destruct (frames s) as [|a [|b l]]; [destruct Hin| |].
  - f_equal. apply Hall. now left.
  - exfalso. inversion Hd as [|? ? Hn _]; subst. apply Hn. cbn. left.
    rewrite (Hall a), (Hall b); cbn; auto.
Qed.

Lemma one_tick (s : State) (t t' : Timeout) :
  Structural s -> In t (timeouts s) -> is_tick t = true ->
  In t' (timeouts s) -> is_tick t' = true -> t' = t.
Proof.
  intros St Hin Hk Hin' Hk'.
  apply (NoDup_map_eq to_id (timeouts s)); auto using st_timeout_nodup.
  pose proof (st_ticks_ref s St t Hin Hk).
  pose proof (st_ticks_ref s St t' Hin' Hk'). congruence.
Qed.

(** The [tick] timeout fires: possible whenever it is due, and then the
    index advances by one modulo the length of the collection. *)
Lemma tick_step (t0 now : Q) (s : State) (t : Timeout) :
  Inv t0 s -> In t (timeouts s) -> is_tick t = true ->
  (clock s <= now)%Q -> (to_due t <= now)%Q ->
  exists s',
    step now (TimeoutFired (to_id t)) s = Some s'
    /\ currentIndex s' = (currentIndex s + 1) mod length (images s)
    /\ advances s' = S (advances s)
    /\ isPlaying s' = isPlaying s /\ images s' = images s
    /\ intervalMs s' = intervalMs s.
Proof.
  intros I Hin Hk Hn Hd.
  pose proof (find_id to_id (timeouts s) t
                (st_timeout_nodup s (inv_structural _ _ I)) Hin) as Hf.
  unfold is_tick in Hk. destruct (to_cb t) as [|len c] eqn:Hcb; [discriminate|].
  destruct (cur_tick _ _ _ _ (inv_current _ _ I) t len c Hin Hcb) as (_ & -> & _).
  apply Qle_bool_iff in Hn, Hd.
  eexists. split.
  - unfold step. rewrite Hn, (tick_fired_eq now s _ t _ c Hf Hd Hcb). reflexivity.
  - repeat split; reflexivity.
Qed.

(** A frame callback runs: possible at any time, and then the index
    advances by one modulo the length of the collection if the time
    elapsed since the last advance, as the subtraction of doubles gives
    it, is at least the clamped interval, and stays otherwise. *)
Lemma frame_step (t0 now : Q) (s : State) (f : Frame) :
  Inv t0 s -> In f (frames s) -> (clock s <= now)%Q ->
  exists s',
    step now (FrameFired (fr_id f)) s = Some s'
    /\ currentIndex s' =
       (if geb (fsub now (fr_start f)) (clampedInterval (intervalMs s))
        then (currentIndex s + 1) mod length (images s)
        else currentIndex s)
    /\ advances s' =
       (if geb (fsub now (fr_start f)) (clampedInterval (intervalMs s))
        then S (advances s) else advances s)
    /\ isPlaying s' = isPlaying s /\ images s' = images s
    /\ intervalMs s' = intervalMs s.
Proof.
  intros I Hin Hn.
  pose proof (find_id fr_id (frames s) f
                (st_frame_nodup s (inv_structural _ _ I)) Hin) as Hf.
  destruct (cur_frame _ _ _ _ (inv_current _ _ I) f Hin)
    as (P0 & _ & P2 & _ & P4 & _).
  apply Qle_bool_iff in Hn.
  assert (Eg : geb (fsub now (fr_start f)) (clampedInterval (intervalMs s))
               = geb (fsub now (fr_start f)) (fr_clamped f)).
  { unfold geb. symmetry. now apply leb_same_value. }
  eexists. split.
  - unfold step. rewrite Hn, (frame_fired_eq now s _ f Hf P0). reflexivity.
  - rewrite Eg, <- P2. repeat split; reflexivity.
Qed.

(** A scheduler callback while playing: the index either stays or advances
    by one modulo the length, the advance being counted. *)
Lemma callback_step (t0 now : Q) (e : event) (s s' : State) :
  Inv t0 s -> scheduler_callback e = true -> step now e s = Some s' ->
  isPlaying s' = isPlaying s /\ images s' = images s
  /\ ((currentIndex s' = currentIndex s /\ advances s' = advances s)
      \/ (currentIndex s' = (currentIndex s + 1) mod length (images s)
          /\ advances s' = S (advances s))).
Proof.
  intros I Hcb Hs. pose proof Hs as Hs0.
  apply step_clock in Hs as (Hn & s1 & Hh & ->).
  destruct e; try discriminate Hcb.
  - (* TimeoutFired *)
    destruct (find (fun t => to_id t =? i) (timeouts s)) as [t|] eqn:Hf;
      [|unfold handle in Hh; rewrite Hf in Hh; discriminate].
    destruct (Qle_bool (to_due t) now) eqn:Hd;
      [|unfold handle in Hh; rewrite Hf, Hd in Hh; discriminate].
    destruct (find_timeout s i t Hf) as [Hin Hid].
    destruct (to_cb t) as [c imgs|len c] eqn:Hk.
    + rewrite (save_fired_eq now s i t c imgs Hf Hd Hk) in Hh.
      inversion Hh; subst s1. cbn. auto.
    + assert (Htk : is_tick t = true) by (unfold is_tick; now rewrite Hk).
      apply Qle_bool_iff in Hd.
      destruct (tick_step t0 now s t I Hin Htk Hn Hd) as (s' & E & A & B & C & D & _).
      rewrite Hid, Hs0 in E. inversion E; subst s'. auto.
  - (* FrameFired *)
    destruct (find (fun f => fr_id f =? i) (frames s)) as [f|] eqn:Hf;
      [|unfold handle in Hh; rewrite Hf in Hh; discriminate].
    destruct (find_frame s i f Hf) as [Hin Hid].
    destruct (frame_step t0 now s f I Hin Hn) as (s' & E & A & B & C & D & _).
    rewrite Hid, Hs0 in E. inversion E; subst s'.
    split; [exact C|]. split; [exact D|].
    destruct (geb _ _); auto.
  - (* SaveFailed *)
    destruct (find (fun t => to_id t =? i) (timeouts s)) as [t|] eqn:Hf;
      [|unfold handle in Hh; rewrite Hf in Hh; discriminate].
    destruct (Qle_bool (to_due t) now) eqn:Hd;
      [|unfold handle in Hh; rewrite Hf, Hd in Hh; discriminate].
    destruct (to_cb t) as [c imgs|len c] eqn:Hk;
      [|unfold handle in Hh; rewrite Hf, Hd, Hk in Hh; discriminate].
    rewrite (save_failed_eq now s i t c imgs Hf Hd Hk) in Hh.
    inversion Hh; subst s1. cbn. auto.
Qed.

Lemma callbacks_run (t0 : Q) (tr : list (Q * event)) :
  forall s s', Inv t0 s ->
    Forall (fun te => scheduler_callback (snd te) = true) tr ->
    run tr s = Some s' ->
    isPlaying s' = isPlaying s /\ images s' = images s
    /\ advances s <= advances s'
    /\ (currentIndex s < length (images s) ->
        currentIndex s'
        = (currentIndex s + (advances s' - advances s)) mod length (images s)).
Proof.
  induction tr as [|[t e] tr IH]; intros s s' I Hall H; cbn in H.
  - inversion H; subst. repeat split; auto.
    intros Hlt. rewrite Nat.sub_diag, Nat.add_0_r. symmetry.
    now apply Nat.mod_small.
  - inversion Hall as [|? ? Hcb Hall']; subst. cbn in Hcb.
    destruct (step t e s) as [s1|] eqn:Es; [|discriminate].
    pose proof (step_Inv t0 t e s s1 I Es) as I1.
    destruct (callback_step t0 t e s s1 I Hcb Es) as (A & B & C).
    destruct (IH _ _ I1 Hall' H) as (A' & B' & C' & D').
    rewrite A, B in *.
    split; [exact A'|]. split; [exact B'|].
    destruct C as [[C1 C2]|[C1 C2]]; rewrite C1, C2 in *.
    + split; [exact C'|exact D'].
    + split; [lia|]. intros Hlt.
      assert (Hm : (currentIndex s + 1) mod length (images s) < length (images s))
        by (apply Nat.mod_upper_bound; lia).
      rewrite (D' Hm), Nat.Div0.add_mod_idemp_l. f_equal. lia.
Qed.

(** C7.  In a reachable state that is playing over a collection of length
    L > 0:
    - exactly one advancement source is armed, the frame request when the
      clamped interval is at most 32 and the [tick] timeout otherwise;
    - the [tick] timeout can fire as soon as it is due, and each firing
      sets the index to (index + 1) mod L and re-arms;
    - a frame callback can run at any time, and sets the index to
      (index + 1) mod L when the time elapsed since the last advance, the
      difference of the two timestamps as doubles, is at least the clamped
      interval (it leaves the index alone, and re-arms, otherwise);
    - along any run of scheduler callbacks, from an index in range, the
      index is (index + number of advances) mod L: from 0 the successive
      advances show 1, 2, ..., L-1, 0, 1, ... *)
Theorem playback_advances_modulo (t0 : Q) (s : State) :
  reachable t0 s -> isPlaying s = true -> 0 < length (images s) ->
  let L := length (images s) in
  let c := clampedInterval (intervalMs s) in
  (if leb c (Num 32)
   then (exists f, frames s = [f])
        /\ (forall t, In t (timeouts s) -> is_tick t = false)
   else frames s = []
        /\ exists t, In t (timeouts s) /\ is_tick t = true
                     /\ forall t', In t' (timeouts s) -> is_tick t' = true -> t' = t)
  /\ (forall t now,
        In t (timeouts s) -> is_tick t = true ->
        (clock s <= now)%Q -> (to_due t <= now)%Q ->
        exists s', step now (TimeoutFired (to_id t)) s = Some s'
                   /\ currentIndex s' = (currentIndex s + 1) mod L
                   /\ isPlaying s' = true /\ images s' = images s)
  /\ (forall f now,
        In f (frames s) -> (clock s <= now)%Q ->
        exists s', step now (FrameFired (fr_id f)) s = Some s'
                   /\ currentIndex s' =
                      (if geb (fsub now (fr_start f)) c
                       then (currentIndex s + 1) mod L else currentIndex s)
                   /\ isPlaying s' = true /\ images s' = images s)
  /\ (forall tr s',
        Forall (fun te => scheduler_callback (snd te) = true) tr ->
        run tr s = Some s' ->
        currentIndex s < L ->
        currentIndex s' = (currentIndex s + (advances s' - advances s)) mod L
        /\ isPlaying s' = true /\ images s' = images s).
Proof.
  intros R Hp Hl. cbv zeta. apply reachable_Inv in R.
  pose proof (inv_structural _ _ R) as St.
  pose proof (inv_current _ _ R) as Cu.
  split; [|split; [|split]].
  - pose proof (inv_live _ _ R Hp Hl) as L.
    destruct (leb (clampedInterval (intervalMs s)) (Num 32)) eqn:Eu.
    + split.
      * destruct (frames s) as [|f l] eqn:E; [congruence|].
        exists f. rewrite <- E. apply one_frame; auto. rewrite E. now left.
      * intros t Hin. destruct (is_tick t) eqn:Ek; [|reflexivity].
        unfold is_tick in Ek. destruct (to_cb t) as [|n c] eqn:Ecb; [discriminate|].
        destruct (cur_tick _ _ _ _ Cu t n c Hin Ecb) as (_ & _ & _ & K).
        congruence.
    + split.
      * destruct (frames s) as [|f l] eqn:E; [reflexivity|].
        destruct (cur_frame _ _ _ _ Cu f) as (_ & _ & _ & _ & _ & K).
        { rewrite E. now left. }
        congruence.
      * destruct L as (t & Hin & Hk). exists t.
        split; [exact Hin|]. split; [exact Hk|].
        intros t' Hin' Hk'. now apply (one_tick s t t').
  - intros t now Hin Hk Hn Hd.
    destruct (tick_step t0 now s t R Hin Hk Hn Hd) as (s' & E & A & _ & C & D & _).
    exists s'. rewrite C, Hp. auto.
  - intros f now Hin Hn.
    destruct (frame_step t0 now s f R Hin Hn) as (s' & E & A & _ & C & D & _).
    exists s'. rewrite C, Hp. auto.
  - intros tr s' Hall Hr Hlt.
    destruct (callbacks_run t0 tr s s' R Hall Hr) as (A & B & _ & D).
    rewrite A, Hp. auto.
Qed.

Lemma playback_advances_modulo_witness :
  let f := fun n : string => mkFile n (Some "data:"%string) "blob:" n in
  (exists s,
     run [(10%Q, FilesPicked [f "a"%string; f "b"%string; f "c"%string]);
          (20%Q, ImportSettled 0); (30%Q, Start)] (mount 0 None) = Some s
     /\ isPlaying s = true /\ length (images s) = 3 /\ currentIndex s = 0
     /\ exists s',
          step 130 (TimeoutFired 2) s = Some s'
          /\ currentIndex s' = 1 /\ isPlaying s' = true)
  /\ (exists s,
        run [(10%Q, FilesPicked [f "a"%string; f "b"%string; f "c"%string]);
             (20%Q, ImportSettled 0); (25%Q, IntervalChange (Num 16));
             (30%Q, Start)] (mount 0 None) = Some s
        /\ isPlaying s = true /\ length (images s) = 3 /\ currentIndex s = 0
        /\ exists s',
             step 46 (FrameFired 3) s = Some s'
             /\ currentIndex s' = 1 /\ isPlaying s' = true).
Proof.
  cbv zeta.
  set (files := [mkFile "a" (Some "data:"%string) "blob:" "a";
                 mkFile "b" (Some "data:"%string) "blob:" "b";
                 mkFile "c" (Some "data:"%string) "blob:" "c"]).
  split.
  - set (tr0 := [(10%Q, FilesPicked files); (20%Q, ImportSettled 0);
                 (30%Q, Start)]).
    assert (H : exists s imgs,
               run tr0 (mount 0 None) = Some s
               /\ isPlaying s = true /\ length (images s) = 3
               /\ currentIndex s = 0 /\ clock s = 30%Q
               /\ timeouts s = [mkTimeout 1 420 (SaveCb (Num 100) imgs);
                                mkTimeout 2 130 (TickCb 3 (Num 100))]).
    { eexists. eexists. split; [vm_compute; reflexivity|].
      repeat split; reflexivity. }
    destruct H as (s & imgs & Hs & Hp & Hl & Hi & Hck & Hto).
    exists s. repeat (split; [assumption|]).
    assert (Hpos : 0 < length (images s)) by (rewrite Hl; lia).
    destruct (playback_advances_modulo 0 s
                (ex_intro _ None (ex_intro _ tr0 Hs)) Hp Hpos)
      as (_ & Htick & _).
    destruct (Htick (mkTimeout 2 130 (TickCb 3 (Num 100))) 130%Q)
      as (s' & Hs' & A & B & _).
    + rewrite Hto. right. left. reflexivity.
    + reflexivity.
    + rewrite Hck. discriminate.
    + cbn. discriminate.
    + exists s'. split; [exact Hs'|]. split; [|exact B].
      rewrite A, Hi, Hl. reflexivity.
  - set (tr0 := [(10%Q, FilesPicked files); (20%Q, ImportSettled 0);
                 (25%Q, IntervalChange (Num 16)); (30%Q, Start)]).
    assert (H : exists s,
               run tr0 (mount 0 None) = Some s
               /\ isPlaying s = true /\ length (images s) = 3
               /\ currentIndex s = 0 /\ clock s = 30%Q
               /\ intervalMs s = Num 16
               /\ frames s = [mkFrame 3 true 3 (Num 16) 30]).
    { eexists. split; [vm_compute; reflexivity|].
      repeat split; reflexivity. }
    destruct H as (s & Hs & Hp & Hl & Hi & Hck & Hiv & Hfr).
    exists s. repeat (split; [assumption|]).
    assert (Hpos : 0 < length (images s)) by (rewrite Hl; lia).
    destruct (playback_advances_modulo 0 s
                (ex_intro _ None (ex_intro _ tr0 Hs)) Hp Hpos)
      as (_ & _ & Hframe & _).
    destruct (Hframe (mkFrame 3 true 3 (Num 16) 30) 46%Q)
      as (s' & Hs' & A & B & _).
    + rewrite Hfr. left. reflexivity.
    + rewrite Hck. discriminate.
    + exists s'. split; [exact Hs'|]. split; [|exact B].
      rewrite A, Hi, Hl, Hiv. vm_compute. reflexivity.
Defined.

(* ================================================================== *)
(** ** Restoring at startup *)
(* ================================================================== *)

Lemma firstn_length_le {A : Type} (n : nat) (l : list A) :
  length (firstn n l) <= n.
Proof. rewrite length_firstn. lia. Qed.

(** C10.  Restoring a session: when the object-URL derivations succeed
    (and they do when none of them fails), the restored collection holds
    the first [MAX_IMAGES] (50) entries of the persisted snapshot, in
    persisted order and with their identifier, name and content, and
    nothing else, so its length is at most 50 however many entries the
    snapshot holds; a failing derivation restores nothing.  The restored
    collection replaces the collection of the component as it is. *)
Theorem restore_keeps_first_max
        (objectUrl : nat -> SessionImage -> option string)
        (session : SessionData) :
  (forall restored,
     restoreImages objectUrl session = Some restored ->
     map toSessionImage restored = firstn MAX_IMAGES (sd_images session)
     /\ length restored <= MAX_IMAGES)
  /\ ((forall k img, objectUrl k img <> None) ->
      exists restored, restoreImages objectUrl session = Some restored)
  /\ (forall t0 now s s',
        reachable t0 s -> load s = LoadFetched session ->
        step now (LoadDerived objectUrl) s = Some s' ->
        load s' = LoadSettled
        /\ match restoreImages objectUrl session with
           | Some restored =>
               images s' = restored /\ length (images s') <= MAX_IMAGES
               /\ intervalMs s' = restoreInterval session
           | None => images s' = images s /\ intervalMs s' = intervalMs s
           end).
Proof.
  split; [|split].
  - intros restored H. pose proof (restoreImages_sound _ _ _ H) as E.
    split; [exact E|].
    rewrite <- (length_map toSessionImage), E. apply firstn_length_le.
  - apply restoreImages_total.
  - intros t0 now s s' R Hl Hs. apply reachable_Inv in R.
    apply step_clock in Hs as (Hn & s1 & Hh & ->).
    unfold handle in Hh. rewrite Hl in Hh.
    destruct (restoreImages objectUrl session) as [restored|] eqn:E.
    + inversion Hh; subst s1; clear Hh.
      match goal with
      | |- context [commit now s true ?s2] =>
          destruct (commit_update t0 now s s2 true R Hn) as [_ U]; [same_tac|]
      end.
      cbn [load images intervalMs set_clock].
      rewrite (su_load _ _ U), (su_images _ _ U), (su_intervalMs _ _ U).
      cbn. repeat split; auto.
      pose proof (restoreImages_sound _ _ _ E) as E'.
      rewrite <- (length_map toSessionImage), E'. apply firstn_length_le.
    + inversion Hh; subst s1. cbn. auto.
Qed.

Lemma restore_keeps_first_max_witness :
  let img := mkSessionImage "x" "x.png" "data:x" in
  let session := mkSessionData (Some (Num 250)) (repeat img 51) in
  exists restored,
    restoreImages (fun _ _ => Some "blob:x"%string) session = Some restored
    /\ map toSessionImage restored = repeat img 50
    /\ length restored <= MAX_IMAGES.
Proof.
  cbv zeta.
  destruct (proj1 (proj2 (restore_keeps_first_max
                            (fun _ _ => Some "blob:x"%string)
                            (mkSessionData (Some (Num 250))
                               (repeat (mkSessionImage "x" "x.png" "data:x") 51)))))
    as [restored H].
  - intros k img. discriminate.
  - exists restored. split; [exact H|].
    exact (proj1 (restore_keeps_first_max _ _) restored H).
Defined.

(* ================================================================== *)
(** ** The interval *)
(* ================================================================== *)














(* ================================================================== *)
(** ** Further properties of the component *)
(* ================================================================== *)

Lemma same_key_short {A : Type} (g : A -> nat) (l : list A) :
  NoDup (map g l) -> (forall x y, In x l -> In y l -> g x = g y) ->
  length l <= 1.
Proof.
  intros Hd Hall. destruct l as [|a [|b l]]; cbn; try lia.
  exfalso. inversion Hd as [|? ? Hn _]; subst. apply Hn. left.
  symmetry. apply Hall; cbn; auto.
Qed.

(** Under the invariant, a source is armed exactly when the component is
    playing over a non-empty collection. *)
Lemma pending_iff (t0 : Q) (s : State) :
  Inv t0 s ->
  (playback_pending s <-> isPlaying s = true /\ 0 < length (images s)).
Proof.
  intros R. pose proof (inv_current _ _ R) as Cu. split.
  - intros [(t & Hin & Hk)|Hf].
    + unfold is_tick in Hk. destruct (to_cb t) as [|n c] eqn:E; [discriminate|].
      destruct (cur_tick _ _ _ _ Cu t n c Hin E) as (A & _ & B & _). auto.
    + destruct (frames s) as [|f l] eqn:E; [congruence|].
      destruct (cur_frame _ _ _ _ Cu f) as (_ & A & _ & B & _); auto.
      rewrite E. now left.
  - intros [Hp Hl]. pose proof (inv_live _ _ R Hp Hl) as L.
    destruct (leb (clampedInterval (intervalMs s)) (Num 32)); [now right|now left].
Qed.

(** X1.  In every reachable state an advancement source is armed exactly when
    the component is playing over a non-empty collection, and never more
    than one: not two [tick] timeouts, not two frame requests, not one of
    each. *)
Theorem one_source_iff_playing (t0 : Q) (s : State) :
  reachable t0 s ->
  (playback_pending s <-> isPlaying s = true /\ 0 < length (images s))
  /\ length (filter is_tick (timeouts s)) + length (frames s) <= 1.
Proof.
  intros R. apply reachable_Inv in R.
  pose proof (inv_structural _ _ R) as St.
  pose proof (inv_current _ _ R) as Cu.
  split; [now apply (pending_iff t0)|].
  assert (Ht : length (filter is_tick (timeouts s)) <= 1).
  { apply (same_key_short to_id); [apply NoDup_map_filter, St|].
    intros x y Hx Hy. apply filter_In in Hx as [Hx Kx], Hy as [Hy Ky].
    pose proof (st_ticks_ref s St x Hx Kx). pose proof (st_ticks_ref s St y Hy Ky).
    congruence. }
  assert (Hf : length (frames s) <= 1).
  { apply (same_key_short fr_id); [apply St|].
    intros x y Hx Hy.
    pose proof (st_frames_ref s St x Hx). pose proof (st_frames_ref s St y Hy).
    congruence. }
  destruct (filter is_tick (timeouts s)) as [|t l] eqn:Et; [cbn; lia|].
  destruct (frames s) as [|f l'] eqn:Ef; [cbn in *; lia|].
  exfalso.
  assert (Hin : In t (filter is_tick (timeouts s))) by (rewrite Et; now left).
  apply filter_In in Hin as [Hin Hk].
  unfold is_tick in Hk. destruct (to_cb t) as [|n c] eqn:E; [discriminate|].
  destruct (cur_tick _ _ _ _ Cu t n c Hin E) as (_ & _ & _ & A).
  destruct (cur_frame _ _ _ _ Cu f) as (_ & _ & _ & _ & _ & B).
  { rewrite Ef. now left. }
  congruence.
Qed.

Lemma one_source_iff_playing_witness :
  let f := fun n : string => mkFile n (Some "data:"%string) "blob:" n in
  exists s,
    run [(10%Q, FilesPicked [f "a"%string; f "b"%string]);
         (20%Q, ImportSettled 0); (30%Q, Start); (40%Q, Remove "a");
         (50%Q, Remove "b")] (mount 0 None) = Some s
    /\ isPlaying s = true /\ images s = []
    /\ ~ playback_pending s.
Proof.
  cbv zeta.
  set (tr0 := [(10%Q, FilesPicked [mkFile "a" (Some "data:"%string) "blob:" "a";
                                   mkFile "b" (Some "data:"%string) "blob:" "b"]);
               (20%Q, ImportSettled 0); (30%Q, Start); (40%Q, Remove "a");
               (50%Q, Remove "b")]).
  assert (H : exists s, run tr0 (mount 0 None) = Some s
                        /\ isPlaying s = true /\ images s = []).
  { eexists. split; [vm_compute; reflexivity|]. split; reflexivity. }
  destruct H as (s & Hs & Hp & Hi).
  exists s. repeat (split; [assumption|]).
  intros Hpend.
  apply (proj1 (one_source_iff_playing 0 s
                  (ex_intro _ None (ex_intro _ tr0 Hs)))) in Hpend.
  destruct Hpend as [_ Hl]. rewrite Hi in Hl. cbn in Hl. lia.
Defined.

(** X2.  Stopping and starting again resumes where playback was: neither the
    collection, nor the index, nor the interval, nor the count of advances
    changes, and over a non-empty collection the component plays again
    with an advancement source armed. *)
Theorem stop_then_start_resumes (t0 t1 t2 : Q) (s s1 s2 : State) :
  reachable t0 s ->
  step t1 Stop s = Some s1 -> step t2 Start s1 = Some s2 ->
  images s2 = images s /\ currentIndex s2 = currentIndex s
  /\ intervalMs s2 = intervalMs s /\ advances s2 = advances s
  /\ (0 < length (images s) -> isPlaying s2 = true /\ playback_pending s2).
Proof.
  intros R H1 H2. apply reachable_Inv in R.
  pose proof (step_Inv _ _ _ _ _ R H1) as I1.
  pose proof (step_Inv _ _ _ _ _ I1 H2) as I2.
  apply step_clock in H1 as (Hn1 & x1 & Hh1 & ->).
  apply step_clock in H2 as (Hn2 & x2 & Hh2 & ->).
  unfold handle in Hh1, Hh2. inversion Hh1; subst x1. inversion Hh2; subst x2.
  clear Hh1 Hh2.
  destruct (handleStop_settled t0 t1 s R Hn1) as (_ & U1 & _).
  set (a := set_clock t1 (handleStop t1 s)) in *.
  assert (Ua : images a = images s /\ currentIndex a = currentIndex s
               /\ intervalMs a = intervalMs s /\ advances a = advances s).
  { destruct U1. unfold a. cbn [images currentIndex intervalMs advances set_clock].
    auto. }
  destruct Ua as (A1 & A2 & A3 & A4).
  assert (Hb : images (handleStart t2 a) = images a
               /\ currentIndex (handleStart t2 a) = currentIndex a
               /\ intervalMs (handleStart t2 a) = intervalMs a
               /\ advances (handleStart t2 a) = advances a
               /\ (0 < length (images a) -> isPlaying (handleStart t2 a) = true)).
  { unfold handleStart. destruct (length (images a) =? 0) eqn:E.
    - apply Nat.eqb_eq in E. repeat split; auto. intros; lia.
    - destruct (commit_update t0 t2 a (set_isPlaying true a) false I1 Hn2) as [_ U];
        [same_tac|].
      destruct U. repeat split; auto. }
  destruct Hb as (B1 & B2 & B3 & B4 & B5).
  cbn [images currentIndex intervalMs advances set_clock] in *.
  repeat split; try congruence.
  - cbn [isPlaying set_clock]. apply B5. now rewrite A1.
  - assert (Hp : isPlaying (set_clock t2 (handleStart t2 a)) = true).
    { cbn [isPlaying set_clock]. apply B5. now rewrite A1. }
    assert (Hl : 0 < length (images (set_clock t2 (handleStart t2 a)))).
    { cbn [images set_clock]. now rewrite B1, A1. }
    pose proof (inv_live _ _ I2 Hp Hl) as L.
    destruct (leb _ _); [now right|now left].
Qed.

Lemma stop_then_start_resumes_witness :
  let f := fun n : string => mkFile n (Some "data:"%string) "blob:" n in
  exists s s2,
    run [(10%Q, FilesPicked [f "a"%string; f "b"%string]);
         (20%Q, ImportSettled 0); (30%Q, Start); (130%Q, TimeoutFired 2)]
        (mount 0 None) = Some s
    /\ currentIndex s = 1
    /\ run [(140%Q, Stop); (900%Q, Start)] s = Some s2
    /\ currentIndex s2 = 1 /\ isPlaying s2 = true /\ playback_pending s2.
Proof.
  cbv zeta.
  set (tr0 := [(10%Q, FilesPicked [mkFile "a" (Some "data:"%string) "blob:" "a";
                                   mkFile "b" (Some "data:"%string) "blob:" "b"]);
               (20%Q, ImportSettled 0); (30%Q, Start); (130%Q, TimeoutFired 2)]).
  assert (H : exists s s1 s2,
             run tr0 (mount 0 None) = Some s
             /\ step 140 Stop s = Some s1 /\ step 900 Start s1 = Some s2
             /\ currentIndex s = 1 /\ length (images s) = 2).
  { do 3 eexists. split; [vm_compute; reflexivity|].
    split; [vm_compute; reflexivity|].
    split; [vm_compute; reflexivity|]. split; reflexivity. }
  destruct H as (s & s1 & s2 & Hs & H1 & H2 & Hi & Hl).
  destruct (stop_then_start_resumes 0 140 900 s s1 s2
              (ex_intro _ None (ex_intro _ tr0 Hs)) H1 H2)
    as (_ & B & _ & _ & C).
  exists s, s2. split; [exact Hs|]. split; [exact Hi|].
  split; [cbn [run]; rewrite H1, H2; reflexivity|].
  split; [congruence|]. apply C. lia.
Defined.

Lemma defined_all_inj (l : list ImageItem) (imgs : list ImageItem) :
  defined_all (map Some l) = Some imgs -> imgs = l.
Proof. rewrite defined_all_map_Some. now intros [= ->]. Qed.

Lemma defined_all_length (l : list Slot) (imgs : list ImageItem) :
  defined_all l = Some imgs -> length imgs = length l.
Proof.
  revert imgs. induction l as [|[x|] l IH]; intros imgs H; cbn in H.
  - now inversion H.
  - destruct (defined_all l); [|discriminate]. inversion H; subst. cbn.
    f_equal. now apply IH.
  - discriminate.
Qed.

(** X3.  The index keeps designating an entry (or is 0): every step keeps this,
    a restore excepted when it replaces the collection under a non-zero
    index. *)
Theorem index_stays_valid (t0 now : Q) (e : event) (s s' : State) :
  reachable t0 s -> valid_index s -> step now e s = Some s' ->
  (forall objectUrl, e = LoadDerived objectUrl -> currentIndex s = 0) ->
  valid_index s'.
Proof.
  intros R V Hs Hload. apply reachable_Inv in R. unfold valid_index in *.
  apply step_clock in Hs as (Hn & s1 & H & ->).
  cbn [currentIndex images set_clock].
  destruct e as [| |objectUrl|files|k|rid| | | |value|index|index| |i|i|i];
    [unfold handle in H..| | |].
  - destruct (load s) as [[session|]| |]; try discriminate;
      inversion H; subst; exact V.
  - destruct (load s); try discriminate. inversion H; subst; exact V.
  - destruct (load s) as [|session|]; try discriminate.
    destruct (restoreImages objectUrl session) as [restored|]; inversion H; subst.
    + destruct (commit_update t0 now s
                  (set_load LoadSettled
                     (set_intervalMs (restoreInterval session)
                        (set_images restored s))) true R Hn) as [_ U];
        [same_tac|].
      left. rewrite (su_currentIndex _ _ U). cbn. now apply (Hload objectUrl).
    + exact V.
  - inversion H; subst; exact V.
  - destruct (nth_error (imports s) k) as [job|]; try discriminate.
    destruct (handleFiles_outcome (job_selected job) (job_attempted job)) as [o|];
      inversion H; subst; [|exact V].
    match goal with |- context [commit now s true ?x] =>
      destruct (commit_update t0 now s x true R Hn) as [_ U] end.
    { destruct (io_alert o); same_tac. }
    rewrite (su_currentIndex _ _ U), (su_images _ _ U).
    destruct (io_alert o); cbn [currentIndex images set_currentIndex set_images
                                set_alerts set_imports];
      unfold appendImages; rewrite length_app; lia.
  - destruct (handleRemove rid (images s) (currentIndex s)) as [next idx] eqn:E.
    inversion H; subst.
    destruct (commit_update t0 now s (set_currentIndex idx (set_images next s))
                true R Hn) as [_ U]; [same_tac|].
    rewrite (su_currentIndex _ _ U), (su_images _ _ U). cbn.
    unfold handleRemove in E. inversion E; subst.
    destruct (length _ =? 0); [now left|].
    destruct (length _ <=? currentIndex s) eqn:E2; [now left|].
    right. now apply Nat.leb_gt in E2.
  - inversion H; subst. unfold handleStart.
    destruct (length (images s) =? 0); [exact V|].
    destruct (commit_update t0 now s (set_isPlaying true s) false R Hn) as [_ U];
      [same_tac|].
    rewrite (su_currentIndex _ _ U), (su_images _ _ U). exact V.
  - inversion H; subst.
    destruct (handleStop_settled t0 now s R Hn) as (_ & U & _).
    rewrite (su_currentIndex _ _ U), (su_images _ _ U). exact V.
  - destruct (length (images s) =? 0); [inversion H; subst; exact V|].
    destruct (isPlaying s); inversion H; subst.
    + destruct (handleStop_settled t0 now s R Hn) as (_ & U & _).
      rewrite (su_currentIndex _ _ U), (su_images _ _ U). exact V.
    + unfold handleStart. destruct (length (images s) =? 0); [exact V|].
      destruct (commit_update t0 now s (set_isPlaying true s) false R Hn) as [_ U];
        [same_tac|].
      rewrite (su_currentIndex _ _ U), (su_images _ _ U). exact V.
  - inversion H; subst.
    destruct (commit_update t0 now s
                (set_intervalMs (handleIntervalChange value) s) false R Hn)
      as [_ U]; [same_tac|].
    rewrite (su_currentIndex _ _ U), (su_images _ _ U). exact V.
  - destruct (index <? length (images s)); inversion H; subst; exact V.
  - destruct (index <? length (images s)); inversion H; subst; exact V.
  - destruct (defined_all _) as [imgs|] eqn:Ed; inversion H; subst.
    match goal with |- context [commit now s ?c ?x] =>
      destruct (commit_update t0 now s x c R Hn) as [_ U] end.
    { same_tac. }
    rewrite (su_currentIndex _ _ U), (su_images _ _ U).
    cbn [currentIndex images set_currentIndex set_images].
    unfold onDragEnd in *. cbn [d_dragItem d_dragOverItem d_images d_currentIndex] in *.
    destruct (dragItem s) as [a|]; [destruct (dragOverItem s) as [b|];
                                    [destruct (a =? b)|]|];
      cbn [d_images d_currentIndex] in *;
      try (apply defined_all_inj in Ed; subst imgs; exact V).
    now left.
  - destruct (find (fun t => to_id t =? i) (timeouts s)) as [t|] eqn:Hf;
      [|unfold handle in H; rewrite Hf in H; discriminate].
    destruct (Qle_bool (to_due t) now) eqn:Hd;
      [|unfold handle in H; rewrite Hf, Hd in H; discriminate].
    destruct (find_timeout s i t Hf) as [Hin _].
    destruct (to_cb t) as [c imgs|len c] eqn:Hc.
    + rewrite (save_fired_eq now s i t c imgs Hf Hd Hc) in H.
      inversion H; subst. exact V.
    + rewrite (tick_fired_eq now s i t len c Hf Hd Hc) in H.
      inversion H; subst. cbn [currentIndex images].
      destruct (cur_tick _ _ _ _ (inv_current _ _ R) t len c Hin Hc)
        as (_ & -> & Hl & _).
      right. apply Nat.mod_upper_bound. lia.
  - destruct (find (fun f => fr_id f =? i) (frames s)) as [f|] eqn:Hf;
      [|unfold handle in H; rewrite Hf in H; discriminate].
    destruct (find_frame s i f Hf) as [Hin _].
    destruct (cur_frame _ _ _ _ (inv_current _ _ R) f Hin)
      as (Hp & _ & Hlen & Hl & _).
    pose proof (frame_fired_eq now s i f Hf Hp) as E. cbv zeta in E.
    rewrite E in H. inversion H; subst. cbn [currentIndex images].
    destruct (geb _ _); [|exact V].
    right. rewrite Hlen. apply Nat.mod_upper_bound. lia.
  - destruct (find (fun t => to_id t =? i) (timeouts s)) as [t|] eqn:Hf;
      [|unfold handle in H; rewrite Hf in H; discriminate].
    destruct (Qle_bool (to_due t) now) eqn:Hd;
      [|unfold handle in H; rewrite Hf, Hd in H; discriminate].
    destruct (to_cb t) as [c imgs|len c] eqn:Hc;
      [|unfold handle in H; rewrite Hf, Hd, Hc in H; discriminate].
    rewrite (save_failed_eq now s i t c imgs Hf Hd Hc) in H.
    inversion H; subst. exact V.
Qed.

Lemma index_stays_valid_witness :
  let f := fun n : string => mkFile n (Some "data:"%string) "blob:" n in
  exists s s',
    run [(10%Q, FilesPicked [f "a"%string; f "b"%string; f "c"%string]);
         (20%Q, ImportSettled 0); (30%Q, Start); (130%Q, TimeoutFired 2);
         (230%Q, TimeoutFired 3)]
        (mount 0 None) = Some s
    /\ currentIndex s = 2
    /\ step 240 (Remove "a") s = Some s'
    /\ valid_index s'.
Proof.
  cbv zeta.
  set (tr0 := [(10%Q, FilesPicked [mkFile "a" (Some "data:"%string) "blob:" "a";
                                   mkFile "b" (Some "data:"%string) "blob:" "b";
                                   mkFile "c" (Some "data:"%string) "blob:" "c"]);
               (20%Q, ImportSettled 0); (30%Q, Start); (130%Q, TimeoutFired 2);
               (230%Q, TimeoutFired 3)]).
  assert (H : exists s s',
             run tr0 (mount 0 None) = Some s
             /\ step 240 (Remove "a") s = Some s'
             /\ currentIndex s = 2 /\ length (images s) = 3).
  { do 2 eexists. split; [vm_compute; reflexivity|].
    split; [vm_compute; reflexivity|]. split; reflexivity. }
  destruct H as (s & s' & Hs & H1 & Hi & Hl).
  exists s, s'. split; [exact Hs|]. split; [exact Hi|]. split; [exact H1|].
  apply (index_stays_valid 0 240 (Remove "a") s s'
           (ex_intro _ None (ex_intro _ tr0 Hs))).
  - right. lia.
  - exact H1.
  - intros objectUrl E. discriminate E.
Defined.

(** *** The closures of the armed timeouts *)








(** *** Spacing of the advances *)

Lemma clamp_shape (v : number) :
  clampedInterval v = NaN \/ exists q, clampedInterval v = Num q.
Proof.
  unfold clampedInterval, clamp, Math_min, Math_max, MIN_INTERVAL, MAX_INTERVAL.
  destruct v as [| |q|]; cbn; auto.
  - right. eauto.
  - destruct (Qle_bool q 16); cbn.
    + right. eauto.
    + destruct (Qle_bool q 10000); right; eauto.
  - right. eauto.
Qed.

Lemma clamp_Num_range (v : number) (q : Q) :
  clampedInterval v = Num q -> (16 <= q /\ q <= 10000)%Q.
Proof.
  intros E. destruct v as [| |p|]; try discriminate E;
    [pose proof (clamp_in_range NegInf) as H
    |pose proof (clamp_in_range (Num p)) as H
    |pose proof (clamp_in_range PosInf) as H];
    unfold clampedInterval in E; rewrite E in H; apply H; discriminate.
Qed.


(** Before [due], a scheduler callback does not advance, and the state it
    leaves is quiet as well. *)
Lemma quiet_step (t0 due now : Q) (e : event) (s s' : State) :
  Inv t0 s -> Quiet due s -> scheduler_callback e = true ->
  (now < due)%Q -> step now e s = Some s' ->
  Quiet due s' /\ advances s' = advances s /\ currentIndex s' = currentIndex s.
Proof.
  intros I [Qt Qf] Hcb Hlt Hs.
  apply step_clock in Hs as (Hn & s1 & H & ->).
  unfold Quiet. cbn [timeouts frames advances currentIndex set_clock].
  destruct e; try discriminate Hcb.
  - destruct (find (fun t => to_id t =? i) (timeouts s)) as [t|] eqn:Hf;
      [|unfold handle in H; rewrite Hf in H; discriminate].
    destruct (Qle_bool (to_due t) now) eqn:Hd;
      [|unfold handle in H; rewrite Hf, Hd in H; discriminate].
    destruct (find_timeout s i t Hf) as [Hin _].
    destruct (to_cb t) as [c imgs|len c] eqn:Hc.
    + rewrite (save_fired_eq now s i t c imgs Hf Hd Hc) in H.
      inversion H; subst. cbn [timeouts frames advances currentIndex].
      repeat split; auto.
      intros t' Hin' K. apply filter_In in Hin' as [Hin' _]. auto.
    + exfalso. apply Qle_bool_iff in Hd.
      assert (K : is_tick t = true) by (unfold is_tick; now rewrite Hc).
      pose proof (Qt t Hin K). lra.
  - destruct (find (fun f => fr_id f =? i) (frames s)) as [f|] eqn:Hf;
      [|unfold handle in H; rewrite Hf in H; discriminate].
    destruct (find_frame s i f Hf) as [Hin _].
    destruct (cur_frame _ _ _ _ (inv_current _ _ I) f Hin) as (Hp & _).
    pose proof (frame_fired_eq now s i f Hf Hp) as E. cbv zeta in E.
    rewrite E in H. rewrite (Qf f now Hin Hlt) in H.
    inversion H; subst. cbn [timeouts frames advances currentIndex].
    repeat split; auto.
    intros f' later Hin' Hl. apply in_app_or in Hin' as [Hin'|[<-|[]]].
    + apply filter_In in Hin' as [Hin' _]. auto.
    + cbn [fr_start fr_clamped]. auto.
  - destruct (find (fun t => to_id t =? i) (timeouts s)) as [t|] eqn:Hf;
      [|unfold handle in H; rewrite Hf in H; discriminate].
    destruct (Qle_bool (to_due t) now) eqn:Hd;
      [|unfold handle in H; rewrite Hf, Hd in H; discriminate].
    destruct (to_cb t) as [c imgs|len c] eqn:Hc;
      [|unfold handle in H; rewrite Hf, Hd, Hc in H; discriminate].
    rewrite (save_failed_eq now s i t c imgs Hf Hd Hc) in H.
    inversion H; subst. cbn [timeouts frames advances currentIndex].
    repeat split; auto.
    intros t' Hin' K. apply filter_In in Hin' as [Hin' _]. auto.
Qed.

Lemma quiet_run (t0 due : Q) (tr : list (Q * event)) :
  forall s s', Inv t0 s -> Quiet due s ->
    Forall (fun te => scheduler_callback (snd te) = true /\ (fst te < due)%Q) tr ->
    run tr s = Some s' ->
    advances s' = advances s /\ currentIndex s' = currentIndex s.
Proof.
  induction tr as [|[t e] tr IH]; intros s s' I Qu Hall H; cbn in H.
  - inversion H; subst. auto.
  - inversion Hall as [|? ? [Hcb Hlt] Hall']; subst. cbn in Hcb, Hlt.
    destruct (step t e s) as [s1|] eqn:Es; [|discriminate].
    pose proof (step_Inv t0 t e s s1 I Es) as I1.
    destruct (quiet_step t0 due t e s s1 I Qu Hcb Hlt Es) as (Q1 & A & B).
    destruct (IH s1 s' I1 Q1 Hall' H) as [A' B']. split; congruence.
Qed.




(** *** Imports *)

Lemma promise_all_None {A : Type} (l : list (option A)) :
  promise_all l = None <-> In None l.
Proof.
  induction l as [|[x|] l IH]; cbn.
  - split; [discriminate|contradiction].
  - destruct (promise_all l) as [r|].
    + split; [discriminate|]. intros [H|H]; [discriminate|].
      now apply IH in H.
    + split; [|reflexivity]. intros _. right. now apply IH.
  - split; auto.
Qed.

Lemma in_firstn {A : Type} (n : nat) (l : list A) (x : A) :
  In x (firstn n l) -> In x l.
Proof.
  intros H. rewrite <- (firstn_skipn n l). apply in_or_app. now left.
Qed.

Lemma promise_all_length {A : Type} (l : list (option A)) (r : list A) :
  promise_all l = Some r -> length r = length l.
Proof.
  intros H. apply promise_all_Some in H. subst. now rewrite length_map.
Qed.

(** X5.  An import is all or nothing for the collection.  [handleFiles]
    fails exactly when the read of one of the files within capacity fails
    (a file beyond capacity is never read); and when the reads of a call
    in flight settle with a failure, the call ends there: the collection,
    the index, the notices, the armed timers and the persistence history
    stay as they are, only the call is over.  It is not all or nothing for
    the browser: an object URL has been created for every file of the call
    that was read, and the collection, unchanged, has taken none of them
    in. *)
Theorem failed_read_aborts_import (now : Q) (s s' : State) (k : nat)
        (job : ImportJob) :
  nth_error (imports s) k = Some job ->
  (exists f, In f (job_selected job) /\ file_read f = None) ->
  step now (ImportSettled k) s = Some s' ->
  (forall images files,
      handleFiles images files = None <->
      exists f, In f (selectFiles (length images) files) /\ file_read f = None)
  /\ images s' = images s /\ currentIndex s' = currentIndex s
  /\ alerts s' = alerts s /\ timeouts s' = timeouts s
  /\ savelog s' = savelog s /\ store s' = store s
  /\ imports s' = remove_nth k (imports s)
  /\ createdUrls [(now, ImportSettled k)] s = createdByImport (job_selected job)
  /\ (forall u, In u (createdByImport (job_selected job)) <->
                exists f, In f (job_selected job) /\ file_read f <> None
                          /\ file_objectUrl f = u)
  /\ collections [(now, ImportSettled k)] s = [images s; images s].
Proof.
  intros Hj (f & Hin & Hr) Hs.
  assert (Hiff : forall sel, promise_all (map importFile sel) = None <->
                             exists f, In f sel /\ file_read f = None).
  { intros sel. rewrite promise_all_None, in_map_iff. unfold importFile.
    split; intros (x & A & B); exists x.
    - destruct (file_read x); [discriminate|auto].
    - rewrite B. auto. }
  split.
  { intros images files. rewrite <- Hiff. unfold handleFiles, handleFiles_outcome.
    destruct (promise_all _); split; congruence. }
  assert (Hc : createdUrls [(now, ImportSettled k)] s
               = createdByImport (job_selected job)).
  { cbn [createdUrls created]. rewrite Hs, Hj. apply app_nil_r. }
  assert (Hu : forall u, In u (createdByImport (job_selected job)) <->
                         exists f, In f (job_selected job) /\ file_read f <> None
                                   /\ file_objectUrl f = u).
  { intros u. unfold createdByImport. rewrite in_map_iff. split.
    - intros (x & A & B). apply filter_In in B as [B C]. exists x.
      split; [exact B|]. split; [|exact A].
      destruct (file_read x); [discriminate|discriminate C].
    - intros (x & A & B & C). exists x. split; [exact C|].
      apply filter_In. split; [exact A|].
      destruct (file_read x); [reflexivity|congruence]. }
  assert (Hl : collections [(now, ImportSettled k)] s = [images s; images s']).
  { cbn [collections]. now rewrite Hs. }
  apply step_clock in Hs as (_ & s1 & H & ->).
  unfold handle in H. rewrite Hj in H. unfold handleFiles_outcome in H.
  rewrite (proj2 (Hiff (job_selected job))) in H by eauto.
  inversion H; subst. repeat split; try reflexivity; auto; apply Hu.
Qed.

Lemma failed_read_aborts_import_witness :
  exists s s',
    run [(10%Q, FilesPicked [mkFile "a" (Some "data:"%string) "blob:a" "1";
                             mkFile "b" None "blob:b" "2"])]
        (mount 0 None) = Some s
    /\ step 20 (ImportSettled 0) s = Some s'
    /\ images s' = [] /\ alerts s' = [] /\ imports s' = []
    /\ createdUrls [(20%Q, ImportSettled 0)] s = ["blob:a"%string].
Proof.
  set (tr0 := [(10%Q, FilesPicked [mkFile "a" (Some "data:"%string) "blob:a" "1";
                                   mkFile "b" None "blob:b" "2"])]).
  assert (H : exists s s' job,
             run tr0 (mount 0 None) = Some s
             /\ step 20 (ImportSettled 0) s = Some s'
             /\ nth_error (imports s) 0 = Some job
             /\ In (mkFile "b" None "blob:b" "2") (job_selected job)
             /\ images s = [] /\ alerts s = [] /\ imports s = [job]
             /\ createdByImport (job_selected job) = ["blob:a"%string]).
  { do 3 eexists. split; [vm_compute; reflexivity|].
    split; [vm_compute; reflexivity|].
    split; [vm_compute; reflexivity|].
    split; [right; left; reflexivity|]. repeat split; reflexivity. }
  destruct H as (s & s' & job & Hs & H1 & Hj & Hin & Hi & Ha & Hm & Hc).
  exists s, s'. split; [exact Hs|]. split; [exact H1|].
  destruct (failed_read_aborts_import 20 s s' 0 job Hj
              (ex_intro _ _ (conj Hin eq_refl)) H1)
    as (_ & A & _ & B & _ & _ & _ & C & D & _).
  rewrite A, B, C, D, Hi, Ha, Hm, Hc. repeat split; reflexivity.
Defined.

Lemma import_settled_step (t0 now : Q) (s s' : State) (k : nat) (job : ImportJob) :
  Inv t0 s -> nth_error (imports s) k = Some job ->
  (forall f, In f (job_selected job) -> file_read f <> None) ->
  step now (ImportSettled k) s = Some s' ->
  exists next,
    promise_all (map importFile (job_selected job)) = Some next
    /\ images s' = images s ++ next
    /\ imports s' = remove_nth k (imports s)
    /\ currentIndex s' = currentIndex s.
Proof.
  intros I Hj Hall Hs.
  apply step_clock in Hs as (Hn & s1 & H & ->).
  unfold handle in H. rewrite Hj in H. unfold handleFiles_outcome in H.
  destruct (promise_all (map importFile (job_selected job))) as [next|] eqn:E.
  - exists next. split; [reflexivity|]. inversion H; subst. clear H.
    cbn [images imports currentIndex set_clock].
    match goal with |- context [commit now s true ?x] =>
      destruct (commit_update t0 now s x true I Hn) as [_ U] end.
    { cbn [io_alert]. destruct (_ <? _); same_tac. }
    rewrite (su_images _ _ U), (su_imports _ _ U), (su_currentIndex _ _ U).
    cbn [io_alert io_next]. destruct (_ <? _); repeat split; reflexivity.
  - exfalso. apply promise_all_None, in_map_iff in E as (f & A & B).
    apply (Hall f B). unfold importFile in A. now destruct (file_read f).
Qed.

(** X6.  The capacity is computed when the files are picked, from the
    collection of that time.  Two imports whose reads overlap are each
    measured against the collection as it was before either: both batches
    are appended, in the order in which their reads settle, each cut to
    the room there was when it was picked, so that together they can take
    the collection beyond [MAX_IMAGES]. *)
Theorem overlapping_imports_both_append (t0 t1 t2 t3 t4 : Q) (s s' : State)
        (files1 files2 : list File) (secondFirst : bool) :
  reachable t0 s -> imports s = [] ->
  (forall f, In f (files1 ++ files2) -> file_read f <> None) ->
  run [(t1, FilesPicked files1); (t2, FilesPicked files2);
       (t3, ImportSettled (if secondFirst then 1 else 0));
       (t4, ImportSettled 0)] s = Some s' ->
  exists next1 next2,
    promise_all (map importFile (selectFiles (length (images s)) files1))
    = Some next1
    /\ promise_all (map importFile (selectFiles (length (images s)) files2))
       = Some next2
    /\ images s' = images s ++ (if secondFirst then next2 ++ next1
                                else next1 ++ next2)
    /\ length (images s')
       = length (images s)
         + Nat.min (length files1) (MAX_IMAGES - length (images s))
         + Nat.min (length files2) (MAX_IMAGES - length (images s)).
Proof.
  intros R Hm Hall H. apply reachable_Inv in R. cbn [run] in H.
  destruct (step t1 (FilesPicked files1) s) as [a|] eqn:E1; [|discriminate].
  destruct (step t2 (FilesPicked files2) a) as [b|] eqn:E2; [|discriminate].
  destruct (step t3 (ImportSettled (if secondFirst then 1 else 0)) b)
    as [c|] eqn:E3; [|discriminate].
  destruct (step t4 (ImportSettled 0) c) as [d|] eqn:E4; [|discriminate].
  inversion H; subst d. clear H.
  pose proof (step_Inv _ _ _ _ _ R E1) as Ia.
  pose proof (step_Inv _ _ _ _ _ Ia E2) as Ib.
  pose proof (step_Inv _ _ _ _ _ Ib E3) as Ic.
  apply step_clock in E1 as (_ & x & Hx & ->).
  unfold handle in Hx. inversion Hx; subst x. clear Hx.
  apply step_clock in E2 as (_ & x & Hx & ->).
  unfold handle in Hx. inversion Hx; subst x. clear Hx.
  cbn [images imports set_imports set_clock] in *. rewrite Hm in *.
  cbn [app] in *.
  set (j1 := mkImportJob (selectFiles (length (images s)) files1) (length files1)) in *.
  set (j2 := mkImportJob (selectFiles (length (images s)) files2) (length files2)) in *.
  assert (H1 : forall f, In f (job_selected j1) -> file_read f <> None).
  { intros f Hf. apply Hall, in_or_app. left.
    unfold j1, selectFiles in Hf. cbn in Hf. eapply in_firstn; eauto. }
  assert (H2 : forall f, In f (job_selected j2) -> file_read f <> None).
  { intros f Hf. apply Hall, in_or_app. right.
    unfold j2, selectFiles in Hf. cbn in Hf. eapply in_firstn; eauto. }
  destruct secondFirst.
  - destruct (import_settled_step t0 t3 _ c 1 j2 Ib eq_refl H2 E3)
      as (n2 & P2 & A2 & B2 & _).
    cbn [images imports set_imports set_clock remove_nth firstn skipn app] in A2, B2.
    destruct (import_settled_step t0 t4 c s' 0 j1 Ic) as (n1 & P1 & A1 & B1 & _);
      [now rewrite B2|exact H1|exact E4|].
    exists n1, n2. cbn [job_selected j1 j2] in P1, P2.
    split; [exact P1|]. split; [exact P2|].
    split; [rewrite A1, A2, <- app_assoc; reflexivity|].
    rewrite A1, A2, !length_app.
    rewrite (promise_all_length _ _ P1), (promise_all_length _ _ P2), !length_map,
      !selectFiles_length. lia.
  - destruct (import_settled_step t0 t3 _ c 0 j1 Ib eq_refl H1 E3)
      as (n1 & P1 & A1 & B1 & _).
    cbn [images imports set_imports set_clock remove_nth firstn skipn app] in A1, B1.
    destruct (import_settled_step t0 t4 c s' 0 j2 Ic) as (n2 & P2 & A2 & B2 & _);
      [now rewrite B1|exact H2|exact E4|].
    exists n1, n2. cbn [job_selected j1 j2] in P1, P2.
    split; [exact P1|]. split; [exact P2|].
    split; [rewrite A2, A1, <- app_assoc; reflexivity|].
    rewrite A2, A1, !length_app.
    rewrite (promise_all_length _ _ P1), (promise_all_length _ _ P2), !length_map,
      !selectFiles_length. lia.
Qed.

Lemma overlapping_imports_both_append_witness :
  let batch1 := repeat (mkFile "a" (Some "data:a"%string) "blob:a" "1") 30 in
  let batch2 := repeat (mkFile "b" (Some "data:b"%string) "blob:b" "2") 30 in
  exists s',
    run [(10%Q, FilesPicked batch1); (11%Q, FilesPicked batch2);
         (20%Q, ImportSettled 1); (21%Q, ImportSettled 0)]
        (mount 0 None) = Some s'
    /\ length (images s') = 60
    /\ map name (images s') = repeat "b"%string 30 ++ repeat "a"%string 30.
Proof.
  cbv zeta.
  set (batch1 := repeat (mkFile "a" (Some "data:a"%string) "blob:a" "1") 30).
  set (batch2 := repeat (mkFile "b" (Some "data:b"%string) "blob:b" "2") 30).
  assert (H : exists s',
             run [(10%Q, FilesPicked batch1); (11%Q, FilesPicked batch2);
                  (20%Q, ImportSettled 1); (21%Q, ImportSettled 0)]
                 (mount 0 None) = Some s').
  { eexists. vm_compute. reflexivity. }
  destruct H as (s' & Hs). exists s'. split; [exact Hs|].
  destruct (overlapping_imports_both_append 0 10 11 20 21 (mount 0 None) s'
              batch1 batch2 true)
    as (n1 & n2 & P1 & P2 & A & L).
  - exists None, []. reflexivity.
  - vm_compute. reflexivity.
  - intros f Hf. apply in_app_or in Hf as [Hf|Hf];
      apply repeat_spec in Hf; subst; discriminate.
  - exact Hs.
  - split; [rewrite L; vm_compute; reflexivity|].
    rewrite A. vm_compute in P1, P2. inversion P1; subst n1.
    inversion P2; subst n2. vm_compute. reflexivity.
Defined.

(** *** What is saved *)

Lemma Saved_same (s s' : State) :
  savelog s' = savelog s -> store s' = store s -> images s' = images s ->
  intervalMs s' = intervalMs s -> Saved s -> Saved s'.
Proof.
  unfold Saved, snapshot_of. intros -> -> -> ->. auto.
Qed.

Lemma commit_Saved (now : Q) (old s2 : State) (ch : bool)
      (p : bool) (n : nat) (iv : number) :
  Structural s2 -> Current p n iv s2 -> Saved old ->
  savelog s2 = savelog old -> store s2 = store old ->
  (ch = false -> images s2 = images old) ->
  Saved (commit now old ch s2).
Proof.
  intros St Cu Sv El Es Ei. unfold commit.
  set (cChanged := negb (same_value (clampedInterval (intervalMs old))
                           (clampedInterval (intervalMs s2)))).
  set (b1 := ch || cChanged).
  assert (H1 : exists s1,
             (if b1 then saveEffect now s2 else s2) = s1
             /\ Structural s1 /\ Current p n iv s1 /\ Saved s1).
  { destruct b1 eqn:Eb.
    - exists (saveEffect now s2). split; [reflexivity|].
      split; [now apply saveEffect_Structural|].
      split; [now apply saveEffect_Current|].
      rewrite (saveEffect_eq now s2 St). unfold Saved, snapshot_of.
      cbn [savelog images intervalMs store]. rewrite last_ev_snoc.
      split; [reflexivity|]. eexists. split; [reflexivity|].
      apply same_value_refl.
    - exists s2. split; [reflexivity|]. split; [exact St|]. split; [exact Cu|].
      apply orb_false_iff in Eb as [-> Ec]. apply negb_false_iff in Ec.
      specialize (Ei eq_refl). unfold Saved, snapshot_of in *.
      rewrite El, Es, Ei.
      destruct (last_ev None (savelog old)) as [[t q|t q|t q]|]; [| | |exact Sv].
      + destruct Sv as (A & c & B & C). split; [exact A|]. exists c.
        split; [exact B|]. eapply same_value_trans; eauto.
      + destruct Sv as ((A & c & B & C) & D). split; [|exact D].
        split; [exact A|]. exists c.
        split; [exact B|]. eapply same_value_trans; eauto.
      + destruct Sv as (A & c & B & C). split; [exact A|]. exists c.
        split; [exact B|]. eapply same_value_trans; eauto. }
  destruct H1 as (s1 & -> & St1 & Cu1 & Sv1).
  match goal with |- context [if ?b then _ else _] => destruct b end;
    [|exact Sv1].
  rewrite (playbackEffect_eq now s1 St1 (cur_cleanup _ _ _ _ Cu1)).
  revert Sv1. apply Saved_same; reflexivity.
Qed.

Lemma commit_update_Saved (t0 now : Q) (s s2 : State) (ch : bool) :
  Inv t0 s -> Saved s -> same_timers s s2 -> store s2 = store s ->
  (ch = false -> images s2 = images s) ->
  Saved (commit now s ch s2).
Proof.
  intros I Sv Sm Es Ei.
  apply (commit_Saved now s s2 ch (isPlaying s) (length (images s)) (intervalMs s));
    auto.
  - apply (Structural_same s); auto. apply I.
  - apply (Current_same _ _ _ s); auto. apply I.
  - apply Sm.
Qed.

Lemma handleStop_Saved (t0 now : Q) (s : State) :
  Inv t0 s -> Saved s -> Saved (handleStop now s).
Proof.
  intros I Sv. pose proof (inv_structural _ _ I) as St. unfold handleStop.
  apply (commit_Saved now s _ false false 0 (intervalMs s)); auto.
  - apply (Structural_same (clearTimers s)); [same_tac|].
    now apply clearTimers_Structural.
  - apply idle_Current. exact (clearTimers_idle s St).
  - cbn [savelog set_isPlaying]. now rewrite (clearTimers_eq s St).
  - cbn [store set_isPlaying]. now rewrite (clearTimers_eq s St).
  - intros _. cbn [images set_isPlaying]. now rewrite (clearTimers_eq s St).
Qed.

Lemma handleStart_Saved (t0 now : Q) (s : State) :
  Inv t0 s -> Saved s -> Saved (handleStart now s).
Proof.
  intros I Sv. unfold handleStart.
  destruct (length (images s) =? 0); [exact Sv|].
  apply (commit_update_Saved t0); auto. same_tac.
Qed.

Lemma handle_Saved (t0 now : Q) (e : event) (s s1 : State) :
  Inv t0 s -> Saved s -> handle now e s = Some s1 -> Saved s1.
Proof.
  intros I Sv H.
  destruct e as [| |objectUrl|files|k|rid| | | |value|index|index| |i|i|i];
    unfold handle in H.
  - destruct (load s) as [[session|]| |]; try discriminate;
      inversion H; subst; revert Sv; apply Saved_same; reflexivity.
  - destruct (load s); try discriminate. inversion H; subst.
    revert Sv; apply Saved_same; reflexivity.
  - destruct (load s) as [|session|]; try discriminate.
    destruct (restoreImages objectUrl session) as [restored|];
      inversion H; subst.
    + apply (commit_update_Saved t0); auto; try same_tac. discriminate.
    + revert Sv; apply Saved_same; reflexivity.
  - inversion H; subst. revert Sv; apply Saved_same; reflexivity.
  - destruct (nth_error (imports s) k) as [job|]; try discriminate.
    destruct (handleFiles_outcome (job_selected job) (job_attempted job)) as [o|];
      inversion H; subst.
    + apply (commit_update_Saved t0); auto;
        destruct (io_alert o); try same_tac; try reflexivity; discriminate.
    + revert Sv; apply Saved_same; reflexivity.
  - destruct (handleRemove rid (images s) (currentIndex s)) as [next idx].
    inversion H; subst.
    apply (commit_update_Saved t0); auto; try same_tac. discriminate.
  - inversion H; subst. now apply (handleStart_Saved t0).
  - inversion H; subst. now apply (handleStop_Saved t0).
  - destruct (length (images s) =? 0); [inversion H; subst; exact Sv|].
    destruct (isPlaying s); inversion H; subst.
    + now apply (handleStop_Saved t0).
    + now apply (handleStart_Saved t0).
  - inversion H; subst. apply (commit_update_Saved t0); auto; same_tac.
  - destruct (index <? length (images s)); inversion H; subst.
    revert Sv; apply Saved_same; reflexivity.
  - destruct (index <? length (images s)); inversion H; subst.
    revert Sv; apply Saved_same; reflexivity.
  - destruct (defined_all _) as [imgs|] eqn:Ed; inversion H; subst.
    apply (commit_update_Saved t0); auto; try same_tac.
    intros Ec. cbn [images set_currentIndex set_images].
    unfold onDragEnd in Ed. cbn [d_dragItem d_dragOverItem d_images] in Ed.
    destruct (dragItem s) as [a|]; [destruct (dragOverItem s) as [b|];
                                    [destruct (a =? b); [|discriminate Ec]|]|];
      cbn [d_images] in Ed; now apply defined_all_inj in Ed.
  - destruct (find (fun t => to_id t =? i) (timeouts s)) as [t|] eqn:Hf;
      [|discriminate].
    destruct (Qle_bool (to_due t) now) eqn:Hd; [|discriminate].
    destruct (find_timeout s i t Hf) as [Hin Hid].
    destruct (to_cb t) as [c imgs|len c] eqn:Hcb.
    + inversion H; subst. clear H.
      assert (K : is_save t = true) by (unfold is_save; now rewrite Hcb).
      pose proof (lg_pending _ _ _ (inv_logged _ _ I)) as P.
      unfold Saved, snapshot_of in *.
      cbn [savelog store images intervalMs set_store set_savelog clearTimeout
           set_timeouts set_timeoutRef].
      assert (Hl : savelog (clearTimeout (to_id t) s) = savelog s).
      { unfold clearTimeout. reflexivity. }
      rewrite last_ev_snoc.
      destruct (last_ev None (savelog s)) as [[tq q|tq q|tq q]|].
      * destruct P as (i' & c' & imgs' & Hin' & ->).
        assert (Et : mkTimeout i' (tq + SAVE_DEBOUNCE_MS) (SaveCb c' imgs') = t).
        { apply (NoDup_map_eq to_id (timeouts s)); auto.
          - apply (inv_structural _ _ I).
          - pose proof (st_saves_ref s (inv_structural _ _ I) t Hin K) as R1.
            pose proof (st_saves_ref s (inv_structural _ _ I) _ Hin' eq_refl) as R2.
            congruence. }
        rewrite <- Et in Hcb. cbn in Hcb. inversion Hcb; subst c' imgs'.
        split; [exact Sv|reflexivity].
      * rewrite (P t Hin) in K. discriminate.
      * rewrite (P t Hin) in K. discriminate.
      * rewrite (P t Hin) in K. discriminate.
    + pose proof (tick_fired_eq now s i t len c Hf Hd Hcb) as Eq.
      unfold handle in Eq. rewrite Hf, Hd, Hcb in Eq. rewrite Eq in H.
      inversion H; subst. revert Sv; apply Saved_same; reflexivity.
  - destruct (find (fun f => fr_id f =? i) (frames s)) as [f|] eqn:Hf;
      [|discriminate].
    destruct (find_frame s i f Hf) as [Hin _].
    destruct (cur_frame _ _ _ _ (inv_current _ _ I) f Hin) as (P0 & _).
    pose proof (frame_fired_eq now s i f Hf P0) as Eq. cbv zeta in Eq.
    unfold handle in Eq. rewrite Hf in Eq. rewrite Eq in H.
    inversion H; subst. revert Sv; apply Saved_same; reflexivity.
  - destruct (find (fun t => to_id t =? i) (timeouts s)) as [t|] eqn:Hf;
      [|discriminate].
    destruct (Qle_bool (to_due t) now) eqn:Hd; [|discriminate].
    destruct (find_timeout s i t Hf) as [Hin Hid].
    destruct (to_cb t) as [c imgs|len c] eqn:Hcb; [|discriminate].
    inversion H; subst. clear H.
    assert (K : is_save t = true) by (unfold is_save; now rewrite Hcb).
    pose proof (lg_pending _ _ _ (inv_logged _ _ I)) as P.
    unfold Saved, snapshot_of in *.
    cbn [savelog store images intervalMs set_store set_savelog clearTimeout
         set_timeouts set_timeoutRef].
    rewrite last_ev_snoc.
    destruct (last_ev None (savelog s)) as [[tq q|tq q|tq q]|].
    + destruct P as (i' & c' & imgs' & Hin' & ->).
      assert (Et : mkTimeout i' (tq + SAVE_DEBOUNCE_MS) (SaveCb c' imgs') = t).
      { apply (NoDup_map_eq to_id (timeouts s)); auto.
        - apply (inv_structural _ _ I).
        - pose proof (st_saves_ref s (inv_structural _ _ I) t Hin K) as R1.
          pose proof (st_saves_ref s (inv_structural _ _ I) _ Hin' eq_refl) as R2.
          congruence. }
      rewrite <- Et in Hcb. cbn in Hcb. inversion Hcb; subst c' imgs'.
      exact Sv.
    + rewrite (P t Hin) in K. discriminate.
    + rewrite (P t Hin) in K. discriminate.
    + rewrite (P t Hin) in K. discriminate.
Qed.

Lemma run_Saved (t0 : Q) (tr : list (Q * event)) :
  forall s s', Inv t0 s -> Saved s -> run tr s = Some s' -> Saved s'.
Proof.
  induction tr as [|[t e] tr IH]; intros s s' I C H; cbn in H.
  - now inversion H; subst.
  - destruct (step t e s) as [s1|] eqn:Es; [|discriminate].
    pose proof (step_Inv t0 t e s s1 I Es) as I1.
    apply (IH s1 s' I1); auto.
    apply step_clock in Es as (Hn & s1' & Hh & ->).
    pose proof (handle_Saved t0 t e s s1' I C Hh) as Sv.
    revert Sv; apply Saved_same; reflexivity.
Qed.

Lemma reachable_Saved (t0 : Q) (s : State) : reachable t0 s -> Saved s.
Proof.
  intros (stored & tr & H).
  apply (run_Saved t0 tr (mount t0 stored) s); auto using mount_Inv.
  unfold mount.
  set (s0 := mkState [] (Num 100) false 0 None None None None None false
               [] [] 0 stored (LoadPending stored) [] [] [] 0 t0).
  pose proof (blank_Structural t0 stored) as St0. fold s0 in St0.
  pose proof (saveEffect_Structural t0 s0 St0) as St1.
  assert (Id0 : ~ playback_pending s0).
  { intros [(t & Hin & _)|K]; [destruct Hin|now apply K]. }
  pose proof (saveEffect_Current t0 false 0 (Num 100) s0 St0
                (idle_Current _ _ _ s0 Id0)) as Cu1.
  rewrite (playbackEffect_eq t0 _ St1 (cur_cleanup _ _ _ _ Cu1)).
  rewrite (saveEffect_eq t0 s0 St0).
  unfold Saved, snapshot_of. cbn -[clampedInterval].
  split; [reflexivity|]. eexists. split; [reflexivity|]. apply same_value_refl.
Qed.



(** *** Saving and restoring *)

Lemma clamp_idem (v : number) : clamp (clamp v) = clamp v.
Proof.
  unfold clamp, Math_min, Math_max, MIN_INTERVAL, MAX_INTERVAL.
  destruct v as [| |q|]; cbn; try reflexivity.
  destruct (Qle_bool q 16) eqn:E1; cbn; [reflexivity|].
  destruct (Qle_bool q 10000) eqn:E2; cbn; [|reflexivity].
  rewrite E1. cbn. rewrite E2. reflexivity.
Qed.

Lemma Qle_bool_comp_l (p q r : Q) : (p == q)%Q -> Qle_bool p r = Qle_bool q r.
Proof.
  intros H. destruct (Qle_bool p r) eqn:E1, (Qle_bool q r) eqn:E2; try reflexivity.
  - apply Qle_bool_iff in E1. rewrite H in E1. apply Qle_bool_iff in E1. congruence.
  - apply Qle_bool_iff in E2. rewrite <- H in E2. apply Qle_bool_iff in E2. congruence.
Qed.

Lemma clamp_same_value (a b : number) :
  same_value a b = true -> same_value (clamp a) (clamp b) = true.
Proof.
  destruct a as [| |p|], b as [| |q|]; cbn; try discriminate; try reflexivity.
  intros H. apply Qeq_bool_iff in H.
  unfold clamp, Math_min, Math_max, MIN_INTERVAL, MAX_INTERVAL. cbn.
  rewrite (Qle_bool_comp_l p q 16 H).
  destruct (Qle_bool q 16); cbn; [reflexivity|].
  rewrite (Qle_bool_comp_l p q 10000 H).
  destruct (Qle_bool q 10000); cbn; [|reflexivity].
  now apply Qeq_bool_iff.
Qed.

(** X8.  Restoring a snapshot the component wrote and saving again gives the
    same snapshot back: for a collection within [MAX_IMAGES], a restore
    whose derivations succeed brings back the identifiers, names and
    contents in order and the clamped interval, and the payload built from
    the restored state is the payload that was stored.  The derivations
    succeeding is all it takes for the restore to succeed. *)
Theorem restore_then_save_is_identity
        (objectUrl : nat -> SessionImage -> option string)
        (v : number) (imgs restored : list ImageItem) :
  length imgs <= MAX_IMAGES ->
  restoreImages objectUrl (savePayload (clampedInterval v) imgs) = Some restored ->
  map toSessionImage restored = map toSessionImage imgs
  /\ restoreInterval (savePayload (clampedInterval v) imgs) = clampedInterval v
  /\ savePayload
       (clampedInterval (restoreInterval (savePayload (clampedInterval v) imgs)))
       restored
     = savePayload (clampedInterval v) imgs
  /\ ((forall k img, objectUrl k img <> None) ->
      forall session, exists r, restoreImages objectUrl session = Some r).
Proof.
  intros Hl H. apply restoreImages_sound in H. cbn [sd_images savePayload] in H.
  rewrite firstn_all2 in H by (rewrite length_map; exact Hl).
  assert (Hi : restoreInterval (savePayload (clampedInterval v) imgs)
               = clampedInterval v).
  { unfold restoreInterval. cbn [sd_intervalMs savePayload].
    unfold clampedInterval. apply clamp_idem. }
  split; [exact H|]. split; [exact Hi|]. split.
  - rewrite Hi. unfold savePayload, clampedInterval. now rewrite clamp_idem, H.
  - intros Hall session. now apply restoreImages_total.
Qed.

Lemma restore_then_save_is_identity_witness :
  let a := mkImageItem "1" "a.png" "blob:old" "data:a" in
  let u := fun (k : nat) (img : SessionImage) => Some "blob:new"%string in
  exists restored,
    restoreImages u (savePayload (clampedInterval (Num 5)) [a]) = Some restored
    /\ savePayload (clampedInterval (Num 16)) restored
       = savePayload (clampedInterval (Num 5)) [a].
Proof.
  cbv zeta.
  assert (H : exists restored,
             restoreImages (fun _ _ => Some "blob:new"%string)
               (savePayload (clampedInterval (Num 5))
                  [mkImageItem "1" "a.png" "blob:old" "data:a"])
             = Some restored).
  { eexists. vm_compute. reflexivity. }
  destruct H as (restored & Hr). exists restored. split; [exact Hr|].
  assert (Hl : length [mkImageItem "1" "a.png" "blob:old" "data:a"] <= MAX_IMAGES).
  { unfold MAX_IMAGES. cbn. lia. }
  destruct (restore_then_save_is_identity _ (Num 5) _ restored Hl Hr)
    as (_ & E & F & _).
  rewrite E in F. exact F.
Defined.

(** X9.  Closing and reopening.  When the last entry of the persistence
    history is a write that resolved (no save is pending, and the last
    call of [saveSession] was not rejected), the store holds the current
    snapshot; a component mounted over that store, once its load and the
    derivations of the object URLs have settled, shows the same entries in
    the same order (identifier, name, content) and the same clamped
    interval, stopped at index 0 - provided the collection was within
    [MAX_IMAGES] and the derivations succeed. *)
Theorem reopen_restores_session (t0 t0' t1 t2 tw : Q) (s s2 : State)
        (pw : SessionData)
        (objectUrl : nat -> SessionImage -> option string) :
  reachable t0 s -> last_ev None (savelog s) = Some (Wr tw pw) ->
  length (images s) <= MAX_IMAGES ->
  (forall k img, objectUrl k img <> None) ->
  run [(t1, LoadGot); (t2, LoadDerived objectUrl)] (mount t0' (store s)) = Some s2 ->
  store s = Some pw
  /\ ~ save_pending s
  /\ map toSessionImage (images s2) = map toSessionImage (images s)
  /\ same_value (intervalMs s2) (clampedInterval (intervalMs s)) = true
  /\ currentIndex s2 = 0 /\ isPlaying s2 = false /\ load s2 = LoadSettled.
Proof.
  intros R Hw Hl Hall H.
  pose proof (reachable_Saved t0 s R) as Sv.
  apply reachable_Inv in R.
  pose proof (lg_pending _ _ _ (inv_logged _ _ R)) as P. unfold Saved in Sv.
  rewrite Hw in Sv, P.
  destruct Sv as ((Ei & c & Ec & Es) & Est).
  split; [exact Est|]. split.
  { intros (x & Hin & K). rewrite (P x Hin) in K. discriminate. }
  rewrite Est in H. clear Hw P. rename pw into p.
  pose proof (mount_Inv t0' (Some p)) as I0.
  assert (M : load (mount t0' (Some p)) = LoadPending (Some p)
              /\ store (mount t0' (Some p)) = Some p
              /\ currentIndex (mount t0' (Some p)) = 0
              /\ isPlaying (mount t0' (Some p)) = false).
  { unfold mount.
    set (s0 := mkState [] (Num 100) false 0 None None None None None false
                 [] [] 0 (Some p) (LoadPending (Some p)) [] [] [] 0 t0').
    pose proof (blank_Structural t0' (Some p)) as St0. fold s0 in St0.
    pose proof (saveEffect_Structural t0' s0 St0) as St1.
    assert (Id0 : ~ playback_pending s0).
    { intros [(x0 & Hin & _)|K]; [destruct Hin|now apply K]. }
    pose proof (saveEffect_Current t0' false 0 (Num 100) s0 St0
                  (idle_Current _ _ _ s0 Id0)) as Cu1.
    rewrite (playbackEffect_eq t0' _ St1 (cur_cleanup _ _ _ _ Cu1)).
    rewrite (saveEffect_eq t0' s0 St0).
    split; [reflexivity|]. split; [reflexivity|]. split; reflexivity. }
  revert H I0 M. generalize (mount t0' (Some p)). intros m H I0 (M1 & M2 & M3 & M4).
  cbn [run] in H.
  destruct (step t1 LoadGot m) as [a|] eqn:E1; [|discriminate].
  destruct (step t2 (LoadDerived objectUrl) a) as [b|] eqn:E2; [|discriminate].
  inversion H; subst b. clear H.
  pose proof (step_Inv _ _ _ _ _ I0 E1) as Ia.
  apply step_clock in E1 as (_ & x & Hx & ->).
  unfold handle in Hx. rewrite M1 in Hx. inversion Hx; subst x. clear Hx.
  apply step_clock in E2 as (Hn & y & Hy & ->).
  unfold handle in Hy. cbn [load set_load set_clock] in Hy.
  destruct (restoreImages_total objectUrl p Hall) as (restored & Hr).
  rewrite Hr in Hy. inversion Hy; subst y. clear Hy.
  match goal with |- context [commit t2 ?o true ?x] =>
    destruct (commit_update t0' t2 o x true Ia Hn) as [_ U] end.
  { same_tac. }
  cbn [images intervalMs currentIndex isPlaying load set_clock].
  rewrite (su_images _ _ U), (su_intervalMs _ _ U), (su_currentIndex _ _ U),
    (su_isPlaying _ _ U), (su_load _ _ U).
  cbn [images intervalMs currentIndex isPlaying load set_clock set_load
       set_intervalMs set_images].
  split; [|split; [|split; [exact M3|split; [exact M4|reflexivity]]]].
  - apply restoreImages_sound in Hr. rewrite Hr, Ei.
    apply firstn_all2. now rewrite length_map.
  - unfold restoreInterval. rewrite Ec.
    apply (same_value_trans _ (clamp (clampedInterval (intervalMs s)))).
    + now apply clamp_same_value.
    + unfold clampedInterval. rewrite clamp_idem. apply same_value_refl.
Qed.

Lemma reopen_restores_session_witness :
  let f := fun n : string => mkFile n (Some "data:"%string) "blob:" n in
  let u := fun (k : nat) (img : SessionImage) => Some "blob:new"%string in
  exists s s2,
    run [(10%Q, FilesPicked [f "a"%string; f "b"%string]);
         (20%Q, ImportSettled 0); (420%Q, TimeoutFired 1)]
        (mount 0 None) = Some s
    /\ run [(1%Q, LoadGot); (2%Q, LoadDerived u)] (mount 0 (store s)) = Some s2
    /\ map id (images s2) = ["a"; "b"]%string.
Proof.
  cbv zeta.
  set (tr0 := [(10%Q, FilesPicked [mkFile "a" (Some "data:"%string) "blob:" "a";
                                   mkFile "b" (Some "data:"%string) "blob:" "b"]);
               (20%Q, ImportSettled 0); (420%Q, TimeoutFired 1)]).
  set (u := fun (k : nat) (img : SessionImage) => Some "blob:new"%string).
  assert (H : exists s s2 pw,
             run tr0 (mount 0 None) = Some s
             /\ run [(1%Q, LoadGot); (2%Q, LoadDerived u)] (mount 0 (store s))
                = Some s2
             /\ last_ev None (savelog s) = Some (Wr 420 pw)
             /\ length (images s) = 2
             /\ map id (images s) = ["a"; "b"]%string).
  { do 3 eexists. split; [vm_compute; reflexivity|].
    split; [vm_compute; reflexivity|]. repeat split; reflexivity. }
  destruct H as (s & s2 & pw & Hs & H2 & Hw & Hlen & Hid).
  exists s, s2. split; [exact Hs|]. split; [exact H2|].
  destruct (reopen_restores_session 0 0 1 2 420 s s2 pw u
              (ex_intro _ None (ex_intro _ tr0 Hs)) Hw) as (_ & _ & A & _).
  - unfold MAX_IMAGES. lia.
  - intros k img. discriminate.
  - exact H2.
  - rewrite <- Hid.
    change id with (fun i : ImageItem => si_id (toSessionImage i)).
    rewrite <- !(map_map toSessionImage si_id). now rewrite A.
Defined.

(* ================================================================== *)
(** ** storage.ts *)
(* ================================================================== *)

Lemma assoc_get_put_same {V : Type} (k : string) (v : V) (l : list (string * V)) :
  assoc_get k (assoc_put k v l) = Some v.
Proof.
  induction l as [|[k' v'] l IH]; cbn.
  - now rewrite String.eqb_refl.
  - destruct (String.eqb k' k) eqn:E; cbn.
    + now rewrite String.eqb_refl.
    + now rewrite E.
Qed.

Lemma assoc_get_put_other {V : Type} (k k' : string) (v : V)
      (l : list (string * V)) :
  k <> k' -> assoc_get k' (assoc_put k v l) = assoc_get k' l.
Proof.
  intros Hn. induction l as [|[k0 v0] l IH]; cbn.
  - destruct (String.eqb k k') eqn:E; [|reflexivity].
    apply String.eqb_eq in E. contradiction.
  - destruct (String.eqb k0 k) eqn:E; cbn.
    + apply String.eqb_eq in E. subst k0.
      destruct (String.eqb k k') eqn:E'; [|reflexivity].
      apply String.eqb_eq in E'. contradiction.
    + destruct (String.eqb k0 k'); [reflexivity|exact IH].
Qed.

(** What [openDB] resolves with: the database of the module as the window
    then holds it, at version [DB_VERSION]. *)
Lemma openDB_resolved (faults : Faults) (w w1 : Window) (db : Database) :
  openDB faults w = (Resolved db, w1) ->
  db_version db = DB_VERSION
  /\ exists dbs dbs1, w = Some dbs /\ w1 = Some dbs1
                      /\ assoc_get DB_NAME dbs1 = Some db
                      /\ forall name, name <> DB_NAME ->
                                      assoc_get name dbs1 = assoc_get name dbs.
Proof.
  unfold openDB. destruct w as [dbs|]; [|discriminate].
  destruct (open_fails faults); [discriminate|].
  set (old := match assoc_get DB_NAME dbs with
              | Some db0 => db0
              | None => mkDatabase 0 []
              end).
  destruct (DB_VERSION <? db_version old) eqn:E1; [discriminate|].
  destruct (db_version old <? DB_VERSION) eqn:E2.
  - intros H. inversion H; subst. split; [reflexivity|].
    exists dbs. eexists. split; [reflexivity|]. split; [reflexivity|].
    split; [apply assoc_get_put_same|].
    intros name Hn. apply assoc_get_put_other. congruence.
  - intros H. inversion H; subst.
    apply Nat.ltb_ge in E1, E2. split; [lia|].
    exists dbs, dbs. repeat split; auto.
    unfold old in *. destruct (assoc_get DB_NAME dbs) as [db0|]; [reflexivity|].
    cbn in E2. unfold DB_VERSION in E2. lia.
Qed.

(** X10.  A session saved is the session loaded: whatever the window held, once
    [saveSession] has resolved, [loadSession] resolves with that session,
    and changes nothing. *)
Theorem save_then_load (faults : Faults) (session : SessionData) (w w' : Window) :
  saveSession faults session w = (Resolved tt, w') ->
  loadSession no_faults w' = (Resolved (Some session), w').
Proof.
  unfold saveSession.
  destruct (openDB faults w) as [[db|e] w1] eqn:Eo; [|discriminate].
  destruct (openDB_resolved faults w w1 db Eo)
    as (Hv & dbs & dbs1 & -> & -> & Hg & _).
  destruct (assoc_get STORE_NAME (db_stores db)) as [records|]; [|discriminate].
  destruct (tx_fails faults); [discriminate|].
  intros H. inversion H; subst w'. clear H.
  unfold loadSession, openDB. cbn [open_fails no_faults].
  rewrite assoc_get_put_same. cbn [db_version db_stores]. rewrite Hv.
  rewrite Nat.ltb_irrefl. cbn [db_stores]. rewrite assoc_get_put_same.
  cbn [get_fails no_faults]. now rewrite assoc_get_put_same.
Qed.

Lemma save_then_load_witness :
  let session := mkSessionData (Some (Num 100)) [mkSessionImage "1" "a" "data:a"] in
  exists w',
    saveSession no_faults session (Some []) = (Resolved tt, w')
    /\ loadSession no_faults w' = (Resolved (Some session), w').
Proof.
  cbv zeta. eexists. split; [reflexivity|].
  apply (save_then_load no_faults _ (Some [])). reflexivity.
Defined.

Lemma load_module_db (w : Window) (stored : option SessionData) :
  module_db w stored ->
  exists w', loadSession no_faults w = (Resolved stored, w') /\ module_db w' stored.
Proof.
  unfold module_db. destruct w as [dbs|]; [|contradiction].
  unfold loadSession, openDB. cbn [open_fails get_fails no_faults].
  destruct (assoc_get DB_NAME dbs) as [db|] eqn:Eg.
  - intros (Hv & records & Hs & Hk). rewrite Hv, Nat.ltb_irrefl, Hs.
    exists (Some dbs). split; [now rewrite Hk|]. rewrite Eg. eauto.
  - intros ->. cbn. eexists. split; [reflexivity|].
    unfold module_db. rewrite assoc_get_put_same. cbn. split; [reflexivity|].
    exists []. split; reflexivity.
Qed.

(** Whatever goes wrong during a call, the database of the module stays
    as the module leaves it, holding the same session unless the call is
    a [saveSession] that resolves. *)
Lemma open_module_db (faults : Faults) (w : Window) (stored : option SessionData) :
  module_db w stored ->
  module_db (snd (openDB faults w)) stored
  /\ forall db, fst (openDB faults w) = Resolved db ->
       db_version db = DB_VERSION
       /\ (exists records, assoc_get STORE_NAME (db_stores db) = Some records
                           /\ assoc_get SESSION_KEY records = stored)
       /\ exists dbs1, snd (openDB faults w) = Some dbs1.
Proof.
  unfold module_db. destruct w as [dbs|]; [|contradiction].
  unfold openDB. destruct (open_fails faults).
  { intros H. split; [exact H|]. cbn. discriminate. }
  destruct (assoc_get DB_NAME dbs) as [db|] eqn:Eg.
  - intros (Hv & records & Hs & Hk). rewrite Hv, Nat.ltb_irrefl.
    cbn [fst snd]. rewrite Eg. split; [eauto|].
    intros db0 H. inversion H; subst. eauto 6.
  - intros ->. cbn. rewrite assoc_get_put_same. cbn.
    split; [split; [reflexivity|exists []; split; reflexivity]|].
    intros db0 H. inversion H; subst. cbn.
    split; [reflexivity|]. split; [exists []; split; reflexivity|eauto].
Qed.

Lemma save_module_db (faults : Faults) (session : SessionData) (w : Window)
      (stored : option SessionData) :
  module_db w stored ->
  match saveSession faults session w with
  | (Resolved _, w') => module_db w' (Some session)
  | (Rejected _, w') => module_db w' stored
  end.
Proof.
  intros M. destruct (open_module_db faults w stored M) as [M1 Hr].
  unfold saveSession.
  destruct (openDB faults w) as [[db|e] w1]; cbn [fst snd] in *; [|exact M1].
  destruct (Hr db eq_refl) as (Hv & (records & Hs & Hk) & dbs1 & ->).
  rewrite Hs. destruct (tx_fails faults); [exact M1|].
  unfold module_db. rewrite assoc_get_put_same. cbn [db_version db_stores].
  split; [exact Hv|]. eexists. split; [apply assoc_get_put_same|].
  apply assoc_get_put_same.
Qed.

Lemma load_keeps_module_db (faults : Faults) (w : Window)
      (stored : option SessionData) :
  module_db w stored -> module_db (snd (loadSession faults w)) stored.
Proof.
  intros M. destruct (open_module_db faults w stored M) as [M1 _].
  unfold loadSession.
  destruct (openDB faults w) as [[db|e] w1]; cbn [fst snd] in *; [|exact M1].
  destruct (assoc_get STORE_NAME (db_stores db)); [|exact M1].
  destruct (get_fails faults); exact M1.
Qed.

(** X11.  The store holds the last session saved.  From an origin where the
    database of the module does not exist yet, or is as the module left
    it, after any sequence of [saveSession] and [loadSession] calls, each
    with whatever failures of the open request, the transaction or the get
    request, [loadSession] resolves with the session of the last
    [saveSession] that resolved - with what was stored before if none did,
    which is [null] on a new origin.  A call that is rejected changes
    nothing of what is stored. *)
Theorem load_gives_last_saved (l : list StorageCall) (w : Window)
        (stored : option SessionData) :
  module_db w stored ->
  fst (loadSession no_faults (fst (calls l w stored)))
  = Resolved (snd (calls l w stored)).
Proof.
  revert w stored. induction l as [|[faults session|faults] l IH];
    intros w stored M; cbn [calls].
  - cbn [fst snd]. destruct (load_module_db w stored M) as (w' & -> & _).
    reflexivity.
  - pose proof (save_module_db faults session w stored M) as M'.
    destruct (saveSession faults session w) as [[u|e] w']; now apply IH.
  - apply IH. now apply load_keeps_module_db.
Qed.

Lemma load_gives_last_saved_witness :
  let s1 := mkSessionData (Some (Num 100)) [mkSessionImage "1" "a" "data:a"] in
  let s2 := mkSessionData (Some (Num 250)) [] in
  fst (loadSession no_faults
         (fst (calls [CallLoad no_faults; CallSave no_faults s1;
                      CallSave (mkFaults None (Some None) None) s2;
                      CallLoad (mkFaults (Some None) None None)]
                     (Some []) None)))
  = Resolved (Some s1).
Proof.
  cbv zeta.
  exact (load_gives_last_saved
           [CallLoad no_faults;
            CallSave no_faults
              (mkSessionData (Some (Num 100)) [mkSessionImage "1" "a" "data:a"]);
            CallSave (mkFaults None (Some None) None)
              (mkSessionData (Some (Num 250)) []);
            CallLoad (mkFaults (Some None) None None)]
           (Some []) None eq_refl).
Defined.

(** X12.  The module keeps to its own record: a call of [saveSession] or
    [loadSession], resolved or rejected, leaves every other database of
    the origin as it was, and within its own database every other object
    store, and within its store every record but the session. *)
Theorem storage_touches_own_record_only (c : StorageCall) (dbs : list (string * Database)) :
  exists dbs',
    fst (calls [c] (Some dbs) None) = Some dbs'
    /\ (forall name, name <> DB_NAME -> assoc_get name dbs' = assoc_get name dbs)
    /\ (forall db db' name,
           assoc_get DB_NAME dbs = Some db -> assoc_get DB_NAME dbs' = Some db' ->
           name <> STORE_NAME ->
           assoc_get name (db_stores db') = assoc_get name (db_stores db))
    /\ (forall db db' records records' key,
           assoc_get DB_NAME dbs = Some db -> assoc_get DB_NAME dbs' = Some db' ->
           assoc_get STORE_NAME (db_stores db) = Some records ->
           assoc_get STORE_NAME (db_stores db') = Some records' ->
           key <> SESSION_KEY -> assoc_get key records' = assoc_get key records).
Proof.
  assert (Hopen : forall faults,
             exists dbs1, snd (openDB faults (Some dbs)) = Some dbs1
               /\ (forall name, name <> DB_NAME ->
                                assoc_get name dbs1 = assoc_get name dbs)
               /\ (forall db db1, assoc_get DB_NAME dbs = Some db ->
                                  assoc_get DB_NAME dbs1 = Some db1 ->
                     forall name, name <> STORE_NAME ->
                       assoc_get name (db_stores db1) = assoc_get name (db_stores db))
               /\ (forall db db1 records,
                     assoc_get DB_NAME dbs = Some db ->
                     assoc_get DB_NAME dbs1 = Some db1 ->
                     assoc_get STORE_NAME (db_stores db) = Some records ->
                     assoc_get STORE_NAME (db_stores db1) = Some records)
               /\ (forall db1, fst (openDB faults (Some dbs)) = Resolved db1 ->
                               assoc_get DB_NAME dbs1 = Some db1)).
  { intros faults. unfold openDB.
    destruct (open_fails faults).
    { exists dbs. cbn. repeat split; auto; try congruence; discriminate. }
    destruct (assoc_get DB_NAME dbs) as [db|] eqn:Eg.
    - destruct (DB_VERSION <? db_version db).
      { exists dbs. cbn. repeat split; auto; try congruence; discriminate. }
      destruct (db_version db <? DB_VERSION).
      + eexists. cbn [fst snd]. split; [reflexivity|].
        split; [intros name Hn; apply assoc_get_put_other; congruence|].
        rewrite assoc_get_put_same. cbn [db_version db_stores].
        split; [|split].
        * intros d d1 [= <-] [= <-] name Hn. cbn [db_stores].
          destruct (assoc_get STORE_NAME (db_stores db)); [reflexivity|].
          apply assoc_get_put_other. congruence.
        * intros d d1 records [= <-] [= <-] Hs. cbn [db_stores]. now rewrite Hs.
        * intros d1 [= <-]. reflexivity.
      + exists dbs. cbn [fst snd]. repeat split; auto; congruence.
    - cbn. eexists. split; [reflexivity|].
      split; [intros name Hn; apply assoc_get_put_other; congruence|].
      rewrite assoc_get_put_same.
      repeat split; try discriminate. intros d1 [= <-]. reflexivity. }
  destruct c as [faults session|faults]; cbn [calls].
  - destruct (Hopen faults) as (dbs1 & E1 & A & B & C & D).
    unfold saveSession.
    destruct (openDB faults (Some dbs)) as [[db1|e] w1]; cbn [fst snd] in *;
      subst w1.
    + specialize (D db1 eq_refl).
      destruct (assoc_get STORE_NAME (db_stores db1)) as [records1|] eqn:Es.
      * destruct (tx_fails faults).
        -- exists dbs1. cbn. repeat split; eauto.
           intros db db' records records' key H1 H2 H3 H4 _.
           rewrite (C db db' records H1 H2 H3) in H4. congruence.
        -- eexists. cbn [fst]. split; [reflexivity|].
           split; [intros name Hn; rewrite assoc_get_put_other by congruence;
                   now apply A|].
           rewrite assoc_get_put_same. split.
           ++ intros db db' name H1 [= <-] Hn. cbn [db_stores].
              rewrite assoc_get_put_other by congruence. eauto.
           ++ intros db db' records records' key H1 [= <-] H3 H4 Hk.
              cbn [db_stores] in H4. rewrite assoc_get_put_same in H4.
              inversion H4; subst records'.
              rewrite assoc_get_put_other by congruence.
              rewrite (C db db1 records H1 D H3) in Es. congruence.
      * exists dbs1. cbn. repeat split; eauto.
        intros db db' records records' key H1 H2 H3 H4 _.
        rewrite (C db db' records H1 H2 H3) in H4. congruence.
    + exists dbs1. cbn. repeat split; eauto.
      intros db db' records records' key H1 H2 H3 H4 _.
      rewrite (C db db' records H1 H2 H3) in H4. congruence.
  - destruct (Hopen faults) as (dbs1 & E1 & A & B & C & D).
    assert (Es : snd (loadSession faults (Some dbs)) = Some dbs1).
    { unfold loadSession.
      destruct (openDB faults (Some dbs)) as [[db1|e] w1]; cbn [fst snd] in *;
        [|exact E1].
      destruct (assoc_get STORE_NAME (db_stores db1)); [|exact E1].
      destruct (get_fails faults); exact E1. }
    rewrite Es. exists dbs1. cbn [fst]. repeat split; eauto.
    intros db db' records records' key H1 H2 H3 H4 _.
    rewrite (C db db' records H1 H2 H3) in H4. congruence.
Qed.

(* ================================================================== *)
(** ** The service worker *)
(* ================================================================== *)

Lemma caches_match_put (u name : string) (c : Cache) (cs : CacheStorage) :
  caches_match u cs = None ->
  caches_match u (assoc_put name c cs) = assoc_get u c.
Proof.
  induction cs as [|[k c0] cs IH]; cbn; intros H.
  - now destruct (assoc_get u c).
  - destruct (assoc_get u c0) eqn:E0; [discriminate|].
    destruct (String.eqb k name); cbn.
    + rewrite H. now destruct (assoc_get u c).
    + rewrite E0. now apply IH.
Qed.

Lemma caches_match_put_current (u : string) (resp : Response) (cs : CacheStorage) :
  caches_match u cs = None -> rs_status resp <> 206 ->
  caches_match u (put_current true u resp cs) = Some resp.
Proof.
  intros H Hs. unfold put_current, caches_open, cache_put.
  apply Nat.eqb_neq in Hs. rewrite Hs. cbn [negb orb].
  destruct (assoc_get CACHE_NAME cs) as [c|].
  - rewrite caches_match_put by exact H. apply assoc_get_put_same.
  - rewrite caches_match_put.
    + apply assoc_get_put_same.
    + now rewrite caches_match_put.
Qed.

(** Replacing a cache by one that answers [u] alike leaves the lookup of
    [u] as it was. *)
Lemma caches_match_put_keep (u name : string) (c c' : Cache) (cs : CacheStorage) :
  assoc_get name cs = Some c -> assoc_get u c' = assoc_get u c ->
  caches_match u (assoc_put name c' cs) = caches_match u cs.
Proof.
  intros Hc He. induction cs as [|[k c0] cs IH]; cbn in *; [discriminate|].
  destruct (String.eqb k name); cbn.
  - inversion Hc; subst c0. now rewrite He.
  - now rewrite (IH Hc).
Qed.

Lemma caches_match_put_new (u name : string) (cs : CacheStorage) :
  assoc_get name cs = None ->
  caches_match u (assoc_put name [] cs) = caches_match u cs.
Proof.
  induction cs as [|[k c0] cs IH]; cbn; [reflexivity|].
  destruct (String.eqb k name) eqn:E; cbn; [discriminate|].
  intros H. now rewrite (IH H).
Qed.

(** A put that fails leaves every lookup as it was. *)
Lemma put_current_failed (putOk : bool) (u u' : string) (resp : Response)
      (cs : CacheStorage) :
  putOk = false \/ rs_status resp = 206 ->
  caches_match u (put_current putOk u' resp cs) = caches_match u cs.
Proof.
  intros Hf. unfold put_current, caches_open.
  assert (E : forall c, cache_put putOk u' resp c = None).
  { intros c. unfold cache_put. destruct Hf as [->| ->]; [reflexivity|].
    now rewrite Nat.eqb_refl, orb_true_r. }
  destruct (assoc_get CACHE_NAME cs) as [c|] eqn:Ec; rewrite E; [reflexivity|].
  now apply caches_match_put_new.
Qed.

(** A put under another URL leaves the lookup as it was. *)
Lemma put_current_other (putOk : bool) (u u' : string) (resp : Response)
      (cs : CacheStorage) :
  u' <> u ->
  caches_match u (put_current putOk u' resp cs) = caches_match u cs.
Proof.
  intros Hn. unfold put_current, caches_open.
  destruct (assoc_get CACHE_NAME cs) as [c|] eqn:Ec.
  - destruct (cache_put putOk u' resp c) as [c'|] eqn:Ep; [|reflexivity].
    unfold cache_put in Ep. destruct (_ || _); [discriminate|].
    inversion Ep; subst c'.
    apply (caches_match_put_keep u CACHE_NAME c); auto.
    now apply assoc_get_put_other.
  - destruct (cache_put putOk u' resp []) as [c'|] eqn:Ep;
      [|now apply caches_match_put_new].
    unfold cache_put in Ep. destruct (_ || _); [discriminate|].
    inversion Ep; subst c'.
    rewrite (caches_match_put_keep u CACHE_NAME []).
    + now apply caches_match_put_new.
    + apply assoc_get_put_same.
    + cbn. destruct (String.eqb u' u) eqn:E; [|reflexivity].
      apply String.eqb_eq in E. contradiction.
Qed.

(** What a cache answers for a URL other than ["/"], no fetch event
    changes. *)
Lemma onFetch_keeps (net : Network) (putOk : bool) (req : Request)
      (cs : CacheStorage) (u : string) (r : Response) :
  caches_match u cs = Some r -> u <> "/"%string ->
  caches_match u (snd (onFetch net putOk req cs)) = Some r.
Proof.
  intros Hc Hu. unfold onFetch.
  destruct (negb (String.eqb (rq_method req) "GET")); [exact Hc|].
  destruct (String.eqb (rq_mode req) "navigate").
  - destruct (net (rq_url req)) as [resp|]; cbn [snd].
    + rewrite put_current_other; [exact Hc|]. intros E. now symmetry in E.
    + now destruct (caches_match "/" cs).
  - destruct (caches_match (rq_url req) cs) as [cached|] eqn:E; [exact Hc|].
    destruct (net (rq_url req)) as [resp|]; cbn [snd]; [|exact Hc].
    rewrite put_current_other; [exact Hc|]. intros K. congruence.
Qed.

Lemma fetches_keep (l : list FetchEvent) (cs : CacheStorage) (u : string)
      (r : Response) :
  caches_match u cs = Some r -> u <> "/"%string ->
  caches_match u (fetches l cs) = Some r.
Proof.
  revert cs. unfold fetches.
  induction l as [|e l IH]; intros cs Hc Hu; cbn [fold_left]; [exact Hc|].
  apply IH; [|exact Hu]. now apply onFetch_keeps.
Qed.

Lemma activate_match (u : string) (cs : CacheStorage) (c : Cache) (resp : Response) :
  assoc_get CACHE_NAME cs = Some c -> assoc_get u c = Some resp ->
  caches_match u (onActivate cs) = Some resp.
Proof.
  unfold onActivate. induction cs as [|[k c0] cs IH]; cbn; [discriminate|].
  destruct (String.eqb k CACHE_NAME); cbn.
  - intros [= ->] ->. reflexivity.
  - exact IH.
Qed.

Lemma activate_other_names (cs : CacheStorage) (name : string) (c : Cache) :
  In (name, c) (onActivate cs) -> name = CACHE_NAME.
Proof.
  unfold onActivate. intros H. apply filter_In in H as [_ H].
  now apply String.eqb_eq in H.
Qed.

Lemma assoc_get_not_in {V : Type} (k : string) (l : list (string * V)) :
  ~ In k (map fst l) -> assoc_get k l = None.
Proof.
  induction l as [|[k' v] l IH]; cbn; [reflexivity|].
  intros H. destruct (String.eqb k' k) eqn:E.
  - apply String.eqb_eq in E. tauto.
  - apply IH. tauto.
Qed.

(** X13.  After [activate] only the current cache is left, as it was: every
    other cache is gone, so that a lookup over the caches is a lookup in
    the current one; activating again changes nothing. *)
Theorem activate_leaves_current_cache (cs : CacheStorage) :
  NoDup (map fst cs) ->
  (forall name c, In (name, c) (onActivate cs) -> name = CACHE_NAME)
  /\ assoc_get CACHE_NAME (onActivate cs) = assoc_get CACHE_NAME cs
  /\ (forall u, caches_match u (onActivate cs)
                = match assoc_get CACHE_NAME cs with
                  | Some c => assoc_get u c
                  | None => None
                  end)
  /\ onActivate (onActivate cs) = onActivate cs.
Proof.
  intros Hd. split; [apply activate_other_names|]. split; [|split].
  - unfold onActivate. induction cs as [|[k c0] cs IH]; cbn; [reflexivity|].
    inversion Hd; subst.
    destruct (String.eqb k CACHE_NAME) eqn:E; cbn; rewrite ?E; auto.
  - intros u. unfold onActivate.
    induction cs as [|[k c0] cs IH]; cbn; [reflexivity|].
    inversion Hd as [|? ? Hn Hd']; subst. cbn [fst] in *.
    destruct (String.eqb k CACHE_NAME) eqn:E; cbn; [|now apply IH].
    apply String.eqb_eq in E. subst k.
    destruct (assoc_get u c0); [reflexivity|].
    rewrite (IH Hd'). now rewrite (assoc_get_not_in CACHE_NAME cs Hn).
  - unfold onActivate. induction cs as [|[k c0] cs IH]; cbn; [reflexivity|].
    inversion Hd; subst.
    destruct (String.eqb k CACHE_NAME) eqn:E; cbn; rewrite ?E;
      [f_equal|]; auto.
Qed.

Lemma activate_leaves_current_cache_witness :
  let page := mkResponse 200 "<html>" in
  let cs := [("image-loop-player-v3"%string, [("/"%string, mkResponse 200 "old")]);
             (CACHE_NAME, [("/"%string, page)])] in
  caches_match "/" cs = Some (mkResponse 200 "old")
  /\ caches_match "/" (onActivate cs) = Some page.
Proof.
  cbv zeta. split; [reflexivity|].
  destruct (activate_leaves_current_cache
              [("image-loop-player-v3"%string, [("/"%string, mkResponse 200 "old")]);
               (CACHE_NAME, [("/"%string, mkResponse 200 "<html>")])])
    as (_ & _ & A & _).
  - repeat constructor; cbn; intuition discriminate.
  - rewrite A. reflexivity.
Defined.

(** What a successful [install] leaves in the current cache. *)
Lemma install_ok (net : Network) (putOk : bool) (cs cs' : CacheStorage) :
  onInstall net putOk cs = (true, cs') ->
  exists c, assoc_get CACHE_NAME cs' = Some c
            /\ forall u, In u ASSETS ->
                 exists resp, net u = Some resp /\ rs_ok resp = true
                              /\ assoc_get u c = Some resp.
Proof.
  unfold onInstall, ASSETS.
  destruct (caches_open CACHE_NAME cs) as [c0 cs1].
  cbn [map promise_all].
  destruct (net "/"%string) as [r1|] eqn:E1; [|discriminate].
  destruct (rs_ok r1 && negb (rs_status r1 =? 206)) eqn:K1; [|discriminate].
  destruct (net "/index.html"%string) as [r2|] eqn:E2; [|discriminate].
  destruct (rs_ok r2 && negb (rs_status r2 =? 206)) eqn:K2; [|discriminate].
  destruct (net "/manifest.webmanifest"%string) as [r3|] eqn:E3; [|discriminate].
  destruct (rs_ok r3 && negb (rs_status r3 =? 206)) eqn:K3; [|discriminate].
  destruct putOk; [|discriminate].
  intros H. inversion H; subst cs'. clear H. cbn [fold_left fst snd].
  eexists. split; [apply assoc_get_put_same|].
  apply andb_prop in K1 as [K1 _], K2 as [K2 _], K3 as [K3 _].
  intros u [<-|[<-|[<-|[]]]].
  - exists r1. repeat split; auto.
    rewrite !assoc_get_put_other by discriminate. apply assoc_get_put_same.
  - exists r2. repeat split; auto.
    rewrite assoc_get_put_other by discriminate. apply assoc_get_put_same.
  - exists r3. repeat split; auto. apply assoc_get_put_same.
Qed.

(** X14.  Once installed and activated, the worker serves without the
    network what [install] stored, and only that: a navigation gets the
    page stored under ["/"], and a request for one of the [ASSETS] gets
    the response stored for it, each of them an ok response that the
    network gave at install time, whatever older caches the origin held.
    Any other request that no cache holds, the script bundle for one
    unless it was fetched before, fails: the worker answers with nothing.
    The page loads offline as far as its own requests were cached. *)
Theorem install_serves_shell_offline (net : Network) (cs cs' : CacheStorage)
        (stored putOk : bool) (req : Request) :
  onInstall net stored cs = (true, cs') ->
  rq_method req = "GET"%string ->
  (rq_mode req = "navigate"%string \/ In (rq_url req) ASSETS ->
   exists resp,
     onFetch offline putOk req (onActivate cs') = (Responds resp, onActivate cs')
     /\ rs_ok resp = true
     /\ net (if String.eqb (rq_mode req) "navigate" then "/"%string
             else rq_url req) = Some resp)
  /\ (rq_mode req <> "navigate"%string ->
      caches_match (rq_url req) (onActivate cs') = None ->
      onFetch offline putOk req (onActivate cs') = (NoResponse, onActivate cs')).
Proof.
  intros Hi Hm. destruct (install_ok net stored cs cs' Hi) as (c & Hc & Ha).
  unfold onFetch. rewrite Hm.
  replace (("GET" =? "GET")%string) with true by reflexivity. cbn [negb].
  split.
  - intros Hk. destruct (String.eqb (rq_mode req) "navigate") eqn:En.
    + destruct (Ha "/"%string) as (resp & A & B & C); [now left|].
      exists resp. unfold offline.
      rewrite (activate_match _ _ _ _ Hc C). auto.
    + destruct Hk as [Hk|Hk]; [rewrite Hk in En; discriminate|].
      destruct (Ha _ Hk) as (resp & A & B & C).
      exists resp. rewrite (activate_match _ _ _ _ Hc C). auto.
  - intros Hn Hno. destruct (String.eqb (rq_mode req) "navigate") eqn:En.
    + apply String.eqb_eq in En. contradiction.
    + rewrite Hno. reflexivity.
Qed.

Lemma install_serves_shell_offline_witness :
  let net : Network :=
    fun u => if String.eqb u "/missing" then None
             else Some (mkResponse 200 u) in
  let old := [("image-loop-player-v3"%string, [("/"%string, mkResponse 200 "old")])] in
  exists cs',
    onInstall net true old = (true, cs')
    /\ fst (onFetch offline true (mkRequest "GET" "navigate" "/settings")
              (onActivate cs'))
       = Responds (mkResponse 200 "/")
    /\ fst (onFetch offline true (mkRequest "GET" "no-cors" "/assets/app.js")
              (onActivate cs'))
       = NoResponse.
Proof.
  cbv zeta.
  set (net := fun u => if String.eqb u "/missing" then None
                       else Some (mkResponse 200 u)).
  set (old := [("image-loop-player-v3"%string,
                [("/"%string, mkResponse 200 "old")])]).
  assert (H : exists cs',
             onInstall net true old = (true, cs')
             /\ caches_match "/assets/app.js" (onActivate cs') = None).
  { eexists. split; vm_compute; reflexivity. }
  destruct H as (cs' & Hi & Hno). exists cs'. split; [exact Hi|]. split.
  - destruct (proj1 (install_serves_shell_offline net old cs' true true
                       (mkRequest "GET" "navigate" "/settings") Hi eq_refl)
                (or_introl eq_refl)) as (resp & A & _ & B).
    rewrite A. cbn in B. inversion B. reflexivity.
  - rewrite (proj2 (install_serves_shell_offline net old cs' true true
                      (mkRequest "GET" "no-cors" "/assets/app.js") Hi eq_refl));
      [reflexivity|discriminate|exact Hno].
Defined.

(** X15.  Cache first, for good.  Take a request that is not a navigation,
    for a URL other than ["/"], and the response it was answered with.
    If a cache had it, or if the network gave it and the worker could
    store it (the put succeeded: the browser accepted it and the response
    was not partial, 206), then whatever requests the worker handles next,
    every later request for the same URL is answered with the same
    response, the network no longer being asked: the response is never
    refreshed.  If the response could not be stored, nothing is pinned:
    the caches answer for the URL what they did before, and the next
    request asks the network again. *)
Theorem static_response_is_pinned (net net' : Network) (putOk putOk' : bool)
        (req : Request) (cs cs' : CacheStorage) (resp : Response)
        (later : list FetchEvent) :
  rq_method req = "GET"%string -> rq_mode req <> "navigate"%string ->
  rq_url req <> "/"%string ->
  onFetch net putOk req cs = (Responds resp, cs') ->
  (caches_match (rq_url req) cs <> None
   \/ (putOk = true /\ rs_status resp <> 206) ->
   onFetch net' putOk' req (fetches later cs')
   = (Responds resp, fetches later cs'))
  /\ (caches_match (rq_url req) cs = None ->
      putOk = false \/ rs_status resp = 206 ->
      caches_match (rq_url req) cs' = None
      /\ fst (onFetch net' putOk' req cs')
         = match net' (rq_url req) with
           | Some resp' => Responds resp'
           | None => NoResponse
           end).
Proof.
  intros Hm Hn Hu H.
  assert (En : String.eqb (rq_mode req) "navigate" = false).
  { apply String.eqb_neq. exact Hn. }
  assert (F : forall n ok c,
             onFetch n ok req c
             = match caches_match (rq_url req) c with
               | Some cached => (Responds cached, c)
               | None =>
                   match n (rq_url req) with
                   | Some r => (Responds r, put_current ok (rq_url req) r c)
                   | None => (NoResponse, c)
                   end
               end).
  { intros n ok c. unfold onFetch. rewrite Hm, En. reflexivity. }
  rewrite F in H. split.
  - intros Hst.
    assert (Hc : caches_match (rq_url req) cs' = Some resp).
    { destruct (caches_match (rq_url req) cs) as [cached|] eqn:Ec.
      - inversion H; subst. exact Ec.
      - destruct Hst as [Hst|[-> Hs]]; [congruence|].
        destruct (net (rq_url req)) as [r|]; [|discriminate].
        inversion H; subst.
        now apply caches_match_put_current. }
    rewrite F, (fetches_keep later cs' _ _ Hc Hu). reflexivity.
  - intros Ec Hf. rewrite Ec in H.
    destruct (net (rq_url req)) as [r|]; [|discriminate].
    inversion H; subst r cs'. clear H.
    assert (Hc : caches_match (rq_url req)
                   (put_current putOk (rq_url req) resp cs) = None).
    { now rewrite put_current_failed. }
    split; [exact Hc|]. rewrite F, Hc.
    now destruct (net' (rq_url req)).
Qed.

Lemma static_response_is_pinned_witness :
  let req := mkRequest "GET" "no-cors" "/assets/app.js" in
  let v1 : Network := fun _ => Some (mkResponse 200 "v1") in
  let v2 : Network := fun _ => Some (mkResponse 200 "v2") in
  let later := [mkFetchEvent v2 true (mkRequest "GET" "navigate" "/");
                mkFetchEvent v2 true (mkRequest "GET" "no-cors" "/assets/app.css")] in
  (exists cs',
     onFetch v1 true req [] = (Responds (mkResponse 200 "v1"), cs')
     /\ fst (onFetch v2 true req (fetches later cs'))
        = Responds (mkResponse 200 "v1"))
  /\ (exists cs',
        onFetch v1 false req [] = (Responds (mkResponse 200 "v1"), cs')
        /\ fst (onFetch v2 true req cs') = Responds (mkResponse 200 "v2")).
Proof.
  cbv zeta. split.
  - eexists. split; [reflexivity|].
    rewrite (proj1 (static_response_is_pinned
                      (fun _ => Some (mkResponse 200 "v1"))
                      (fun _ => Some (mkResponse 200 "v2")) true true
                      (mkRequest "GET" "no-cors" "/assets/app.js") [] _
                      (mkResponse 200 "v1")
                      [mkFetchEvent (fun _ => Some (mkResponse 200 "v2")) true
                         (mkRequest "GET" "navigate" "/");
                       mkFetchEvent (fun _ => Some (mkResponse 200 "v2")) true
                         (mkRequest "GET" "no-cors" "/assets/app.css")]
                      eq_refl ltac:(discriminate) ltac:(discriminate) eq_refl)).
    + reflexivity.
    + right. split; [reflexivity|]. cbn. discriminate.
  - eexists. split; [reflexivity|].
    destruct (proj2 (static_response_is_pinned
                       (fun _ => Some (mkResponse 200 "v1"))
                       (fun _ => Some (mkResponse 200 "v2")) false true
                       (mkRequest "GET" "no-cors" "/assets/app.js") [] _
                       (mkResponse 200 "v1") []
                       eq_refl ltac:(discriminate) ltac:(discriminate) eq_refl)
                eq_refl (or_introl eq_refl)) as [_ B].
    exact B.
Defined.

(** X16.  Network first for navigations.  Online, a navigation is answered
    by the network, whatever the caches hold and whether or not the
    response can be stored.  The response is stored beside, under ["/"]:
    when the put succeeds (the browser accepts it and the response is not
    partial, 206) and only the current cache exists (as after
    [activate]), it becomes the fallback, and the next navigation that
    finds the network down, to whatever URL, is answered with it; when the
    put fails, the failure is swallowed and the fallback stays what it
    was. *)
Theorem navigation_is_network_first (net : Network) (putOk putOk' : bool)
        (req req' : Request) (cs : CacheStorage) (resp : Response) :
  rq_method req = "GET"%string -> rq_mode req = "navigate"%string ->
  rq_method req' = "GET"%string -> rq_mode req' = "navigate"%string ->
  net (rq_url req) = Some resp ->
  fst (onFetch net putOk req cs) = Responds resp
  /\ (putOk = true -> rs_status resp <> 206 ->
      (forall name c, In (name, c) cs -> name = CACHE_NAME) ->
      fst (onFetch offline putOk' req' (snd (onFetch net putOk req cs)))
      = Responds resp)
  /\ (putOk = false \/ rs_status resp = 206 ->
      caches_match "/" (snd (onFetch net putOk req cs)) = caches_match "/" cs
      /\ fst (onFetch offline putOk' req' (snd (onFetch net putOk req cs)))
         = fst (onFetch offline putOk' req' cs)).
Proof.
  intros Hm Hn Hm' Hn' Hnet. unfold onFetch.
  rewrite Hm, Hn, Hm', Hn', Hnet.
  replace (("GET" =? "GET")%string) with true by reflexivity.
  replace (("navigate" =? "navigate")%string) with true by reflexivity.
  cbn [negb fst snd]. split; [reflexivity|]. unfold offline. split.
  - intros -> Hs Hall.
    assert (E : caches_match "/" (put_current true "/" resp cs) = Some resp).
    { unfold put_current, caches_open, cache_put.
      apply Nat.eqb_neq in Hs. rewrite Hs. cbn [negb orb].
      destruct cs as [|[k c0] cs].
      - reflexivity.
      - assert (Hk : k = CACHE_NAME) by (apply (Hall k c0); now left).
        subst k. cbn [assoc_get]. rewrite String.eqb_refl.
        cbn [assoc_put]. rewrite String.eqb_refl. cbn [caches_match].
        now rewrite assoc_get_put_same. }
    now rewrite E.
  - intros Hf.
    assert (E : caches_match "/" (put_current putOk "/" resp cs)
                = caches_match "/" cs).
    { now apply put_current_failed. }
    split; [exact E|]. rewrite E.
    now destruct (caches_match "/" cs).
Qed.

Lemma navigation_is_network_first_witness :
  let net : Network := fun u => Some (mkResponse 200 u) in
  let cs := onActivate [("image-loop-player-v3"%string,
                         [("/"%string, mkResponse 200 "old")]);
                        (CACHE_NAME, [("/"%string, mkResponse 200 "shell")])] in
  fst (onFetch offline true (mkRequest "GET" "navigate" "/")
         (snd (onFetch net true (mkRequest "GET" "navigate" "/about") cs)))
  = Responds (mkResponse 200 "/about")
  /\ fst (onFetch offline true (mkRequest "GET" "navigate" "/")
            (snd (onFetch net false (mkRequest "GET" "navigate" "/about") cs)))
     = Responds (mkResponse 200 "shell").
Proof.
  cbv zeta. split.
  - apply (proj1 (proj2 (navigation_is_network_first
                           (fun u => Some (mkResponse 200 u)) true true
                           (mkRequest "GET" "navigate" "/about")
                           (mkRequest "GET" "navigate" "/") _ _
                           eq_refl eq_refl eq_refl eq_refl eq_refl)));
      [reflexivity|cbn; discriminate|].
    intros name c Hin. now apply activate_other_names in Hin.
  - rewrite (proj2 (proj2 (proj2 (navigation_is_network_first
                           (fun u => Some (mkResponse 200 u)) false true
                           (mkRequest "GET" "navigate" "/about")
                           (mkRequest "GET" "navigate" "/") _ _
                           eq_refl eq_refl eq_refl eq_refl eq_refl))
                     (or_introl eq_refl))).
    reflexivity.
Defined.

(* ================================================================== *)
(** ** Object URLs *)
(* ================================================================== *)

Lemma includes_In (x : string) (l : list string) : includes x l = true <-> In x l.
Proof.
  unfold includes. rewrite existsb_exists. split.
  - intros (y & Hy & E). apply String.eqb_eq in E. now subst.
  - intros H. exists x. split; [exact H|apply String.eqb_refl].
Qed.

Lemma revokeStale_revoked (images : list ImageItem) (u : UrlState) (x : string) :
  In x (revoked (revokeStale images u)) <->
  In x (revoked u) \/ (In x (prevUrls u) /\ ~ In x (map url images)).
Proof.
  unfold revokeStale. cbn [revoked]. rewrite in_app_iff, filter_In.
  rewrite negb_true_iff, <- not_true_iff_false, includes_In. tauto.
Qed.

Lemma renders_cons (c : list ImageItem) (colls : list (list ImageItem))
      (u : UrlState) :
  renders (c :: colls) u = renders colls (revokeStale c u).
Proof. reflexivity. Qed.

Lemma revoked_after_drop (colls : list (list ImageItem)) :
  forall u x,
    In x (revoked (renders colls u)) ->
    In x (revoked u)
    \/ (exists c after, colls = c :: after /\ In x (prevUrls u)
                        /\ ~ In x (map url c))
    \/ (exists before c1 c2 after,
           colls = before ++ c1 :: c2 :: after
           /\ In x (map url c1) /\ ~ In x (map url c2)).
Proof.
  induction colls as [|c r IH]; intros u x H.
  - now left.
  - rewrite renders_cons in H.
    destruct (IH _ _ H) as [A|[(c' & after & -> & A & B)|(before & c1 & c2 & after & -> & A & B)]].
    + apply revokeStale_revoked in A as [A|[A B]]; [now left|].
      right. left. exists c, r. auto.
    + right. right. exists [], c, c', after. auto.
    + right. right. exists (c :: before), c1, c2, after. auto.
Qed.

(** X17.  While the component is mounted, an object URL is revoked only once
    the collection has dropped it: every URL revoked was in the
    collection of one render and not in the collection of the next.  A
    URL that stays in the collection - through additions, removals of
    other entries and reorderings - is never revoked. *)
Theorem url_revoked_only_after_dropped (colls : list (list ImageItem))
        (x : string) :
  (In x (revoked (renders colls (mkUrlState [] []))) ->
   exists before c1 c2 after,
     colls = before ++ c1 :: c2 :: after
     /\ In x (map url c1) /\ ~ In x (map url c2))
  /\ ((forall c, In c colls -> In x (map url c)) ->
      ~ In x (revoked (renders colls (mkUrlState [] [])))).
Proof.
  assert (G : In x (revoked (renders colls (mkUrlState [] []))) ->
              exists before c1 c2 after,
                colls = before ++ c1 :: c2 :: after
                /\ In x (map url c1) /\ ~ In x (map url c2)).
  { intros H.
    destruct (revoked_after_drop colls _ _ H) as [A|[(c & after & _ & A & _)|A]];
      [destruct A|destruct A|exact A]. }
  split; [exact G|].
  intros Hall H. destruct (G H) as (before & c1 & c2 & after & -> & _ & B).
  apply B, Hall, in_or_app. right. right. now left.
Qed.

Lemma url_revoked_only_after_dropped_witness :
  let a := mkImageItem "1" "a" "blob:a" "data:a" in
  let b := mkImageItem "2" "b" "blob:b" "data:b" in
  let c := mkImageItem "3" "c" "blob:c" "data:c" in
  revoked (renders [[a; b]; [b; a]; [c; a]] (mkUrlState [] [])) = ["blob:b"]%string
  /\ ~ In "blob:a"%string
         (revoked (renders [[a; b]; [b; a]; [c; a]] (mkUrlState [] []))).
Proof.
  cbv zeta. split; [reflexivity|].
  apply (proj2 (url_revoked_only_after_dropped _ "blob:a")).
  intros x [<-|[<-|[<-|[]]]]; cbn; auto.
Defined.

Lemma renders_keeps (colls : list (list ImageItem)) :
  forall u x,
    In x (prevUrls u) \/ In x (revoked u)
    \/ (exists c, In c colls /\ In x (map url c)) ->
    In x (prevUrls (renders colls u)) \/ In x (revoked (renders colls u)).
Proof.
  induction colls as [|c r IH]; intros u x H.
  - destruct H as [H|[H|(c & [] & _)]]; auto.
  - rewrite renders_cons. apply IH.
    destruct (in_dec string_dec x (map url c)) as [Hc|Hc].
    { left. exact Hc. }
    destruct H as [H|[H|(c' & [<-|Hin] & Hx)]].
    + right. left. apply revokeStale_revoked. auto.
    + right. left. apply revokeStale_revoked. auto.
    + contradiction.
    + right. right. eauto.
Qed.

Lemma renders_prev (colls : list (list ImageItem)) :
  forall u x,
    In x (prevUrls (renders colls u)) ->
    In x (prevUrls u) \/ exists c, In c colls /\ In x (map url c).
Proof.
  induction colls as [|c r IH]; intros u x H; [now left|].
  rewrite renders_cons in H. destruct (IH _ _ H) as [A|(c' & A & B)].
  - right. exists c. split; [now left|exact A].
  - right. exists c'. split; [now right|exact B].
Qed.

(** *** The object URLs an execution creates *)

Lemma restore_urls (objectUrl : nat -> SessionImage -> option string)
      (session : SessionData) (restored : list ImageItem) :
  restoreImages objectUrl session = Some restored ->
  map url restored = createdByRestore objectUrl session.
Proof.
  unfold restoreImages, createdByRestore.
  set (sliced := firstn MAX_IMAGES (sd_images session)).
  generalize 0 as k. revert restored.
  induction sliced as [|img l IH]; intros restored k H; cbn in H |- *.
  - now inversion H.
  - destruct (objectUrl k img) as [u|]; [|discriminate].
    destruct (promise_all _) as [r|] eqn:E; [|discriminate].
    inversion H; subst. cbn. now rewrite (IH r (S k) E).
Qed.

Lemma import_urls (selected : list File) (next : list ImageItem) :
  promise_all (map importFile selected) = Some next ->
  map url next = createdByImport selected.
Proof.
  unfold createdByImport. revert next.
  induction selected as [|f l IH]; intros next H; cbn in H |- *.
  - now inversion H.
  - unfold importFile in H at 1. destruct (file_read f) as [d|]; [|discriminate].
    destruct (promise_all _) as [r|] eqn:E; [|discriminate].
    inversion H; subst. cbn. now rewrite (IH r eq_refl).
Qed.

Lemma defined_all_In (l : list Slot) (imgs : list ImageItem) (y : ImageItem) :
  defined_all l = Some imgs -> In y imgs -> In (Some y) l.
Proof.
  revert imgs. induction l as [|[x|] l IH]; intros imgs H Hy; cbn in H.
  - inversion H; subst. destruct Hy.
  - destruct (defined_all l) as [r|]; [|discriminate].
    inversion H; subst. destruct Hy as [->|Hy]; [now left|].
    right. now apply (IH r).
  - discriminate.
Qed.

Lemma reorder_In (i j : nat) (prev : list Slot) (y : ImageItem) :
  In (Some y) (reorder i j prev) -> In (Some y) prev.
Proof.
  unfold reorder. intros H.
  apply (Permutation_in _ (splice_in_perm j _ _)) in H.
  destruct H as [H|H].
  - destruct (nth_error prev i) as [x|] eqn:E; [|discriminate].
    subst x. now apply nth_error_In in E.
  - unfold splice_out in H. apply in_app_or in H as [H|H].
    + rewrite <- (firstn_skipn i prev). apply in_or_app. now left.
    + rewrite <- (firstn_skipn (S i) prev). apply in_or_app. now right.
Qed.

(** The URLs of the collection an event leaves were in the collection
    before, or were created by the work the event settles. *)
Lemma step_urls (t0 now : Q) (e : event) (s s' : State) :
  Inv t0 s -> step now e s = Some s' ->
  forall x, In x (map url (images s')) ->
            In x (map url (images s)) \/ In x (created e s).
Proof.
  intros R Hs x. apply step_clock in Hs as (Hn & s1 & H & ->).
  cbn [images set_clock].
  assert (Hstart : same_ui (if length (images s) =? 0 then s
                            else set_isPlaying true s) (handleStart now s)).
  { unfold handleStart. destruct (length (images s) =? 0);
      [apply same_ui_refl|].
    apply (commit_update t0 now s (set_isPlaying true s) false R Hn). same_tac. }
  destruct (handleStop_settled t0 now s R Hn) as (_ & Ustop & _).
  destruct e as [| |objectUrl|files|k|rid| | | |value|index|index| |i|i|i];
    cbn [created].
  - unfold handle in H. destruct (load s) as [[session|]| |]; try discriminate;
      inversion H; subst; auto.
  - unfold handle in H. destruct (load s); try discriminate.
    inversion H; subst; auto.
  - unfold handle in H. destruct (load s) as [|session|]; try discriminate.
    destruct (restoreImages objectUrl session) as [restored|] eqn:Er;
      inversion H; subst; [|auto].
    match goal with |- context [commit now s ?c ?y] =>
      destruct (commit_update t0 now s y c R Hn) as [_ U]; [same_tac|] end.
    rewrite (su_images _ _ U). cbn [images set_load set_intervalMs set_images].
    rewrite (restore_urls _ _ _ Er). auto.
  - unfold handle in H. inversion H; subst; auto.
  - unfold handle in H.
    destruct (nth_error (imports s) k) as [job|]; try discriminate.
    unfold handleFiles_outcome in H.
    destruct (promise_all (map importFile (job_selected job))) as [next|] eqn:Ep;
      inversion H; subst; [|auto].
    match goal with |- context [commit now s ?c ?y] =>
      destruct (commit_update t0 now s y c R Hn) as [_ U];
        [cbn [io_alert]; destruct (_ <? _); same_tac|] end.
    rewrite (su_images _ _ U). cbn [io_alert io_next].
    destruct (_ <? _);
      cbn [images set_currentIndex set_images set_alerts set_imports];
      unfold appendImages; rewrite map_app, in_app_iff, (import_urls _ _ Ep);
      auto.
  - unfold handle in H.
    destruct (handleRemove rid (images s) (currentIndex s)) as [next idx] eqn:Eh.
    inversion H; subst.
    match goal with |- context [commit now s ?c ?y] =>
      destruct (commit_update t0 now s y c R Hn) as [_ U]; [same_tac|] end.
    rewrite (su_images _ _ U). cbn [images set_currentIndex set_images].
    unfold handleRemove in Eh. inversion Eh; subst.
    intros Hx. left. apply in_map_iff in Hx as (y & <- & Hy).
    apply filter_In in Hy as [Hy _]. now apply in_map.
  - unfold handle in H. inversion H; subst.
    rewrite (su_images _ _ Hstart). destruct (length (images s) =? 0); auto.
  - unfold handle in H. inversion H; subst.
    rewrite (su_images _ _ Ustop). auto.
  - unfold handle in H. destruct (length (images s) =? 0) eqn:El.
    { inversion H; subst. auto. }
    destruct (isPlaying s); inversion H; subst.
    + rewrite (su_images _ _ Ustop). auto.
    + rewrite (su_images _ _ Hstart). auto.
  - unfold handle in H. inversion H; subst.
    match goal with |- context [commit now s ?c ?y] =>
      destruct (commit_update t0 now s y c R Hn) as [_ U]; [same_tac|] end.
    rewrite (su_images _ _ U). auto.
  - unfold handle in H.
    destruct (index <? length (images s)); inversion H; subst. auto.
  - unfold handle in H.
    destruct (index <? length (images s)); inversion H; subst. auto.
  - unfold handle in H.
    destruct (defined_all _) as [imgs|] eqn:Ed; inversion H; subst.
    match goal with |- context [commit now s ?c ?y] =>
      destruct (commit_update t0 now s y c R Hn) as [_ U]; [same_tac|] end.
    rewrite (su_images _ _ U).
    cbn [images set_currentIndex set_images set_dragOverItem set_dragItem].
    intros Hx. left. apply in_map_iff in Hx as (y & <- & Hy).
    apply in_map. pose proof (defined_all_In _ _ y Ed Hy) as Hs.
    unfold onDragEnd in Hs. cbn [d_dragItem d_dragOverItem d_images] in Hs.
    assert (K : In (Some y) (map Some (images s))).
    { destruct (dragItem s) as [a|]; [destruct (dragOverItem s) as [b|];
                                      [destruct (a =? b)|]|];
        cbn [d_images] in Hs; auto.
      now apply reorder_In in Hs. }
    apply in_map_iff in K as (z & Ez & Hz). now inversion Ez; subst.
  - destruct (find (fun t => to_id t =? i) (timeouts s)) as [t|] eqn:Hf;
      [|unfold handle in H; rewrite Hf in H; discriminate].
    destruct (Qle_bool (to_due t) now) eqn:Hdue;
      [|unfold handle in H; rewrite Hf, Hdue in H; discriminate].
    destruct (to_cb t) as [c imgs|len c] eqn:Hc.
    + rewrite (save_fired_eq now s i t c imgs Hf Hdue Hc) in H.
      inversion H; subst. auto.
    + rewrite (tick_fired_eq now s i t len c Hf Hdue Hc) in H.
      inversion H; subst. auto.
  - destruct (find (fun f => fr_id f =? i) (frames s)) as [f|] eqn:Hf;
      [|unfold handle in H; rewrite Hf in H; discriminate].
    destruct (find_frame s i f Hf) as [Hin _].
    destruct (cur_frame _ _ _ _ (inv_current _ _ R) f Hin) as (Hp & _).
    pose proof (frame_fired_eq now s i f Hf Hp) as E. cbv zeta in E.
    rewrite E in H. inversion H; subst. auto.
  - destruct (find (fun t => to_id t =? i) (timeouts s)) as [t|] eqn:Hf;
      [|unfold handle in H; rewrite Hf in H; discriminate].
    destruct (Qle_bool (to_due t) now) eqn:Hdue;
      [|unfold handle in H; rewrite Hf, Hdue in H; discriminate].
    destruct (to_cb t) as [c imgs|len c] eqn:Hc;
      [|unfold handle in H; rewrite Hf, Hdue, Hc in H; discriminate].
    rewrite (save_failed_eq now s i t c imgs Hf Hdue Hc) in H.
    inversion H; subst. auto.
Qed.

Lemma run_urls (t0 : Q) (tr : list (Q * event)) :
  forall s s', Inv t0 s -> run tr s = Some s' ->
    forall c x, In c (collections tr s) -> In x (map url c) ->
                In x (map url (images s)) \/ In x (createdUrls tr s).
Proof.
  induction tr as [|[t e] tr IH]; intros s s' I H c x Hc Hx;
    cbn [run collections createdUrls] in *.
  - destruct Hc as [<-|[]]. now left.
  - destruct (step t e s) as [s1|] eqn:Es; [|discriminate].
    destruct Hc as [<-|Hc]; [now left|].
    pose proof (step_Inv t0 t e s s1 I Es) as I1.
    destruct (IH s1 s' I1 H c x Hc Hx) as [A|A].
    + destruct (step_urls t0 t e s s1 I Es x A) as [B|B]; [now left|].
      right. apply in_or_app. now left.
    + right. apply in_or_app. now right.
Qed.

Lemma mount_images (t0 : Q) (stored : option SessionData) :
  images (mount t0 stored) = [].
Proof.
  unfold mount.
  set (s0 := mkState [] (Num 100) false 0 None None None None None false
               [] [] 0 stored (LoadPending stored) [] [] [] 0 t0).
  pose proof (blank_Structural t0 stored) as St0. fold s0 in St0.
  pose proof (saveEffect_Structural t0 s0 St0) as St1.
  assert (Id0 : ~ playback_pending s0).
  { intros [(t & Hin & _)|K]; [destruct Hin|now apply K]. }
  pose proof (saveEffect_Current t0 false 0 (Num 100) s0 St0
                (idle_Current _ _ _ s0 Id0)) as Cu1.
  rewrite (playbackEffect_eq t0 _ St1 (cur_cleanup _ _ _ _ Cu1)).
  rewrite (saveEffect_eq t0 s0 St0). reflexivity.
Qed.

(** X18.  What the unmount revokes.  Over an execution of the component,
    from its mount to its unmount, the object URLs revoked are exactly
    those that were in the collection at some render, and each of them
    was created during the execution, by an import or by the restore.  An
    object URL that was created and entered no collection - the URL of a
    file that was read in a batch that failed, of an entry derived in a
    restore that failed - is never revoked: the component keeps no
    reference to it. *)
Theorem urls_revoked_by_unmount (t0 : Q) (stored : option SessionData)
        (tr : list (Q * event)) (s' : State) :
  run tr (mount t0 stored) = Some s' ->
  let colls := collections tr (mount t0 stored) in
  let made := createdUrls tr (mount t0 stored) in
  (forall x, In x (revoked (lifetime colls)) <->
             exists c, In c colls /\ In x (map url c))
  /\ (forall c x, In c colls -> In x (map url c) -> In x made)
  /\ (forall x, In x made ->
                (forall c, In c colls -> ~ In x (map url c)) ->
                ~ In x (revoked (lifetime colls))).
Proof.
  intros Hr. cbv zeta.
  assert (G : forall colls x,
             In x (revoked (lifetime colls)) <->
             exists c, In c colls /\ In x (map url c)).
  { intros colls x. unfold lifetime, revokeAll. cbn [revoked]. split.
    - intros H. apply in_app_or in H as [H|H].
      + destruct (revoked_after_drop colls _ _ H)
          as [[]|[(c & after & _ & [] & _)
                 |(before & c1 & c2 & after & E & A & _)]].
        exists c1. split; [|exact A]. rewrite E. apply in_or_app.
        right. now left.
      + destruct (renders_prev colls _ _ H) as [[]|A]. exact A.
    - intros (c & Hc & Hx). apply in_or_app.
      destruct (renders_keeps colls (mkUrlState [] []) x) as [A|A]; eauto. }
  split; [apply G|]. split.
  - intros c x Hc Hx.
    destruct (run_urls t0 tr _ _ (mount_Inv t0 stored) Hr c x Hc Hx) as [A|A];
      [|exact A].
    rewrite mount_images in A. destruct A.
  - intros x _ Hno H. apply G in H as (c & Hc & Hx). exact (Hno c Hc Hx).
Qed.

Lemma urls_revoked_by_unmount_witness :
  let a := mkFile "a" (Some "data:a"%string) "blob:a" "1" in
  let b := mkFile "b" None "blob:b" "2" in
  let c := mkFile "c" (Some "data:c"%string) "blob:c" "3" in
  let tr := [(10%Q, FilesPicked [a; b]); (20%Q, ImportSettled 0);
             (30%Q, FilesPicked [c]); (40%Q, ImportSettled 0)] in
  createdUrls tr (mount 0 None) = ["blob:a"; "blob:c"]%string
  /\ revoked (lifetime (collections tr (mount 0 None))) = ["blob:c"]%string
  /\ (In "blob:a"%string (revoked (lifetime (collections tr (mount 0 None))))
      -> False).
Proof.
  cbv zeta.
  set (tr := [(10%Q, FilesPicked [mkFile "a" (Some "data:a"%string) "blob:a" "1";
                                  mkFile "b" None "blob:b" "2"]);
              (20%Q, ImportSettled 0);
              (30%Q, FilesPicked [mkFile "c" (Some "data:c"%string) "blob:c" "3"]);
              (40%Q, ImportSettled 0)]).
  assert (H : exists s',
             run tr (mount 0 None) = Some s'
             /\ createdUrls tr (mount 0 None) = ["blob:a"; "blob:c"]%string
             /\ revoked (lifetime (collections tr (mount 0 None)))
                = ["blob:c"]%string
             /\ map (map url) (collections tr (mount 0 None))
                = [[]; []; []; []; ["blob:c"]]%string).
  { eexists. split; [vm_compute; reflexivity|].
    split; [vm_compute; reflexivity|].
    split; vm_compute; reflexivity. }
  destruct H as (s' & Hs & Hm & Hv & Hc).
  split; [exact Hm|]. split; [exact Hv|].
  apply (proj2 (proj2 (urls_revoked_by_unmount 0 None tr s' Hs))).
  - rewrite Hm. now left.
  - intros c Hin Hx.
    assert (K : In (map url c) (map (map url) (collections tr (mount 0 None))))
      by now apply in_map.
    rewrite Hc in K.
    destruct K as [K|[K|[K|[K|[K|[]]]]]]; rewrite <- K in Hx;
      cbn in Hx; intuition discriminate.
Defined.

(* ================================================================== *)
(** ** The keyboard *)
(* ================================================================== *)

(** X19.  The space key toggles playback, and does nothing else.  A key press
    never fails; a key other than space, or one aimed at an editable
    element or a form control (whatever the case of the tag name), is
    left to the browser and changes nothing; any other press of space is
    taken from the browser and, over a non-empty collection, flips
    [isPlaying], arming a source when it starts and leaving none armed
    when it stops.  The collection, the index and the interval are never
    touched. *)
Theorem space_key_toggles (t0 now : Q) (code : string)
        (target : option KeyTarget) (s : State) :
  reachable t0 s -> (clock s <= now)%Q ->
  exists s',
    snd (handleKey code target now s) = Some s'
    /\ images s' = images s /\ currentIndex s' = currentIndex s
    /\ intervalMs s' = intervalMs s /\ advances s' = advances s
    /\ fst (handleKey code target now s)
       = String.eqb code "Space" && negb (own_control target)
    /\ isPlaying s'
       = (if fst (handleKey code target now s) && negb (length (images s) =? 0)
          then negb (isPlaying s) else isPlaying s)
    /\ (playback_pending s' <-> isPlaying s' = true /\ 0 < length (images s')).
Proof.
  intros R Hn. apply reachable_Inv in R. unfold handleKey.
  destruct (String.eqb code "Space"); cbn [negb andb].
  2:{ exists s. cbn [fst snd andb]. repeat (split; [reflexivity|]).
      now apply (pending_iff t0). }
  destruct (own_control target); cbn [negb].
  { exists s. cbn [fst snd andb]. repeat (split; [reflexivity|]).
    now apply (pending_iff t0). }
  cbn [fst snd andb].
  destruct (step now SpaceKey s) as [s'|] eqn:Es.
  2:{ exfalso. unfold step in Es. apply Qle_bool_iff in Hn. rewrite Hn in Es.
      unfold handle in Es. destruct (length (images s) =? 0); [discriminate|].
      destruct (isPlaying s); discriminate. }
  exists s'. split; [reflexivity|].
  pose proof (step_Inv _ _ _ _ _ R Es) as I'.
  pose proof (pending_iff t0 s' I') as P.
  apply step_clock in Es as (_ & s1 & H & ->).
  cbn [images currentIndex intervalMs advances isPlaying set_clock] in *.
  unfold handle in H.
  destruct (length (images s) =? 0) eqn:El; cbn [negb].
  { inversion H; subst s1. repeat (split; [reflexivity|]). exact P. }
  destruct (isPlaying s) eqn:Ep; inversion H; subst s1; clear H.
  - destruct (handleStop_settled t0 now s R Hn) as (_ & U & _).
    destruct U. cbn [images currentIndex intervalMs advances isPlaying
                     set_isPlaying] in *.
    repeat (split; [first [assumption|reflexivity|cbn; assumption]|]). exact P.
  - unfold handleStart in *. rewrite El in *.
    destruct (commit_update t0 now s (set_isPlaying true s) false R Hn) as [_ U];
      [same_tac|].
    destruct U. cbn [images currentIndex intervalMs advances isPlaying
                     set_isPlaying] in *.
    repeat (split; [first [assumption|reflexivity|cbn; assumption]|]). exact P.
Qed.

Lemma space_key_toggles_witness :
  let f := fun n : string => mkFile n (Some "data:"%string) "blob:" n in
  exists s s' s'',
    run [(10%Q, FilesPicked [f "a"%string]); (20%Q, ImportSettled 0)]
        (mount 0 None) = Some s
    /\ handleKey "Space" (Some (mkKeyTarget false "DIV")) 30 s = (true, Some s')
    /\ isPlaying s' = true
    /\ handleKey "Space" (Some (mkKeyTarget false "BUTTON")) 40 s'
       = (false, Some s')
    /\ handleKey "Space" None 50 s' = (true, Some s'')
    /\ isPlaying s'' = false.
Proof.
  cbv zeta.
  set (tr0 := [(10%Q, FilesPicked [mkFile "a" (Some "data:"%string) "blob:" "a"]);
               (20%Q, ImportSettled 0)]).
  assert (H : exists s s' s'',
             run tr0 (mount 0 None) = Some s
             /\ step 30 SpaceKey s = Some s' /\ step 50 SpaceKey s' = Some s''
             /\ isPlaying s = false /\ length (images s) = 1
             /\ clock s = 20%Q /\ clock s' = 30%Q).
  { do 3 eexists. split; [vm_compute; reflexivity|].
    split; [vm_compute; reflexivity|].
    split; [vm_compute; reflexivity|]. repeat split; reflexivity. }
  destruct H as (s & s' & s'' & Hs & H1 & H2 & Hp & Hl & Hc & Hc').
  exists s, s', s''. split; [exact Hs|].
  assert (R : reachable 0 s) by (exists None, tr0; exact Hs).
  assert (R' : reachable 0 s').
  { exists None, (tr0 ++ [(30%Q, SpaceKey)]). rewrite run_app, Hs. cbn [run].
    now rewrite H1. }
  destruct (space_key_toggles 0 30 "Space" (Some (mkKeyTarget false "DIV")) s R)
    as (x & A & _ & _ & _ & _ & _ & B & _).
  { rewrite Hc. vm_compute. discriminate. }
  destruct (space_key_toggles 0 50 "Space" None s' R')
    as (y & A' & B' & _ & _ & _ & _ & C' & _).
  { rewrite Hc'. vm_compute. discriminate. }
  unfold handleKey in *. cbn [String.eqb Ascii.eqb Bool.eqb negb own_control
                              toLowerCase] in *.
  change (own_control (Some (mkKeyTarget false "DIV"))) with false in *.
  change (own_control (Some (mkKeyTarget false "BUTTON"))) with true.
  cbn [fst snd negb andb] in *. rewrite H1 in *. rewrite H2 in *.
  cbn [fst snd] in *. inversion A; subst x. inversion A'; subst y.
  rewrite Hl, Hp in B. cbn in B.
  assert (Hl' : length (images s') = 1).
  { apply step_clock in H1 as (_ & z & Hz & ->). cbn [images set_clock].
    unfold handle in Hz. rewrite Hl, Hp in Hz. cbn in Hz. inversion Hz; subst z.
    unfold handleStart. rewrite Hl. cbn.
    destruct (commit_update 0 30 s (set_isPlaying true s) false
                (reachable_Inv 0 s R)) as [_ U]; [rewrite Hc; vm_compute; discriminate|same_tac|].
    now rewrite (su_images _ _ U). }
  rewrite Hl', B in C'. cbn in C'.
  repeat split; auto.
Defined.

(* ================================================================== *)
(** ** Re-arming *)
(* ================================================================== *)

Lemma playbackEffect_quiet (now : Q) (s : State) :
  Structural s -> (playback_pending s -> playbackCleanup s = true) ->
  Quiet (now + min_gap (clampedInterval (intervalMs s))) (playbackEffect now s).
Proof.
  intros St Hc. rewrite (playbackEffect_eq now s St Hc).
  unfold Quiet. cbn [timeouts frames]. split.
  - intros t Hin K. apply in_app_or in Hin as [Hin|Hin].
    + apply filter_In in Hin as [_ K']. rewrite is_save_tick, K in K'.
      discriminate.
    + destruct (isPlaying s && negb (length (images s) =? 0)); [|destruct Hin].
      destruct (leb (clampedInterval (intervalMs s)) (Num 32)) eqn:El;
        [destruct Hin|].
      destruct Hin as [<-|[]]. cbn [to_due]. unfold min_gap. rewrite El. lra.
  - intros f later Hin Hl.
    destruct (isPlaying s && negb (length (images s) =? 0)); [|destruct Hin].
    destruct (leb (clampedInterval (intervalMs s)) (Num 32)) eqn:El;
      [|destruct Hin].
    destruct Hin as [<-|[]]. cbn [fr_start fr_clamped].
    unfold min_gap in Hl. rewrite El in Hl.
    destruct (clamp_shape (intervalMs s)) as [En|[q Eq]].
    + rewrite En in El. discriminate.
    + pose proof (clamp_Num_range _ _ Eq) as [Hlo Hhi]. rewrite Eq in *.
      change (2 ^ (-53))%Q with (1 # 9007199254740992)%Q in Hl.
      apply binary64_below;
        change (2 ^ (-53))%Q with (1 # 9007199254740992)%Q; lra.
Qed.

(** A render after which the dependencies of the playback effect differ
    leaves a state that is quiet for the length of the new interval. *)
Lemma commit_quiet (now : Q) (old s2 : State) (ch : bool)
      (p : bool) (n : nat) (iv : number) :
  Structural s2 -> Current p n iv s2 ->
  (isPlaying s2 <> isPlaying old \/ length (images s2) <> length (images old)
   \/ same_value (clampedInterval (intervalMs old))
                 (clampedInterval (intervalMs s2)) = false) ->
  Quiet (now + min_gap (clampedInterval (intervalMs s2))) (commit now old ch s2).
Proof.
  intros St Cu Hd. unfold commit.
  set (cChanged := negb (same_value (clampedInterval (intervalMs old))
                           (clampedInterval (intervalMs s2)))).
  set (b1 := ch || cChanged).
  assert (H1 : exists s1,
             (if b1 then saveEffect now s2 else s2) = s1
             /\ Structural s1 /\ Current p n iv s1
             /\ intervalMs s1 = intervalMs s2
             /\ isPlaying s1 = isPlaying s2 /\ images s1 = images s2).
  { destruct b1.
    - exists (saveEffect now s2). split; [reflexivity|].
      split; [now apply saveEffect_Structural|].
      split; [now apply saveEffect_Current|].
      rewrite (saveEffect_eq now s2 St). repeat split; reflexivity.
    - exists s2. split; [reflexivity|]. split; [exact St|]. split; [exact Cu|].
      split; [reflexivity|]. split; reflexivity. }
  destruct H1 as (s1 & -> & St1 & Cu1 & Ei & Ep & Em).
  assert (Eb : negb (Bool.eqb (isPlaying old) (isPlaying s1))
               || negb (length (images old) =? length (images s1))
               || cChanged = true).
  { rewrite Ep, Em. unfold cChanged.
    destruct Hd as [Hd|[Hd|Hd]].
    - destruct (Bool.eqb (isPlaying old) (isPlaying s2)) eqn:E; [|reflexivity].
      apply Bool.eqb_prop in E. congruence.
    - destruct (length (images old) =? length (images s2)) eqn:E.
      + apply Nat.eqb_eq in E. congruence.
      + apply orb_true_iff. left. apply orb_true_iff. now right.
    - rewrite Hd. apply orb_true_iff. now right. }
  rewrite Eb, <- Ei.
  apply playbackEffect_quiet; [exact St1|exact (cur_cleanup _ _ _ _ Cu1)].
Qed.

Lemma commit_update_quiet (t0 now : Q) (s s2 : State) (ch : bool) :
  Inv t0 s -> (clock s <= now)%Q -> same_timers s s2 ->
  (isPlaying (commit now s ch s2) <> isPlaying s
   \/ length (images (commit now s ch s2)) <> length (images s)
   \/ same_value (clampedInterval (intervalMs s))
        (clampedInterval (intervalMs (commit now s ch s2))) = false) ->
  Quiet (now + min_gap (clampedInterval (intervalMs (commit now s ch s2))))
        (commit now s ch s2).
Proof.
  intros I Hn Sm Hd.
  destruct (commit_update t0 now s s2 ch I Hn Sm) as [_ U].
  rewrite (su_isPlaying _ _ U), (su_images _ _ U), (su_intervalMs _ _ U) in Hd.
  rewrite (su_intervalMs _ _ U).
  apply (commit_quiet now s s2 ch (isPlaying s) (length (images s)) (intervalMs s));
    auto.
  - apply (Structural_same s); auto. apply I.
  - apply (Current_same _ _ _ s); auto. apply I.
Qed.

Lemma handleStop_quiet (t0 now : Q) (s : State) :
  Inv t0 s -> (clock s <= now)%Q ->
  Quiet (now + min_gap (clampedInterval (intervalMs (handleStop now s))))
        (handleStop now s).
Proof.
  intros I Hn. destruct (handleStop_settled t0 now s I Hn) as (_ & _ & Np).
  unfold Quiet. split.
  - intros t Hin K. exfalso. apply Np. left. eauto.
  - intros f later Hin _. exfalso. apply Np. right. intros E.
    rewrite E in Hin. destruct Hin.
Qed.

Lemma handleStart_quiet (t0 now : Q) (s : State) :
  Inv t0 s -> (clock s <= now)%Q ->
  (isPlaying (handleStart now s) <> isPlaying s
   \/ length (images (handleStart now s)) <> length (images s)
   \/ same_value (clampedInterval (intervalMs s))
        (clampedInterval (intervalMs (handleStart now s))) = false) ->
  Quiet (now + min_gap (clampedInterval (intervalMs (handleStart now s))))
        (handleStart now s).
Proof.
  intros I Hn Hd. unfold handleStart in *.
  destruct (length (images s) =? 0).
  - exfalso. destruct Hd as [Hd|[Hd|Hd]]; try congruence.
    rewrite same_value_refl in Hd. discriminate.
  - apply (commit_update_quiet t0); auto. same_tac.
Qed.

(** X20.  Whatever re-arms the source restarts the wait.  After a step that
    changes what the playback effect depends on - the playing flag, the
    length of the collection or the clamped interval - so after a start,
    an import or a removal during playback, or a move of the interval
    slider, no callback advances the index before [min_gap] of the new
    clamped interval has elapsed from that step: its whole milliseconds on
    the timer path (an interval of 32.5 re-armed at 100 has its timeout
    due at 132), the interval less one part in [2^53] on the frame path,
    where the elapsed time is a rounded difference of doubles. *)
Theorem rearming_restarts_wait (t0 now : Q) (e : event) (s s' s'' : State)
        (tr : list (Q * event)) :
  reachable t0 s -> step now e s = Some s' ->
  (isPlaying s' <> isPlaying s \/ length (images s') <> length (images s)
   \/ same_value (clampedInterval (intervalMs s))
                 (clampedInterval (intervalMs s')) = false) ->
  Forall (fun te => scheduler_callback (snd te) = true
                    /\ (fst te < now + min_gap (clampedInterval (intervalMs s')))%Q)
         tr ->
  run tr s' = Some s'' ->
  advances s'' = advances s' /\ currentIndex s'' = currentIndex s'.
Proof.
  intros R Hs Hd Hall Hr. apply reachable_Inv in R.
  pose proof (step_Inv _ _ _ _ _ R Hs) as I'.
  apply (quiet_run t0 (now + min_gap (clampedInterval (intervalMs s'))) tr s' s'');
    auto.
  clear Hall Hr I'.
  apply step_clock in Hs as (Hn & s1 & H & ->).
  cbn [isPlaying images intervalMs set_clock] in *.
  assert (Q1 : Quiet (now + min_gap (clampedInterval (intervalMs s1))) s1).
  { destruct e as [| |objectUrl|files|k|rid| | | |value|index|index| |i|i|i].
    - unfold handle in H. destruct (load s) as [[session|]| |]; try discriminate;
        inversion H; subst; no_change Hd same_value_refl.
    - unfold handle in H. destruct (load s); try discriminate.
      inversion H; subst; no_change Hd same_value_refl.
    - unfold handle in H. destruct (load s) as [|session|]; try discriminate.
      destruct (restoreImages objectUrl session) as [restored|];
        inversion H; subst; [|no_change Hd same_value_refl].
      apply (commit_update_quiet t0); auto. same_tac.
    - unfold handle in H. inversion H; subst; no_change Hd same_value_refl.
    - unfold handle in H.
      destruct (nth_error (imports s) k) as [job|]; try discriminate.
      destruct (handleFiles_outcome (job_selected job) (job_attempted job)) as [o|];
        inversion H; subst; [|no_change Hd same_value_refl].
      apply (commit_update_quiet t0); auto. destruct (io_alert o); same_tac.
    - unfold handle in H.
      destruct (handleRemove rid (images s) (currentIndex s)) as [next idx].
      inversion H; subst. apply (commit_update_quiet t0); auto. same_tac.
    - unfold handle in H. inversion H; subst. now apply (handleStart_quiet t0).
    - unfold handle in H. inversion H; subst. now apply (handleStop_quiet t0).
    - unfold handle in H. destruct (length (images s) =? 0).
      { inversion H; subst; no_change Hd same_value_refl. }
      destruct (isPlaying s) eqn:Ep; inversion H; subst.
      + now apply (handleStop_quiet t0).
      + apply (handleStart_quiet t0); auto. rewrite Ep. exact Hd.
    - unfold handle in H. inversion H; subst.
      apply (commit_update_quiet t0); auto. same_tac.
    - unfold handle in H.
      destruct (index <? length (images s)); inversion H; subst; no_change Hd same_value_refl.
    - unfold handle in H.
      destruct (index <? length (images s)); inversion H; subst; no_change Hd same_value_refl.
    - unfold handle in H.
      destruct (defined_all _) as [imgs|]; inversion H; subst.
      apply (commit_update_quiet t0); auto. same_tac.
    - exfalso.
      destruct (find (fun t => to_id t =? i) (timeouts s)) as [t|] eqn:Hf;
        [|unfold handle in H; rewrite Hf in H; discriminate].
      destruct (Qle_bool (to_due t) now) eqn:Hdue;
        [|unfold handle in H; rewrite Hf, Hdue in H; discriminate].
      destruct (to_cb t) as [c imgs|len c] eqn:Hc.
      + rewrite (save_fired_eq now s i t c imgs Hf Hdue Hc) in H.
        inversion H; subst; no_change Hd same_value_refl.
      + rewrite (tick_fired_eq now s i t len c Hf Hdue Hc) in H.
        inversion H; subst; no_change Hd same_value_refl.
    - exfalso.
      destruct (find (fun f => fr_id f =? i) (frames s)) as [f|] eqn:Hf;
        [|unfold handle in H; rewrite Hf in H; discriminate].
      destruct (find_frame s i f Hf) as [Hin _].
      destruct (cur_frame _ _ _ _ (inv_current _ _ R) f Hin) as (Hp & _).
      pose proof (frame_fired_eq now s i f Hf Hp) as E. cbv zeta in E.
      rewrite E in H. inversion H; subst; no_change Hd same_value_refl.
    - exfalso.
      destruct (find (fun t => to_id t =? i) (timeouts s)) as [t|] eqn:Hf;
        [|unfold handle in H; rewrite Hf in H; discriminate].
      destruct (Qle_bool (to_due t) now) eqn:Hdue;
        [|unfold handle in H; rewrite Hf, Hdue in H; discriminate].
      destruct (to_cb t) as [c imgs|len c] eqn:Hc;
        [|unfold handle in H; rewrite Hf, Hdue, Hc in H; discriminate].
      rewrite (save_failed_eq now s i t c imgs Hf Hdue Hc) in H.
      inversion H; subst; no_change Hd same_value_refl. }
  destruct Q1 as [A B]. split; [exact A|exact B].
Qed.

Lemma rearming_restarts_wait_witness :
  let f := fun n : string => mkFile n (Some "data:"%string) "blob:" n in
  exists s s' s'',
    run [(10%Q, FilesPicked [f "a"%string; f "b"%string]);
         (20%Q, ImportSettled 0); (30%Q, Start)]
        (mount 0 None) = Some s
    /\ step 129 (IntervalChange (Num 20)) s = Some s'
    /\ run [(130%Q, FrameFired 4); (148%Q, FrameFired 5)] s' = Some s''
    /\ currentIndex s'' = 0
    /\ min_gap (clampedInterval (Num (65 # 2))) = 32%Q.
Proof.
  cbv zeta.
  set (tr0 := [(10%Q, FilesPicked [mkFile "a" (Some "data:"%string) "blob:" "a";
                                   mkFile "b" (Some "data:"%string) "blob:" "b"]);
               (20%Q, ImportSettled 0); (30%Q, Start)]).
  assert (H : exists s s' s'',
             run tr0 (mount 0 None) = Some s
             /\ step 129 (IntervalChange (Num 20)) s = Some s'
             /\ run [(130%Q, FrameFired 4); (148%Q, FrameFired 5)] s' = Some s''
             /\ intervalMs s = Num 100 /\ intervalMs s' = Num 20
             /\ currentIndex s' = 0).
  { do 3 eexists. split; [vm_compute; reflexivity|].
    split; [vm_compute; reflexivity|].
    split; [vm_compute; reflexivity|]. repeat split; reflexivity. }
  destruct H as (s & s' & s'' & Hs & H1 & H2 & Hv & Hv' & Hi).
  exists s, s', s''. repeat (split; [assumption|]).
  destruct (rearming_restarts_wait 0 129 (IntervalChange (Num 20)) s s' s''
              [(130%Q, FrameFired 4); (148%Q, FrameFired 5)]
              (ex_intro _ None (ex_intro _ tr0 Hs)) H1) as (_ & B).
  - right. right. rewrite Hv, Hv'. reflexivity.
  - rewrite Hv'. repeat constructor; cbn [snd fst]; vm_compute; reflexivity.
  - exact H2.
  - split; [congruence|]. vm_compute. reflexivity.
Defined.

(* ================================================================== *)
(** ** The interval as a projection, and what an event may change *)
(* ================================================================== *)

Lemma Qle_bool_false (p q : Q) : Qle_bool p q = false <-> (q < p)%Q.
Proof.
  split.
  - intros H. destruct (Qlt_le_dec q p) as [L|L]; [exact L|].
    apply Qle_bool_iff in L. congruence.
  - intros H. destruct (Qle_bool p q) eqn:E; [|reflexivity].
    apply Qle_bool_iff in E. lra.
Qed.

Lemma clamp_Num (q : Q) :
  clamp (Num q)
  = if Qle_bool q 16 then Num 16
    else if Qle_bool q 10000 then Num q else Num 10000.
Proof.
  unfold clamp, Math_min, Math_max, MIN_INTERVAL, MAX_INTERVAL, leb.
  destruct (Qle_bool q 16); [reflexivity|].
  destruct (Qle_bool q 10000); reflexivity.
Qed.

Lemma leb_Num (p q : Q) : leb (Num p) (Num q) = Qle_bool p q.
Proof. reflexivity. Qed.

(** X21.  The interval handed to [setIntervalMs] is the nearest value of
    [[16, 10000]]: a value in range is stored as it is - so every preset
    is -, a smaller one (also minus infinity) as 16, a larger one (also
    infinity) as 10000; the clamp is monotone and clamping twice is
    clamping once. *)
Theorem interval_is_projected (v w : number) :
  (in_range v -> same_value (handleIntervalChange v) v = true)
  /\ (forall q, v = Num q -> (q < 16)%Q -> handleIntervalChange v = Num 16)
  /\ (forall q, v = Num q -> (10000 < q)%Q -> handleIntervalChange v = Num 10000)
  /\ handleIntervalChange NegInf = Num 16
  /\ handleIntervalChange PosInf = Num 10000
  /\ Forall (fun p => handleIntervalChange p = p) PRESETS
  /\ (leb v w = true ->
      leb (handleIntervalChange v) (handleIntervalChange w) = true)
  /\ handleIntervalChange (handleIntervalChange v) = handleIntervalChange v.
Proof.
  unfold handleIntervalChange.
  split; [|split; [|split; [|split; [reflexivity|split; [reflexivity|split;
    [|split; [|apply clamp_idem]]]]]]].
  - destruct v as [| |q|]; try contradiction. intros [A B].
    rewrite clamp_Num.
    destruct (Qle_bool q 16) eqn:E1.
    + apply Qle_bool_iff in E1. apply Qeq_bool_iff. lra.
    + apply Qle_bool_iff in B. rewrite B. apply Qeq_bool_iff. reflexivity.
  - intros q -> Hq. rewrite clamp_Num.
    assert (E : Qle_bool q 16 = true) by (apply Qle_bool_iff; lra).
    now rewrite E.
  - intros q -> Hq. rewrite clamp_Num.
    assert (E : Qle_bool q 16 = false) by (apply Qle_bool_false; lra).
    assert (E' : Qle_bool q 10000 = false) by (apply Qle_bool_false; lra).
    now rewrite E, E'.
  - repeat constructor.
  - destruct v as [| |p|], w as [| |q|]; try discriminate; try reflexivity.
    + intros _. rewrite clamp_Num. change (clamp NegInf) with (Num 16).
      destruct (Qle_bool q 16) eqn:E0; [reflexivity|].
      apply Qle_bool_false in E0.
      destruct (Qle_bool q 10000) eqn:E; [|reflexivity].
      rewrite leb_Num. apply Qle_bool_iff. lra.
    + rewrite leb_Num. intros H. apply Qle_bool_iff in H.
      rewrite !clamp_Num.
      destruct (Qle_bool p 16) eqn:E1, (Qle_bool q 16) eqn:E2.
      * reflexivity.
      * apply Qle_bool_false in E2.
        destruct (Qle_bool q 10000) eqn:E3; [|reflexivity].
        rewrite leb_Num. apply Qle_bool_iff. lra.
      * apply Qle_bool_false in E1. apply Qle_bool_iff in E2. lra.
      * apply Qle_bool_false in E1, E2.
        destruct (Qle_bool p 10000) eqn:E3, (Qle_bool q 10000) eqn:E4;
          rewrite leb_Num; try reflexivity.
        -- now apply Qle_bool_iff.
        -- apply Qle_bool_iff in E3. apply Qle_bool_iff. lra.
        -- apply Qle_bool_false in E3. apply Qle_bool_iff in E4. lra.
    + intros _. rewrite clamp_Num. change (clamp PosInf) with (Num 10000).
      destruct (Qle_bool p 16); [reflexivity|].
      destruct (Qle_bool p 10000) eqn:E; [exact E|reflexivity].
Qed.

Lemma interval_is_projected_witness :
  same_value (handleIntervalChange (Num 250)) (Num 250) = true
  /\ handleIntervalChange (Num 3) = Num 16
  /\ handleIntervalChange (Num 20000) = Num 10000
  /\ leb (handleIntervalChange (Num 3)) (handleIntervalChange (Num 250)) = true.
Proof.
  destruct (interval_is_projected (Num 250) (Num 250)) as (A & _).
  destruct (interval_is_projected (Num 3) (Num 250)) as (_ & B & _ & _ & _ & _ & D & _).
  destruct (interval_is_projected (Num 20000) (Num 250)) as (_ & _ & C & _).
  split; [apply A; cbn; lra|]. split; [apply (B 3%Q); [reflexivity|lra]|].
  split; [apply (C 20000%Q); [reflexivity|lra]|]. apply D. reflexivity.
Defined.

(** X22.  Each event changes its own part of the state and nothing else:
    only a start, a stop or the space key change [isPlaying]; only a
    restore, an import, a removal or a reorder change the collection; only
    an interval change or a restore change the interval; only a removal, a
    reorder or a callback of the scheduler change the index; and only a
    callback of the scheduler writes to the store or counts an advance. *)
Theorem each_event_changes_its_part (t0 now : Q) (e : event) (s s' : State) :
  reachable t0 s -> step now e s = Some s' ->
  (sets_isPlaying e = false -> isPlaying s' = isPlaying s)
  /\ (sets_images e = false -> images s' = images s)
  /\ (sets_intervalMs e = false -> intervalMs s' = intervalMs s)
  /\ (sets_currentIndex e = false -> currentIndex s' = currentIndex s)
  /\ (scheduler_callback e = false ->
      store s' = store s /\ advances s' = advances s).
Proof.
  intros R Hs. apply reachable_Inv in R.
  apply step_clock in Hs as (Hn & s1 & H & ->).
  cbn [isPlaying images intervalMs currentIndex store advances set_clock].
  assert (Hstart : same_ui (if length (images s) =? 0 then s
                            else set_isPlaying true s) (handleStart now s)).
  { unfold handleStart. destruct (length (images s) =? 0);
      [apply same_ui_refl|].
    apply (commit_update t0 now s (set_isPlaying true s) false R Hn). same_tac. }
  destruct (handleStop_settled t0 now s R Hn) as (_ & Ustop & _).
  destruct e as [| |objectUrl|files|k|rid| | | |value|index|index| |i|i|i];
    cbn [sets_isPlaying sets_images sets_intervalMs sets_currentIndex
         scheduler_callback].
  - unfold handle in H. destruct (load s) as [[session|]| |]; try discriminate;
      inversion H; subst; cbn; repeat split; intros; first [assumption|reflexivity|congruence].
  - unfold handle in H. destruct (load s); try discriminate.
    inversion H; subst; repeat split; intros; first [assumption|reflexivity|congruence].
  - unfold handle in H. destruct (load s) as [|session|]; try discriminate.
    destruct (restoreImages objectUrl session) as [restored|];
      inversion H; subst; [|repeat split; intros; first [assumption|reflexivity|congruence]].
    match goal with |- context [commit now s ?c ?x] =>
      destruct (commit_update t0 now s x c R Hn) as [_ U]; [same_tac|] end.
    ui_fields U. repeat split; intros; first [assumption|reflexivity|congruence].
  - unfold handle in H. inversion H; subst; repeat split; intros; first [assumption|reflexivity|congruence].
  - unfold handle in H.
    destruct (nth_error (imports s) k) as [job|]; try discriminate.
    destruct (handleFiles_outcome (job_selected job) (job_attempted job)) as [o|];
      inversion H; subst; [|repeat split; intros; first [assumption|reflexivity|congruence]].
    match goal with |- context [commit now s ?c ?x] =>
      destruct (commit_update t0 now s x c R Hn) as [_ U];
        [destruct (io_alert o); same_tac|] end.
    destruct (io_alert o); ui_fields U;
      repeat split; intros; first [assumption|reflexivity|congruence].
  - unfold handle in H.
    destruct (handleRemove rid (images s) (currentIndex s)) as [next idx].
    inversion H; subst.
    match goal with |- context [commit now s ?c ?x] =>
      destruct (commit_update t0 now s x c R Hn) as [_ U]; [same_tac|] end.
    ui_fields U. repeat split; intros; first [assumption|reflexivity|congruence].
  - unfold handle in H. inversion H; subst.
    destruct (length (images s) =? 0); ui_fields Hstart;
      repeat split; intros; first [assumption|reflexivity|congruence].
  - unfold handle in H. inversion H; subst.
    ui_fields Ustop. repeat split; intros; first [assumption|reflexivity|congruence].
  - unfold handle in H. destruct (length (images s) =? 0).
    { inversion H; subst. repeat split; intros; first [assumption|reflexivity|congruence]. }
    destruct (isPlaying s); inversion H; subst.
    + ui_fields Ustop. repeat split; intros; first [assumption|reflexivity|congruence].
    + ui_fields Hstart. repeat split; intros; first [assumption|reflexivity|congruence].
  - unfold handle in H. inversion H; subst.
    match goal with |- context [commit now s ?c ?x] =>
      destruct (commit_update t0 now s x c R Hn) as [_ U]; [same_tac|] end.
    ui_fields U. repeat split; intros; first [assumption|reflexivity|congruence].
  - unfold handle in H.
    destruct (index <? length (images s)); inversion H; subst.
    repeat split; intros; first [assumption|reflexivity|congruence].
  - unfold handle in H.
    destruct (index <? length (images s)); inversion H; subst.
    repeat split; intros; first [assumption|reflexivity|congruence].
  - unfold handle in H.
    destruct (defined_all _) as [imgs|]; inversion H; subst.
    match goal with |- context [commit now s ?c ?x] =>
      destruct (commit_update t0 now s x c R Hn) as [_ U]; [same_tac|] end.
    ui_fields U. repeat split; intros; first [assumption|reflexivity|congruence].
  - destruct (find (fun t => to_id t =? i) (timeouts s)) as [t|] eqn:Hf;
      [|unfold handle in H; rewrite Hf in H; discriminate].
    destruct (Qle_bool (to_due t) now) eqn:Hdue;
      [|unfold handle in H; rewrite Hf, Hdue in H; discriminate].
    destruct (to_cb t) as [c imgs|len c] eqn:Hc.
    + rewrite (save_fired_eq now s i t c imgs Hf Hdue Hc) in H.
      inversion H; subst. repeat split; intros; first [assumption|reflexivity|congruence].
    + rewrite (tick_fired_eq now s i t len c Hf Hdue Hc) in H.
      inversion H; subst. repeat split; intros; first [assumption|reflexivity|congruence].
  - destruct (find (fun f => fr_id f =? i) (frames s)) as [f|] eqn:Hf;
      [|unfold handle in H; rewrite Hf in H; discriminate].
    destruct (find_frame s i f Hf) as [Hin _].
    destruct (cur_frame _ _ _ _ (inv_current _ _ R) f Hin) as (Hp & _).
    pose proof (frame_fired_eq now s i f Hf Hp) as E. cbv zeta in E.
    rewrite E in H. inversion H; subst.
    repeat split; intros; first [assumption|reflexivity|congruence].
  - destruct (find (fun t => to_id t =? i) (timeouts s)) as [t|] eqn:Hf;
      [|unfold handle in H; rewrite Hf in H; discriminate].
    destruct (Qle_bool (to_due t) now) eqn:Hdue;
      [|unfold handle in H; rewrite Hf, Hdue in H; discriminate].
    destruct (to_cb t) as [c imgs|len c] eqn:Hc;
      [|unfold handle in H; rewrite Hf, Hdue, Hc in H; discriminate].
    rewrite (save_failed_eq now s i t c imgs Hf Hdue Hc) in H.
    inversion H; subst. repeat split; intros; first [assumption|reflexivity|congruence].
Qed.

Lemma each_event_changes_its_part_witness :
  let f := fun n : string => mkFile n (Some "data:"%string) "blob:" n in
  exists s s',
    run [(10%Q, FilesPicked [f "a"%string; f "b"%string]);
         (20%Q, ImportSettled 0); (30%Q, Start); (130%Q, TimeoutFired 2)]
        (mount 0 None) = Some s
    /\ step 140 (Remove "b") s = Some s'
    /\ isPlaying s' = true /\ intervalMs s' = Num 100 /\ advances s' = 1.
Proof.
  cbv zeta.
  set (tr0 := [(10%Q, FilesPicked [mkFile "a" (Some "data:"%string) "blob:" "a";
                                   mkFile "b" (Some "data:"%string) "blob:" "b"]);
               (20%Q, ImportSettled 0); (30%Q, Start); (130%Q, TimeoutFired 2)]).
  assert (H : exists s s',
             run tr0 (mount 0 None) = Some s
             /\ step 140 (Remove "b") s = Some s'
             /\ isPlaying s = true /\ intervalMs s = Num 100 /\ advances s = 1).
  { do 2 eexists. split; [vm_compute; reflexivity|].
    split; [vm_compute; reflexivity|]. repeat split; reflexivity. }
  destruct H as (s & s' & Hs & H1 & Hp & Hv & Ha).
  exists s, s'. split; [exact Hs|]. split; [exact H1|].
  destruct (each_event_changes_its_part 0 140 (Remove "b") s s'
              (ex_intro _ None (ex_intro _ tr0 Hs)) H1)
    as (A & _ & B & _ & C).
  rewrite (A eq_refl), (B eq_refl). destruct (C eq_refl) as [_ D].
  rewrite D. auto.
Defined.
